(** * Durak: the game-state engine of [python_version]

    A shallow embedding of [tools.py], [players.py] and [main.py].

    Objects that the program shares by reference and mutates in place
    (the 36 [Card] objects and the [Player] objects) live in a store and
    are referred to by their address, so that a card reached through a
    hand, the deck, the table or [card_collection] is one and the same
    cell.  A Python list is held by exactly one attribute in this program
    (every list attribute is assigned from a fresh list expression:
    a comprehension, [+], a slice, [.copy()] or [[]]) and is therefore
    carried by value in the attribute that owns it.  Python sets of
    [(suit, value)] tuples are duplicate-free lists; their iteration order
    is not specified by Python, and no statement below depends on it. *)

From Stdlib Require Import QArith.
From stdpp Require Import base list strings gmap.

(** ** Python values *)

Inductive exn :=
| BaseException | ValueError | TypeError | IndexError | KeyError
| AttributeError | AssertionError | ZeroDivisionError | NotImplementedError.

(** A [(suit, value)] tuple; a component is [None] or an [int]. *)
Definition ident : Type := option nat * option nat.

(** Results of read-only code that may raise. *)
Inductive res (A : Type) : Type :=
| Val (a : A)
| Exc (e : exn).
Arguments Val {A} a.
Arguments Exc {A} e.

#[export] Instance res_ret : MRet res := λ A a, Val a.
#[export] Instance res_bind : MBind res := λ A B f m,
  match m with
  | Val a => f a
  | Exc e => Exc e
  end.

(** [value > other] on Python values: ordering [None] is a [TypeError]. *)
Definition py_gt (a b : option nat) : res bool :=
  match a, b with
  | Some x, Some y => Val (bool_decide (y < x))
  | _, _ => Exc TypeError
  end.

(** ** tools.py: class Card *)

Module Card.
Record t := mk {
  suit : option nat;
  value : option nat;
  trump_suit : option nat;
  is_public : bool;
  is_private : bool;
  is_unknown : bool }.

(** [Card()]: the class attributes. *)
Definition new : t := mk None None None false false true.

Definition reset (c : t) : t := mk None None None false false true.

Definition make_copy (c : t) : t :=
  mk (suit c) (value c) (trump_suit c) (is_public c) (is_private c) (is_unknown c).

Definition is_trump (c : t) : bool := bool_decide (suit c = trump_suit c).

Definition from_suit_value (s v : option nat) (c : t) : res t :=
  if is_unknown c
  then Val (mk s v (trump_suit c) (is_public c) (is_private c) false)
  else Exc AssertionError.

(** Attribute assignments used by the players and the engine. *)
Definition set_suit_value (s v : option nat) (c : t) : t :=
  mk s v (trump_suit c) (is_public c) (is_private c) (is_unknown c).
Definition set_trump_suit (ts : option nat) (c : t) : t :=
  mk (suit c) (value c) ts (is_public c) (is_private c) (is_unknown c).
Definition set_is_public (b : bool) (c : t) : t :=
  mk (suit c) (value c) (trump_suit c) b (is_private c) (is_unknown c).
Definition set_is_private (b : bool) (c : t) : t :=
  mk (suit c) (value c) (trump_suit c) (is_public c) b (is_unknown c).
Definition set_is_unknown (b : bool) (c : t) : t :=
  mk (suit c) (value c) (trump_suit c) (is_public c) (is_private c) b.

(** The tuple [(card.suit, card.value)]. *)
Definition identity (c : t) : ident := (suit c, value c).
End Card.

#[export] Instance card_inhabited : Inhabited Card.t := populate Card.new.

(** ** players.py: class Player

    The subclasses differ in [choose_action] only; the engine reads
    [name] and [hand].  A hand is a list of card addresses. *)

Record Player := mkPlayer {
  name : string;
  hand : list nat }.

#[export] Instance player_inhabited : Inhabited Player := populate (mkPlayer "" []).

(** ** Actions

    An action is the tuple [(kind, payload)] or [(kind, payload, weight)]
    with [kind] one of the seven strings below.  The payload of
    ['Attack'], ['Defend'], ['Reflect'] and ['ReflectTrump'] is one
    [(suit, value)] tuple, that of ['Take'] and ['PassAttack'] is [None],
    and that of ['ThrowCards'] is a tuple: [(None,)] for the pass
    ([ThrowCards None] here), a tuple of [(suit, value)] tuples otherwise.
    These are the shapes [allowed_plays] builds and [execute_action]
    takes apart; tuples of another shape or kind are not represented.
    A weight is a Python float computed as a sum of quotients [1 / n];
    it is carried here as the exact rational and never compared. *)

Inductive act :=
| Attack (sv : ident)
| Defend (sv : ident)
| Take
| ThrowCards (throw : option (list ident))
| PassAttack
| Reflect (sv : ident)
| ReflectTrump (sv : ident).

Abbreviation action := (act * option Q)%type (only parsing).

#[export] Instance act_eq_dec : EqDecision act.
Proof. solve_decision. Defined.

(** The values of [current_action]: the strings ['Attack'], ['Defend']
    and ['ThrowCards'] (no other string is ever assigned to it). *)
Module Phase.
Inductive t := Attack | Defend | ThrowCards.
End Phase.

#[export] Instance phase_eq_dec : EqDecision Phase.t.
Proof. solve_decision. Defined.

(** ** main.py: class GameTree

    Player-valued attributes hold a player address, [None] standing for
    Python's [None] and for an attribute that is not assigned yet.
    [all_cards] is the same set in every game and is the constant
    [all_cards] below. *)

Record GameTree := mkGameTree {
  players : list nat;
  computer_shuffle : bool;
  print_info : bool;
  deck : list nat;
  card_collection : list nat;
  history : list action;
  attackers : list nat;
  defender : option nat;
  current_attacker : nat;
  player_to_play : option nat;
  draw_order : list nat;
  attacker_to_start_throwing : option nat;
  last_played_attacker : option nat;
  reflected_trumps : list ident;
  current_action : Phase.t;
  pairs_finished : list (nat * nat);
  cards_to_defend : list nat;
  is_end_state : bool;
  loser : option nat }.

Definition set_deck (x : list nat) (g : GameTree) : GameTree :=
  {| players := players g; computer_shuffle := computer_shuffle g; print_info
     := print_info g; deck := x; card_collection := card_collection g; history
     := history g; attackers := attackers g; defender := defender g;
     current_attacker := current_attacker g; player_to_play := player_to_play
     g; draw_order := draw_order g; attacker_to_start_throwing :=
     attacker_to_start_throwing g; last_played_attacker :=
     last_played_attacker g; reflected_trumps := reflected_trumps g;
     current_action := current_action g; pairs_finished := pairs_finished g;
     cards_to_defend := cards_to_defend g; is_end_state := is_end_state g;
     loser := loser g |}.
Definition set_history (x : list action) (g : GameTree) : GameTree :=
  {| players := players g; computer_shuffle := computer_shuffle g; print_info
     := print_info g; deck := deck g; card_collection := card_collection g;
     history := x; attackers := attackers g; defender := defender g;
     current_attacker := current_attacker g; player_to_play := player_to_play
     g; draw_order := draw_order g; attacker_to_start_throwing :=
     attacker_to_start_throwing g; last_played_attacker :=
     last_played_attacker g; reflected_trumps := reflected_trumps g;
     current_action := current_action g; pairs_finished := pairs_finished g;
     cards_to_defend := cards_to_defend g; is_end_state := is_end_state g;
     loser := loser g |}.
Definition set_attackers (x : list nat) (g : GameTree) : GameTree :=
  {| players := players g; computer_shuffle := computer_shuffle g; print_info
     := print_info g; deck := deck g; card_collection := card_collection g;
     history := history g; attackers := x; defender := defender g;
     current_attacker := current_attacker g; player_to_play := player_to_play
     g; draw_order := draw_order g; attacker_to_start_throwing :=
     attacker_to_start_throwing g; last_played_attacker :=
     last_played_attacker g; reflected_trumps := reflected_trumps g;
     current_action := current_action g; pairs_finished := pairs_finished g;
     cards_to_defend := cards_to_defend g; is_end_state := is_end_state g;
     loser := loser g |}.
Definition set_defender (x : option nat) (g : GameTree) : GameTree :=
  {| players := players g; computer_shuffle := computer_shuffle g; print_info
     := print_info g; deck := deck g; card_collection := card_collection g;
     history := history g; attackers := attackers g; defender := x;
     current_attacker := current_attacker g; player_to_play := player_to_play
     g; draw_order := draw_order g; attacker_to_start_throwing :=
     attacker_to_start_throwing g; last_played_attacker :=
     last_played_attacker g; reflected_trumps := reflected_trumps g;
     current_action := current_action g; pairs_finished := pairs_finished g;
     cards_to_defend := cards_to_defend g; is_end_state := is_end_state g;
     loser := loser g |}.
Definition set_current_attacker (x : nat) (g : GameTree) : GameTree :=
  {| players := players g; computer_shuffle := computer_shuffle g; print_info
     := print_info g; deck := deck g; card_collection := card_collection g;
     history := history g; attackers := attackers g; defender := defender g;
     current_attacker := x; player_to_play := player_to_play g; draw_order :=
     draw_order g; attacker_to_start_throwing := attacker_to_start_throwing g;
     last_played_attacker := last_played_attacker g; reflected_trumps :=
     reflected_trumps g; current_action := current_action g; pairs_finished :=
     pairs_finished g; cards_to_defend := cards_to_defend g; is_end_state :=
     is_end_state g; loser := loser g |}.
Definition set_player_to_play (x : option nat) (g : GameTree) : GameTree :=
  {| players := players g; computer_shuffle := computer_shuffle g; print_info
     := print_info g; deck := deck g; card_collection := card_collection g;
     history := history g; attackers := attackers g; defender := defender g;
     current_attacker := current_attacker g; player_to_play := x; draw_order
     := draw_order g; attacker_to_start_throwing := attacker_to_start_throwing
     g; last_played_attacker := last_played_attacker g; reflected_trumps :=
     reflected_trumps g; current_action := current_action g; pairs_finished :=
     pairs_finished g; cards_to_defend := cards_to_defend g; is_end_state :=
     is_end_state g; loser := loser g |}.
Definition set_draw_order (x : list nat) (g : GameTree) : GameTree :=
  {| players := players g; computer_shuffle := computer_shuffle g; print_info
     := print_info g; deck := deck g; card_collection := card_collection g;
     history := history g; attackers := attackers g; defender := defender g;
     current_attacker := current_attacker g; player_to_play := player_to_play
     g; draw_order := x; attacker_to_start_throwing :=
     attacker_to_start_throwing g; last_played_attacker :=
     last_played_attacker g; reflected_trumps := reflected_trumps g;
     current_action := current_action g; pairs_finished := pairs_finished g;
     cards_to_defend := cards_to_defend g; is_end_state := is_end_state g;
     loser := loser g |}.
Definition set_attacker_to_start_throwing (x : option nat) (g : GameTree) : GameTree :=
  {| players := players g; computer_shuffle := computer_shuffle g; print_info
     := print_info g; deck := deck g; card_collection := card_collection g;
     history := history g; attackers := attackers g; defender := defender g;
     current_attacker := current_attacker g; player_to_play := player_to_play
     g; draw_order := draw_order g; attacker_to_start_throwing := x;
     last_played_attacker := last_played_attacker g; reflected_trumps :=
     reflected_trumps g; current_action := current_action g; pairs_finished :=
     pairs_finished g; cards_to_defend := cards_to_defend g; is_end_state :=
     is_end_state g; loser := loser g |}.
Definition set_last_played_attacker (x : option nat) (g : GameTree) : GameTree :=
  {| players := players g; computer_shuffle := computer_shuffle g; print_info
     := print_info g; deck := deck g; card_collection := card_collection g;
     history := history g; attackers := attackers g; defender := defender g;
     current_attacker := current_attacker g; player_to_play := player_to_play
     g; draw_order := draw_order g; attacker_to_start_throwing :=
     attacker_to_start_throwing g; last_played_attacker := x; reflected_trumps
     := reflected_trumps g; current_action := current_action g; pairs_finished
     := pairs_finished g; cards_to_defend := cards_to_defend g; is_end_state
     := is_end_state g; loser := loser g |}.
Definition set_reflected_trumps (x : list ident) (g : GameTree) : GameTree :=
  {| players := players g; computer_shuffle := computer_shuffle g; print_info
     := print_info g; deck := deck g; card_collection := card_collection g;
     history := history g; attackers := attackers g; defender := defender g;
     current_attacker := current_attacker g; player_to_play := player_to_play
     g; draw_order := draw_order g; attacker_to_start_throwing :=
     attacker_to_start_throwing g; last_played_attacker :=
     last_played_attacker g; reflected_trumps := x; current_action :=
     current_action g; pairs_finished := pairs_finished g; cards_to_defend :=
     cards_to_defend g; is_end_state := is_end_state g; loser := loser g |}.
Definition set_current_action (x : Phase.t) (g : GameTree) : GameTree :=
  {| players := players g; computer_shuffle := computer_shuffle g; print_info
     := print_info g; deck := deck g; card_collection := card_collection g;
     history := history g; attackers := attackers g; defender := defender g;
     current_attacker := current_attacker g; player_to_play := player_to_play
     g; draw_order := draw_order g; attacker_to_start_throwing :=
     attacker_to_start_throwing g; last_played_attacker :=
     last_played_attacker g; reflected_trumps := reflected_trumps g;
     current_action := x; pairs_finished := pairs_finished g; cards_to_defend
     := cards_to_defend g; is_end_state := is_end_state g; loser := loser g
     |}.
Definition set_pairs_finished (x : list (nat * nat)) (g : GameTree) : GameTree :=
  {| players := players g; computer_shuffle := computer_shuffle g; print_info
     := print_info g; deck := deck g; card_collection := card_collection g;
     history := history g; attackers := attackers g; defender := defender g;
     current_attacker := current_attacker g; player_to_play := player_to_play
     g; draw_order := draw_order g; attacker_to_start_throwing :=
     attacker_to_start_throwing g; last_played_attacker :=
     last_played_attacker g; reflected_trumps := reflected_trumps g;
     current_action := current_action g; pairs_finished := x; cards_to_defend
     := cards_to_defend g; is_end_state := is_end_state g; loser := loser g
     |}.
Definition set_cards_to_defend (x : list nat) (g : GameTree) : GameTree :=
  {| players := players g; computer_shuffle := computer_shuffle g; print_info
     := print_info g; deck := deck g; card_collection := card_collection g;
     history := history g; attackers := attackers g; defender := defender g;
     current_attacker := current_attacker g; player_to_play := player_to_play
     g; draw_order := draw_order g; attacker_to_start_throwing :=
     attacker_to_start_throwing g; last_played_attacker :=
     last_played_attacker g; reflected_trumps := reflected_trumps g;
     current_action := current_action g; pairs_finished := pairs_finished g;
     cards_to_defend := x; is_end_state := is_end_state g; loser := loser g
     |}.
Definition set_is_end_state (x : bool) (g : GameTree) : GameTree :=
  {| players := players g; computer_shuffle := computer_shuffle g; print_info
     := print_info g; deck := deck g; card_collection := card_collection g;
     history := history g; attackers := attackers g; defender := defender g;
     current_attacker := current_attacker g; player_to_play := player_to_play
     g; draw_order := draw_order g; attacker_to_start_throwing :=
     attacker_to_start_throwing g; last_played_attacker :=
     last_played_attacker g; reflected_trumps := reflected_trumps g;
     current_action := current_action g; pairs_finished := pairs_finished g;
     cards_to_defend := cards_to_defend g; is_end_state := x; loser := loser g
     |}.
Definition set_loser (x : option nat) (g : GameTree) : GameTree :=
  {| players := players g; computer_shuffle := computer_shuffle g; print_info
     := print_info g; deck := deck g; card_collection := card_collection g;
     history := history g; attackers := attackers g; defender := defender g;
     current_attacker := current_attacker g; player_to_play := player_to_play
     g; draw_order := draw_order g; attacker_to_start_throwing :=
     attacker_to_start_throwing g; last_played_attacker :=
     last_played_attacker g; reflected_trumps := reflected_trumps g;
     current_action := current_action g; pairs_finished := pairs_finished g;
     cards_to_defend := cards_to_defend g; is_end_state := is_end_state g;
     loser := x |}.

(** ** The store and the state monad

    [cards] and [persons] are the store of [Card] and [Player] objects;
    [game] is the [GameTree] object the code runs on ([self] in main.py,
    [game_state] in players.py).  The store may hold objects of other
    games as well (snapshots share it with their original). *)

Record State := mkState {
  cards : list Card.t;
  persons : list Player;
  game : GameTree }.

(** A computation returns a value or raises; the mutations made before
    a [raise] stay in the state, as they do in Python. *)
Inductive result (A : Type) : Type :=
| Ok (a : A) (st : State)
| Raise (e : exn) (st : State).
Arguments Ok {A} a st.
Arguments Raise {A} e st.

Definition M (A : Type) : Type := State → result A.

#[export] Instance M_ret : MRet M := λ A a st, Ok a st.
#[export] Instance M_bind : MBind M := λ A B f m st,
  match m st with
  | Ok a st' => f a st'
  | Raise e st' => Raise e st'
  end.

Definition raise {A} (e : exn) : M A := λ st, Raise e st.
Definition get_state : M State := λ st, Ok st st.
Definition modify (f : State → State) : M unit := λ st, Ok tt (f st).
Definition lift {A} (r : res A) : M A := λ st,
  match r with
  | Val a => Ok a st
  | Exc e => Raise e st
  end.

(** [for x in l: body x] *)
Fixpoint for_each {A} (l : list A) (body : A → M unit) : M unit :=
  match l with
  | [] => mret tt
  | x :: l' => body x ;; for_each l' body
  end.

(** The final state of a computation, raised or not. *)
Definition state_of {A} (r : result A) : State :=
  match r with
  | Ok _ st => st
  | Raise _ st => st
  end.

Definition card (st : State) (a : nat) : Card.t := cards st !!! a.
Definition person (st : State) (p : nat) : Player := persons st !!! p.
Definition hand_of (st : State) (p : nat) : list nat := hand (person st p).

Definition set_card (a : nat) (c : Card.t) (st : State) : State :=
  mkState (<[a := c]> (cards st)) (persons st) (game st).
Definition upd_card (a : nat) (f : Card.t → Card.t) (st : State) : State :=
  set_card a (f (card st a)) st.
Definition set_hand (p : nat) (h : list nat) (st : State) : State :=
  mkState (cards st) (<[p := mkPlayer (name (person st p)) h]> (persons st)) (game st).
Definition upd_game (f : GameTree → GameTree) (st : State) : State :=
  mkState (cards st) (persons st) (f (game st)).

(** An attribute read through a reference that is [None]. *)
Definition deref {A} (o : option A) : res A :=
  match o with
  | Some x => Val x
  | None => Exc AttributeError
  end.

(** [l[i]] *)
Definition index {A} (l : list A) (i : nat) : res A :=
  match l !! i with
  | Some x => Val x
  | None => Exc IndexError
  end.

(** [a % n] *)
Definition py_mod (a n : nat) : res nat :=
  if decide (n = 0) then Exc ZeroDivisionError else Val (a mod n).

(** ** Card knowledge *)

(** [{(suit, value) for suit in range(4) for value in range(9)}] *)
Definition all_cards : list ident :=
  s ← seq 0 4; v ← seq 0 9; [(Some s, Some v)].

Definition collection (st : State) : list Card.t :=
  card st <$> card_collection (game st).

Definition get_unknown_cards (st : State) : list ident :=
  let remove := Card.identity <$> filter (λ c, Card.is_unknown c = false) (collection st) in
  list_difference all_cards remove.

Definition get_non_public_cards (st : State) : list ident :=
  let remove := Card.identity <$> filter (λ c, Card.is_public c = true) (collection st) in
  list_difference all_cards remove.

(** ** players.py: the methods of Player *)

(** The loop of [fill_hand]: draw from the top while cards are owed and
    the deck is not empty. *)
Fixpoint draw (to_draw : nat) (deck hand : list nat) : list nat * list nat :=
  match to_draw with
  | 0 => (deck, hand)
  | S n =>
      match deck with
      | [] => (deck, hand)
      | card_drawn :: deck' => draw n deck' (hand ++ [card_drawn])
      end
  end.

Definition fill_hand (p : nat) (deck : list nat) : M (list nat) := λ st,
  let to_draw := (6 - Z.of_nat (length (hand_of st p)))%Z in
  if decide (to_draw ≤ 0)%Z then Ok deck st
  else
    let '(deck', hand') := draw (Z.to_nat to_draw) deck (hand_of st p) in
    Ok deck' (set_hand p hand' st).

(** [[(c.suit, c.value) for c in self.hand if not c.is_unknown]] *)
Definition known_identities (st : State) (h : list nat) : list ident :=
  Card.identity <$> filter (λ c, Card.is_unknown c = false) (card st <$> h).

Definition possible_card_plays (st : State) (p : nat) (non_public_cards : list ident)
    : list ident :=
  foldl (λ poss_plays a,
           if Card.is_unknown (card st a)
           then list_union poss_plays non_public_cards
           else list_union poss_plays [Card.identity (card st a)])
        [] (hand_of st p).

(** The condition under which the loop of [discard_card] breaks at a
    card: an unknown card is taken when [(suit, value)] is non-public
    and is not pinned to a known card of the hand, a known card when it
    carries [(suit, value)]. *)
Definition discardable (st : State) (h : list nat) (sv : ident) (a : nat) : Prop :=
  if Card.is_unknown (card st a)
  then sv ∈ get_non_public_cards st ∧ sv ∉ known_identities st h
  else Card.suit (card st a) = sv.1 ∧ Card.value (card st a) = sv.2.

#[export] Instance discardable_dec st h sv a : Decision (discardable st h sv a).
Proof. unfold discardable. destruct (Card.is_unknown (card st a)); apply _. Defined.

Definition make_public (c : Card.t) : Card.t :=
  Card.set_is_public true (Card.set_is_private false (Card.set_is_unknown false c)).

Definition discard_card (p : nat) (sv : ident) (remove : bool) : M nat := λ st,
  let h := hand_of st p in
  match list_find (discardable st h sv) h with
  | None => Raise BaseException st
  | Some (idx, a) =>
      let st1 :=
        if Card.is_unknown (card st a)
        then upd_card a (Card.set_suit_value sv.1 sv.2) st
        else st in
      let st2 := if remove then set_hand p (delete idx h) st1 else st1 in
      Ok a (upd_card a make_public st2)
  end.

(** The greedy loop of [can_throw]: each card takes the first remaining
    slot that admits it. *)
Fixpoint pop_first (c : ident) (poss : list (list ident)) : option (list (list ident)) :=
  match poss with
  | [] => None
  | p :: poss' =>
      if decide (c ∈ p) then Some poss'
      else cons p <$> pop_first c poss'
  end.

Fixpoint greedy (poss2 : list (list ident)) (cards : list ident) : bool :=
  match cards with
  | [] => true
  | c :: cards' =>
      match pop_first c poss2 with
      | Some poss2' => greedy poss2' cards'
      | None => false
      end
  end.

Definition can_throw (st : State) (p : nat) (fallback_identities : list ident)
    (cards : list ident) : bool :=
  let hand_cards := card st <$> hand_of st p in
  let poss := (λ c, [Card.identity c]) <$>
                filter (λ c, Card.is_unknown c = false ∧ Card.identity c ∈ cards) hand_cards in
  let fallback := length (filter (λ c, Card.is_unknown c = true) hand_cards) in
  if decide (length poss + fallback < length cards) then false
  else greedy (poss ++ replicate (fallback `min` length cards) fallback_identities) cards.

(** ** main.py: the methods of GameTree *)

(** [self.<attribute> = x] *)
Definition assign {A} (set : A → GameTree → GameTree) (x : A) : M unit :=
  modify (upd_game (set x)).

(** [len(person.hand) > 0 or len(self.deck) > 0] *)
Definition living (st : State) (p : nat) : Prop :=
  0 < length (hand_of st p) ∨ 0 < length (deck (game st)).

#[export] Instance living_dec st p : Decision (living st p).
Proof. unfold living. apply _. Defined.

(** The seats from [idx] on, clockwise:
    [self.players[i % people] for i in range(idx, idx + people)]. *)
Definition seats_from (ps : list nat) (idx : nat) : list nat :=
  (λ i, ps !!! (i mod length ps)) <$> seq idx (length ps).

Definition new_trick (main_attacker : string) : M unit :=
  st ← get_state;
  match list_find (λ p, name (person st p) = main_attacker) (players (game st)) with
  | None => raise TypeError
  | Some (idx, _) =>
      let living_seats := filter (living st) (seats_from (players (game st)) idx) in
      assign set_attackers living_seats ;;
      match living_seats with
      | [] =>
          assign set_is_end_state true ;;
          assign set_loser (defender (game st))
      | [last] =>
          assign set_is_end_state true ;;
          assign set_loser (Some last)
      | main :: second :: others =>
          assign set_defender (Some second) ;;
          assign set_attackers (main :: others) ;;
          assign set_current_attacker 0 ;;
          assign set_player_to_play (Some main) ;;
          assign set_draw_order ((main :: others) ++ [second]) ;;
          assign set_attacker_to_start_throwing None ;;
          assign set_last_played_attacker None ;;
          assign set_reflected_trumps []
      end ;;
      assign set_current_action Phase.Attack ;;
      assign set_pairs_finished [] ;;
      assign set_cards_to_defend []
  end.

(** [[card for pair in self.pairs_finished for card in pair]] *)
Definition flatten_pairs (pairs : list (nat * nat)) : list nat :=
  pair ← pairs; [pair.1; pair.2].

(** [itertools.combinations(l, r)] *)
Fixpoint combinations {A} (l : list A) (r : nat) : list (list A) :=
  match r with
  | 0 => [[]]
  | S r' =>
      match l with
      | [] => []
      | x :: l' => (cons x <$> combinations l' r') ++ combinations l' (S r')
      end
  end.

(** [play_options[key] += w] on a [defaultdict(int)]. *)
Fixpoint dict_add (key : act) (w : Q) (d : list (act * Q)) : list (act * Q) :=
  match d with
  | [] => [(key, Qred (0 + w))]
  | (k, v) :: d' =>
      if decide (k = key) then (k, Qred (v + w)) :: d'
      else (k, v) :: dict_add key w d'
  end.

Definition add_options (options : list act) (d : list (act * Q)) : list (act * Q) :=
  foldl (λ d a, dict_add a (1 # Pos.of_nat (length options)) d) d options.

(** The body of the loop over the candidate identities of one hand card
    in the Defend phase: the actions it appends to [reflect] and to
    [defend]. *)
Definition reflect_options (st : State) (to_defend : Card.t) (sv : ident) : res (list act) :=
  let g := game st in
  if decide (length (pairs_finished g) = 0) then
    i ← py_mod 1 (length (attackers g));
    new_defender ← index (attackers g) i;
    let max_new_piles :=
      (Z.of_nat (length (hand_of st new_defender)) - Z.of_nat (length (cards_to_defend g)))%Z in
    mret ((if decide ((1 ≤ max_new_piles)%Z ∧ sv.2 = Card.value to_defend)
           then [Reflect sv] else [])
          ++
          (if decide ((0 ≤ max_new_piles)%Z ∧
                      (sv.2 = Card.value to_defend ∧ sv.1 = Card.trump_suit to_defend) ∧
                      sv ∉ reflected_trumps g)
           then [ReflectTrump sv] else []))
  else mret [].

Definition defend_options (to_defend : Card.t) (sv : ident) : res (list act) :=
  let by_trump :=
    if decide (sv.1 = Card.trump_suit to_defend ∧ Card.is_trump to_defend = false)
    then [Defend sv] else [] in
  if decide (sv.1 = Card.suit to_defend) then
    higher ← py_gt sv.2 (Card.value to_defend);
    mret (by_trump ++ if higher : bool then [Defend sv] else [])
  else mret by_trump.

Fixpoint scan_identities (st : State) (to_defend : Card.t) (identities : list ident)
    (reflect defend : list act) : res (list act * list act) :=
  match identities with
  | [] => mret (reflect, defend)
  | sv :: identities' =>
      r ← reflect_options st to_defend sv;
      d ← defend_options to_defend sv;
      scan_identities st to_defend identities' (reflect ++ r) (defend ++ d)
  end.

(** The candidate identities of a hand card of [player]. *)
Definition identities_of (st : State) (player a : nat) : list ident :=
  if Card.is_unknown (card st a)
  then list_difference (get_non_public_cards st) (known_identities st (hand_of st player))
  else [Card.identity (card st a)].

Fixpoint scan_hand (st : State) (to_defend : Card.t) (player : nat) (h : list nat)
    (play_options : list (act * Q)) : res (list (act * Q)) :=
  match h with
  | [] => mret play_options
  | a :: h' =>
      '(reflect, defend) ← scan_identities st to_defend (identities_of st player a) [] [];
      scan_hand st to_defend player h' (add_options reflect (add_options defend play_options))
  end.

(** [{card.value for pair in self.pairs_finished for card in pair}] *)
Definition values_in_pairs (st : State) : list (option nat) :=
  (λ a, Card.value (card st a)) <$> flatten_pairs (pairs_finished (game st)).

Definition allowed_plays (st : State) : res (list action) :=
  let g := game st in
  poss_actions ←
    match current_action g with
    | Phase.Attack =>
        attacker ← index (attackers g) (current_attacker g);
        if decide (Some attacker = player_to_play g) then
          let poss_plays := possible_card_plays st attacker (get_non_public_cards st) in
          let '(poss_actions, poss_plays) :=
            if decide (0 < length (pairs_finished g))
            then ([(PassAttack, None)],
                  filter (λ c, c.2 ∈ values_in_pairs st) poss_plays)
            else ([], poss_plays) in
          d ← deref (defender g);
          if decide (0 < length (hand_of st d))
          then mret (poss_actions ++ ((λ sv, (Attack sv, None)) <$> poss_plays))
          else mret poss_actions
        else Exc AssertionError
    | Phase.Defend =>
        to_defend ← index (cards_to_defend g) 0;
        player ← deref (player_to_play g);
        play_options ← scan_hand st (card st to_defend) player (hand_of st player) [];
        mret (((λ kw : act * Q, (kw.1, Some kw.2)) <$> play_options)
              ++ [(Take, Some (1 # 2))])
    | Phase.ThrowCards =>
        player ← deref (player_to_play g);
        let values_on_table :=
          values_in_pairs st ++ ((λ a, Card.value (card st a)) <$> cards_to_defend g) in
        let poss_throws :=
          filter (λ c, c.2 ∈ values_on_table)
                 (possible_card_plays st player (get_non_public_cards st)) in
        d ← deref (defender g);
        let available_throws :=
          (Z.of_nat (length (hand_of st d)) - Z.of_nat (length (cards_to_defend g)))%Z in
        let max_throws :=
          Z.min available_throws
                (Z.min (Z.of_nat (length poss_throws))
                       (Z.of_nat (length (hand_of st player)))) in
        let fallback_identities := get_non_public_cards st in
        mret ((ThrowCards None, None) ::
              (throw ← seq 1 (Z.to_nat max_throws);
               (λ option, (ThrowCards (Some option), None)) <$>
                 filter (λ option, can_throw st player fallback_identities option = true)
                        (combinations poss_throws throw)))
    end;
  if decide (length poss_actions = 0) then Exc BaseException else mret poss_actions.

(** [for p in self.draw_order: self.deck = p.fill_hand(self.deck)] *)
Definition refill : M unit :=
  st ← get_state;
  for_each (draw_order (game st)) (λ p,
    st ← get_state;
    deck' ← fill_hand p (deck (game st));
    assign set_deck deck').

(** The seat rotation shared by ['Reflect'] and ['ReflectTrump']. *)
Definition rotate_seats : M unit :=
  st ← get_state;
  let g := game st in
  let num_old_attackers := length (attackers g) in
  i ← lift (py_mod 1 num_old_attackers);
  new_defender ← lift (index (attackers g) i);
  let popped := delete i (attackers g) in
  assign set_attackers popped ;;
  match defender g with
  | None => raise AttributeError
  | Some old_defender =>
      let inserted := take i popped ++ old_defender :: drop i popped in
      assign set_attackers inserted ;;
      assign set_defender (Some new_defender) ;;
      assign set_draw_order (inserted ++ [new_defender]) ;;
      first ← lift (index inserted 0);
      assign set_attackers (drop 1 inserted ++ [first])
  end.

(** [self.current_attacker = (self.current_attacker + 1) % len(self.attackers)]
    and [self.player_to_play = self.attackers[self.current_attacker]] *)
Definition next_attacker : M nat :=
  st ← get_state;
  let g := game st in
  i ← lift (py_mod (current_attacker g + 1) (length (attackers g)));
  assign set_current_attacker i ;;
  p ← lift (index (attackers g) i);
  assign set_player_to_play (Some p) ;;
  mret p.

(** The body of [if action[1][0] is not None:] in the ['ThrowCards']
    branch: every listed card is discarded and joins [cards_to_defend]. *)
Definition throw_cards (throw : option (list ident)) : M unit :=
  match throw with
  | None => mret tt
  | Some [] => raise IndexError
  | Some cards_to_throw =>
      for_each cards_to_throw (λ sv,
        st ← get_state;
        player ← lift (deref (player_to_play (game st)));
        card_played ← discard_card player sv true;
        modify (upd_game (λ g,
          set_cards_to_defend (cards_to_defend g ++ [card_played]) g)))
  end.

(** The body of [if self.player_to_play ==
    self.attackers[self.attacker_to_start_throwing]:] in the
    ['ThrowCards'] branch. *)
Definition take_and_close : M unit :=
  st ← get_state;
  let g := game st in
  let cards_on_table := flatten_pairs (pairs_finished g) ++ cards_to_defend g in
  d ← lift (deref (defender g));
  modify (set_hand d (hand_of st d ++ cards_on_table)) ;;
  refill ;;
  i ← lift (py_mod 1 (length (attackers g)));
  second ← lift (index (attackers g) i);
  st ← get_state;
  new_trick (name (person st second)).

Definition execute_action (a : action) : M unit :=
  modify (upd_game (λ g, set_history (history g ++ [a]) g)) ;;
  match a.1 with
  | Attack sv =>
      st ← get_state;
      player ← lift (deref (player_to_play (game st)));
      card_played ← discard_card player sv true;
      assign set_last_played_attacker (Some player) ;;
      assign set_player_to_play (defender (game st)) ;;
      assign set_current_action Phase.Defend ;;
      modify (upd_game (λ g, set_cards_to_defend (cards_to_defend g ++ [card_played]) g))
  | Defend sv =>
      st ← get_state;
      card_defended ← lift (index (cards_to_defend (game st)) 0);
      assign set_cards_to_defend (drop 1 (cards_to_defend (game st))) ;;
      player ← lift (deref (player_to_play (game st)));
      card_played ← discard_card player sv true;
      modify (upd_game (λ g,
        set_pairs_finished (pairs_finished g ++ [(card_defended, card_played)]) g)) ;;
      if decide (length (drop 1 (cards_to_defend (game st))) = 0) then
        p ← lift (index (attackers (game st)) (current_attacker (game st)));
        assign set_player_to_play (Some p) ;;
        assign set_current_action Phase.Attack
      else mret tt
  | Take =>
      st ← get_state;
      assign set_current_action Phase.ThrowCards ;;
      p ← lift (index (attackers (game st)) (current_attacker (game st)));
      assign set_player_to_play (Some p) ;;
      assign set_attacker_to_start_throwing (Some (current_attacker (game st)))
  | ThrowCards throw =>
      throw_cards throw ;;
      p ← next_attacker;
      st ← get_state;
      match attacker_to_start_throwing (game st) with
      | None => raise TypeError
      | Some start =>
          starter ← lift (index (attackers (game st)) start);
          if decide (p = starter) then take_and_close else mret tt
      end
  | PassAttack =>
      p ← next_attacker;
      st ← get_state;
      if decide (Some p = last_played_attacker (game st)) then
        refill ;;
        st ← get_state;
        (if decide (cards_to_defend (game st) = []) then mret tt else raise AssertionError) ;;
        d ← lift (deref (defender (game st)));
        new_trick (name (person st d))
      else mret tt
  | Reflect sv =>
      st ← get_state;
      d ← lift (deref (defender (game st)));
      card_played ← discard_card d sv true;
      assign set_last_played_attacker (player_to_play (game st)) ;;
      rotate_seats ;;
      modify (upd_game (λ g, set_cards_to_defend (cards_to_defend g ++ [card_played]) g)) ;;
      assign set_current_action Phase.Defend ;;
      modify (upd_game (λ g, set_player_to_play (defender g) g))
  | ReflectTrump sv =>
      st ← get_state;
      (if decide (player_to_play (game st) = defender (game st))
       then mret tt else raise AssertionError) ;;
      player ← lift (deref (player_to_play (game st)));
      discard_card player sv false ;;
      modify (upd_game (λ g, set_reflected_trumps (reflected_trumps g ++ [sv]) g)) ;;
      assign set_last_played_attacker (player_to_play (game st)) ;;
      rotate_seats ;;
      assign set_current_action Phase.Defend ;;
      modify (upd_game (λ g, set_player_to_play (defender g) g))
  end.

(** *** Snapshots *)

(** Object creation in the store; the address of the new object is the
    next free one. *)
Definition alloc_card (c : Card.t) : M nat := λ st,
  Ok (length (cards st)) (mkState (cards st ++ [c]) (persons st) (game st)).
Definition alloc_person (p : Player) : M nat := λ st,
  Ok (length (persons st)) (mkState (cards st) (persons st ++ [p]) (game st)).

(** [Player.make_copy]: a new player with the same name whose hand is a
    copy of the list (the same cards). *)
Definition Player_make_copy (p : nat) : M nat :=
  st ← get_state;
  alloc_person (mkPlayer (name (person st p)) (hand_of st p)).

(** [Card.make_copy] on the card at [a], as a new object. *)
Definition Card_make_copy (a : nat) : M nat :=
  st ← get_state;
  alloc_card (Card.make_copy (card st a)).

(** [[f(x) for x in l]] for an [f] that allocates. *)
Fixpoint map_M {A B} (f : A → M B) (l : list A) : M (list B) :=
  match l with
  | [] => mret []
  | x :: l' => y ← f x; ys ← map_M f l'; mret (y :: ys)
  end.

(** The loops of [make_deepcopy] that fill [player_ids] and [card_ids]:
    every object is copied and the dict maps the original to its copy. *)
Fixpoint copy_all (copy : nat → M nat) (originals : list nat) (ids : gmap nat nat)
    (copies : list nat) : M (gmap nat nat * list nat) :=
  match originals with
  | [] => mret (ids, copies)
  | x :: originals' =>
      c ← copy x;
      copy_all copy originals' (<[x := c]> ids) (copies ++ [c])
  end.

(** [ids[id(x)]] and [[ids[id(x)] for x in l]] *)
Definition lookup_id (ids : gmap nat nat) (x : nat) : res nat :=
  match ids !! x with
  | Some c => Val c
  | None => Exc KeyError
  end.

Fixpoint remap (ids : gmap nat nat) (l : list nat) : res (list nat) :=
  match l with
  | [] => mret []
  | x :: l' => c ← lookup_id ids x; cs ← remap ids l'; mret (c :: cs)
  end.

Fixpoint remap_pairs (ids : gmap nat nat) (l : list (nat * nat)) : res (list (nat * nat)) :=
  match l with
  | [] => mret []
  | p :: l' =>
      c0 ← lookup_id ids p.1; c1 ← lookup_id ids p.2;
      cs ← remap_pairs ids l'; mret ((c0, c1) :: cs)
  end.

(** [ids.get(id(x), None)] *)
Definition get_id (ids : gmap nat nat) (x : option nat) : option nat :=
  x ≫= λ p, ids !! p.

(** [new.players[player_idx].hand = [card_ids[id(c)] for c in p.hand]]
    for every player of the original. *)
Fixpoint remap_hands (card_ids : gmap nat nat) (originals copies : list nat) : M unit :=
  match originals, copies with
  | p :: originals', copy_p :: copies' =>
      st ← get_state;
      h ← lift (remap card_ids (hand_of st p));
      modify (set_hand copy_p h) ;;
      remap_hands card_ids originals' copies'
  | _, _ => mret tt
  end.

(** [make_deepcopy] returns the new [GameTree]; [self] stays the game of
    the state. *)
Definition make_deepcopy : M GameTree :=
  st ← get_state;
  let g := game st in
  _ ← map_M Player_make_copy (players g);
  '(player_ids, new_players) ← copy_all Player_make_copy (players g) ∅ [];
  new_attackers ← lift (remap player_ids (attackers g));
  new_draw_order ← lift (remap player_ids (draw_order g));
  new_player_to_play ←
    match player_to_play g with
    | Some p => lift (lookup_id player_ids p)
    | None => raise KeyError
    end;
  '(card_ids, new_card_collection) ← copy_all Card_make_copy (card_collection g) ∅ [];
  remap_hands card_ids (players g) new_players ;;
  new_deck ← lift (remap card_ids (deck g));
  new_cards_to_defend ← lift (remap card_ids (cards_to_defend g));
  new_pairs_finished ← lift (remap_pairs card_ids (pairs_finished g));
  mret {| players := new_players;
          computer_shuffle := computer_shuffle g;
          print_info := false;
          deck := new_deck;
          card_collection := new_card_collection;
          history := history g;
          attackers := new_attackers;
          defender := get_id player_ids (defender g);
          current_attacker := current_attacker g;
          player_to_play := Some new_player_to_play;
          draw_order := new_draw_order;
          attacker_to_start_throwing := attacker_to_start_throwing g;
          last_played_attacker := get_id player_ids (last_played_attacker g);
          reflected_trumps := reflected_trumps g;
          current_action := current_action g;
          pairs_finished := new_pairs_finished;
          cards_to_defend := new_cards_to_defend;
          is_end_state := is_end_state g;
          loser := get_id player_ids (loser g) |}.

(** *** Randomness

    The engine draws with [random.choice], [random.choices] and
    [random.randint].  Where a draw changes the state the drawn number is
    a parameter ([rnd], an arbitrary source of naturals reduced into the
    admissible range); where the law of a draw is the subject
    ([choose_random]) the draw is a finite distribution. *)

(** [random.choice(list(lst))] for the draw [r]. *)
Definition choice {A} (r : nat) (lst : list A) : res A :=
  index lst (r mod length lst).

(** [lst.pop(random.randint(0, len(lst) - 1))] for the draw [r]. *)
Definition pop_random {A} (r : nat) (lst : list A) : res (A * list A) :=
  match lst with
  | [] => Exc ValueError
  | _ => x ← index lst (r mod length lst); mret (x, delete (r mod length lst) lst)
  end.

(** *** Construction *)

Definition set_players (x : list nat) (g : GameTree) : GameTree :=
  mkGameTree x (computer_shuffle g) (print_info g) (deck g) (card_collection g)
    (history g) (attackers g) (defender g) (current_attacker g) (player_to_play g)
    (draw_order g) (attacker_to_start_throwing g) (last_played_attacker g)
    (reflected_trumps g) (current_action g) (pairs_finished g) (cards_to_defend g)
    (is_end_state g) (loser g).
Definition set_flags (shuffle info : bool) (g : GameTree) : GameTree :=
  mkGameTree (players g) shuffle info (deck g) (card_collection g)
    (history g) (attackers g) (defender g) (current_attacker g) (player_to_play g)
    (draw_order g) (attacker_to_start_throwing g) (last_played_attacker g)
    (reflected_trumps g) (current_action g) (pairs_finished g) (cards_to_defend g)
    (is_end_state g) (loser g).
Definition set_card_collection (x : list nat) (g : GameTree) : GameTree :=
  mkGameTree (players g) (computer_shuffle g) (print_info g) (deck g) x
    (history g) (attackers g) (defender g) (current_attacker g) (player_to_play g)
    (draw_order g) (attacker_to_start_throwing g) (last_played_attacker g)
    (reflected_trumps g) (current_action g) (pairs_finished g) (cards_to_defend g)
    (is_end_state g) (loser g).

(** A [GameTree] object before [__init__] has run: the class attributes. *)
Definition blank_game : GameTree :=
  mkGameTree [] false true [] [] [] [] None 0 None [] None None []
    Phase.Attack [] [] false None.

#[export] Instance game_inhabited : Inhabited GameTree := populate blank_game.

(** [GameTree.__init__(self, players, computer_shuffle, main_attacker)].
    The bottom card is the draw [rnd k] of the [k]-th deal (with
    [computer_shuffle] off it is the answer typed in, which [from_input]
    accepts once it is one of the possible cards).  An ace on the bottom
    deals again; [fuel] bounds the number of deals, and the result is
    [false] when it is used up. *)
Fixpoint GameTree_init (fuel : nat) (rnd : nat → nat) (ps : list nat)
    (shuffle : bool) (main_attacker : string) (info : bool) : M bool :=
  match fuel with
  | 0 => mret false
  | S fuel' =>
      assign set_players ps ;;
      (if decide (2 ≤ length ps ≤ 6) then mret tt else raise AssertionError) ;;
      modify (upd_game (set_flags shuffle info)) ;;
      new_deck ← map_M (λ _, alloc_card Card.new) (seq 0 36);
      assign set_deck new_deck ;;
      assign set_card_collection new_deck ;;
      assign set_history [] ;;
      st ← get_state;
      let unknown := get_unknown_cards st in
      (if decide (all_cards = unknown) then mret tt else raise AssertionError) ;;
      bottom ← lift (index new_deck (length new_deck - 1));
      sv ← lift (choice (rnd fuel') unknown);
      bound ← lift (Card.from_suit_value sv.1 sv.2 (card st bottom));
      modify (set_card bottom (Card.set_is_public true bound)) ;;
      if decide (sv.2 = Some 8) then
        GameTree_init fuel' rnd ps shuffle main_attacker info
      else
        for_each new_deck (λ a, modify (upd_card a (Card.set_trump_suit sv.1))) ;;
        for_each ps (λ p,
          st ← get_state;
          deck' ← fill_hand p (deck (game st));
          assign set_deck deck') ;;
        new_trick main_attacker ;;
        mret true
  end.

(** *** Player methods that bind cards *)

Fixpoint make_cards_known_loop (rnd : nat → nat) (i : nat) (h : list nat) : M unit :=
  match h with
  | [] => mret tt
  | a :: h' =>
      st ← get_state;
      (if Card.is_unknown (card st a) then
         sv ← lift (choice (rnd i) (get_unknown_cards st));
         bound ← lift (Card.from_suit_value sv.1 sv.2 (card st a));
         modify (set_card a (Card.set_is_private true bound))
       else mret tt) ;;
      make_cards_known_loop rnd (S i) h'
  end.

Definition make_cards_known (p : nat) (rnd : nat → nat) : M unit :=
  st ← get_state;
  make_cards_known_loop rnd 0 (hand_of st p).

Fixpoint bind_unknown (rnd : nat → nat) (i : nat) (unknown : list ident)
    (unknown_cards : list nat) : M unit :=
  match unknown_cards with
  | [] => mret tt
  | a :: unknown_cards' =>
      '(sv, unknown') ← lift (pop_random (rnd i) unknown);
      st ← get_state;
      bound ← lift (Card.from_suit_value sv.1 sv.2 (card st a));
      modify (set_card a (Card.set_is_public true bound)) ;;
      bind_unknown rnd (S i) unknown' unknown_cards'
  end.

(** The first loop of [determinize_hand]: the known cards of the hand
    become public. *)
Definition publish_known (h : list nat) : M unit :=
  for_each h (λ a,
    st ← get_state;
    if Card.is_unknown (card st a) then mret tt
    else modify (upd_card a (λ c, Card.set_is_public true (Card.set_is_private false c)))).

Definition determinize_hand (p : nat) (rnd : nat → nat) : M unit :=
  st ← get_state;
  let h := hand_of st p in
  let unknown_cards := filter (λ a, Card.is_unknown (card st a) = true) h in
  publish_known h ;;
  if decide (0 < length unknown_cards) then
    st ← get_state;
    bind_unknown rnd 0 (get_non_public_cards st) unknown_cards
  else mret tt.

(** [card.reset()] on the card at [a]. *)
Definition reset (a : nat) : M unit := modify (upd_card a Card.reset).

(** ** tools.py: the random utilities

    A finite distribution lists outcomes with their probabilities.
    [random.choice(seq)] is uniform on [seq]; [random.choices(population,
    weights)] draws with probability proportional to [weights], and
    uniformly when [weights] is left out. *)

Definition dist (A : Type) : Type := list (A * Q).

Definition uniform {A} (l : list A) : dist A :=
  (λ x, (x, 1 # Pos.of_nat (length l))) <$> l.

Definition sumQ (l : list Q) : Q := foldr Qplus 0%Q l.

Definition random_choice {A} (seq : list A) : res (dist A) :=
  match seq with
  | [] => Exc IndexError
  | _ => Val (uniform seq)
  end.

Definition random_choices {A} (population : list A) (weights : option (list Q))
    : res (dist A) :=
  match population with
  | [] => Exc IndexError
  | _ =>
      match weights with
      | None => Val (uniform population)
      | Some ws =>
          if decide (length ws = length population)
          then Val (zip population ((λ w, (w / sumQ ws)%Q) <$> ws))
          else Exc ValueError
      end
  end.

#[export] Instance Q_eq_dec : EqDecision Q.
Proof. solve_decision. Defined.

(** The probability a distribution gives to an outcome. *)
Definition prob {A} `{EqDecision A} (d : dist A) (x : A) : Q :=
  sumQ (snd <$> filter (λ xw, xw.1 = x) d).

Definition choose_random {A} (lst : list A) (weights : option (list Q)) : res (dist A) :=
  match weights with
  | None => random_choice lst
  | Some _ => random_choices lst None
  end.

(** [x[2]] on an action tuple. *)
Definition weight_of (x : action) : res Q :=
  match x.2 with
  | Some w => Val w
  | None => Exc IndexError
  end.

Fixpoint map_res {A B} (f : A → res B) (l : list A) : res (list B) :=
  match l with
  | [] => mret []
  | x :: l' => y ← f x; ys ← map_res f l'; mret (y :: ys)
  end.

Definition choose_random_action (poss_actions : list action) : res (dist action) :=
  first ← index poss_actions 0;
  match first.2 with
  | Some _ =>
      weights ← map_res weight_of poss_actions;
      choose_random ((λ x : action, (x.1, None)) <$> poss_actions) (Some weights)
  | None => choose_random poss_actions None
  end.

(** ** Vocabulary of the statements *)

(** Two cards agree on everything but the two flags [is_public] and
    [is_private]. *)
Definition same_binding (c c' : Card.t) : Prop :=
  Card.suit c' = Card.suit c ∧ Card.value c' = Card.value c ∧
  Card.trump_suit c' = Card.trump_suit c ∧ Card.is_unknown c' = Card.is_unknown c.

(** [k] is an option that some candidate identity of some card of the
    hand [h] yields. *)
Definition yielded (st : State) (td : Card.t) (player : nat) (h : list nat) (k : act) : Prop :=
  ∃ a sv, a ∈ h ∧ sv ∈ identities_of st player a ∧
    ((∃ r, reflect_options st td sv = Val r ∧ k ∈ r) ∨
     (∃ d, defend_options td sv = Val d ∧ k ∈ d)).

(** The hypothetical new defender [attackers[1 % len(attackers)]] holds
    at least [n] cards more than there are cards to defend. *)
Definition new_defender_fits (st : State) (n : nat) : Prop :=
  ∃ new_defender,
    attackers (game st) !! (1 mod length (attackers (game st))) = Some new_defender ∧
    length (cards_to_defend (game st)) + n ≤ length (hand_of st new_defender).

(** One iteration of [for p in self.draw_order: self.deck =
    p.fill_hand(self.deck)]: [p] takes cards from the top of the deck
    until the hand holds six or the deck is empty. *)
Definition fill (p : nat) (st : State) : State :=
  let n := (6 - length (hand_of st p)) `min` length (deck (game st)) in
  upd_game (set_deck (drop n (deck (game st))))
           (set_hand p (hand_of st p ++ take n (deck (game st))) st).

(** A hand card that can carry [sv]: an unknown card when [sv] is
    non-public, a known card with that identity. *)
Definition carries (st : State) (np : list ident) (sv : ident) (a : nat) : Prop :=
  (Card.is_unknown (card st a) = true ∧ sv ∈ np) ∨
  (Card.is_unknown (card st a) = false ∧ Card.identity (card st a) = sv).

(** The card [discard_card] writes at the address it picked. *)
Definition played (st : State) (sv : ident) (a : nat) : Card.t :=
  make_public (if Card.is_unknown (card st a)
               then Card.set_suit_value sv.1 sv.2 (card st a) else card st a).

(** The throws that no known card of the hand carries. *)
Definition unpinned (K : list ident) (cs : list ident) : list ident :=
  filter (λ c, c ∉ K) cs.

(** The cards of a hand nobody knows. *)
Definition unknown_in (st : State) (h : list nat) : list nat :=
  filter (λ a, Card.is_unknown (card st a) = true) h.

(** A tuple of throws that the hand of [p] can serve one after the
    other: no identity twice, each one carried by a known card or
    non-public, and no more identities without a known card than there
    are unknown cards. *)
Definition throwable (st : State) (p : nat) (cs : list ident) : Prop :=
  NoDup cs ∧
  (∀ c, c ∈ cs → c ∈ known_identities st (hand_of st p) ∨ c ∈ get_non_public_cards st) ∧
  length (unpinned (known_identities st (hand_of st p)) cs)
    ≤ length (unknown_in st (hand_of st p)).

(** Only cards were written between [st] and [st']. *)
Definition same_seats (st st' : State) : Prop :=
  persons st' = persons st ∧ game st' = game st.

(** The cards held in the hands of the players [ps]. *)
Definition hands (st : State) (ps : list nat) : list nat := p ← ps; hand_of st p.

(** The cards in play: the deck, all hands, the cards awaiting defense
    and the finished pairs, flattened.  Cards are addresses, so this
    lists physical cards. *)
Definition in_play (st : State) : list nat :=
  deck (game st) ++ hands st (players (game st)) ++
  cards_to_defend (game st) ++ flatten_pairs (pairs_finished (game st)).

(** The number of distinct physical cards in play. *)
Definition cards_in_play (st : State) : nat := length (remove_dups (in_play st)).

(** The players handed to [GameTree.__init__] are [Player] objects that
    were just constructed: distinct objects with an empty hand. *)
Definition new_players (st : State) (ps : list nat) : Prop :=
  NoDup ps ∧ ∀ p, p ∈ ps → p < length (persons st) ∧ hand_of st p = [].

(** The states a game goes through.  A game is constructed from new
    players, and then actions that [allowed_plays] offers are executed
    while the game has not ended.  Between two actions the players bind
    cards: [make_cards_known] before they choose, [determinize_hand] and
    [reset] in the rollouts of the search players. *)
Inductive reachable : State → Prop :=
| reachable_init st0 fuel rnd ps shuffle main_attacker info st :
    game st0 = blank_game →
    new_players st0 ps →
    GameTree_init fuel rnd ps shuffle main_attacker info st0 = Ok true st →
    reachable st
| reachable_step st a acts st' :
    reachable st →
    is_end_state (game st) = false →
    allowed_plays st = Val acts →
    a ∈ acts →
    execute_action a st = Ok tt st' →
    reachable st'
| reachable_known st p rnd st' :
    reachable st →
    make_cards_known p rnd st = Ok tt st' →
    reachable st'
| reachable_determinized st p rnd st' :
    reachable st →
    determinize_hand p rnd st = Ok tt st' →
    reachable st'
| reachable_reset st a st' :
    reachable st →
    reset a st = Ok tt st' →
    reachable st'.

(** What holds of the cards and seats in every reachable state. *)
Record cards_ok (st : State) : Prop := {
  players_distinct : NoDup (players (game st));
  players_valid : ∀ p, p ∈ players (game st) → p < length (persons st);
  in_play_distinct : NoDup (in_play st);
  in_play_collected : in_play st ⊆ card_collection (game st);
  collection_distinct : NoDup (card_collection (game st));
  collection_size : length (card_collection (game st)) = 36 }.

Record seats_ok (g : GameTree) : Prop := {
  attacker_in_range : current_attacker g < length (attackers g);
  attackers_seated : attackers g ⊆ players g;
  draw_order_seated : draw_order g ⊆ players g;
  defender_seated : ∃ d, defender g = Some d ∧ d ∈ players g;
  player_seated : ∃ p, player_to_play g = Some p ∧ p ∈ players g;
  attack_table : current_action g = Phase.Attack → cards_to_defend g = [];
  defend_turn : current_action g = Phase.Defend → player_to_play g = defender g;
  throw_start :
    current_action g = Phase.ThrowCards →
    ∃ start, attacker_to_start_throwing g = Some start ∧ start < length (attackers g) }.

Definition invariant (st : State) : Prop :=
  cards_ok st ∧ (is_end_state (game st) = false → seats_ok (game st)).

(** The cards an action takes out of play: the finished pairs, when a
    ['PassAttack'] closes the trick. *)
Definition leaving_play (st : State) (a : action) (st' : State) : list nat :=
  if decide (a.1 = PassAttack ∧ pairs_finished (game st') = [])
  then flatten_pairs (pairs_finished (game st))
  else [].

(** ** Several games in one store

    [make_deepcopy] returns a second [GameTree] object that lives next
    to the original: a world holds the card objects, the player objects
    and the game objects.  A method of the game at [self] runs on the
    state seen from that game, and its writes go back to that object. *)

Record World := mkWorld {
  w_cards : list Card.t;
  w_persons : list Player;
  w_games : list GameTree }.

Definition enter (self : nat) (w : World) : State :=
  mkState (w_cards w) (w_persons w) (w_games w !!! self).

Definition leave (self : nat) (st : State) (w : World) : World :=
  mkWorld (cards st) (persons st) (<[self := game st]> (w_games w)).

(** [T = S.make_deepcopy()]: the new game object and the world that
    holds it. *)
Definition snapshot (S : nat) (w : World) : option (nat * World) :=
  match make_deepcopy (enter S w) with
  | Ok T st => let w' := leave S st w in
               Some (length (w_games w'),
                     mkWorld (w_cards w') (w_persons w') (w_games w' ++ [T]))
  | Raise _ _ => None
  end.

(** [T.execute_action(a)], whatever its outcome: what an exception
    leaves behind stays in the world. *)
Definition execute_on (T : nat) (w : World) (a : action) : World :=
  leave T (state_of (execute_action a (enter T w))) w.

(** The player objects a game refers to, and the card objects it holds
    outside the hands. *)
Definition seats (g : GameTree) : list nat :=
  players g ++ attackers g ++ draw_order g ++
  option_list (defender g) ++ option_list (player_to_play g).

Definition table (g : GameTree) : list nat :=
  deck g ++ cards_to_defend g ++ flatten_pairs (pairs_finished g).

(** A game that is confined to the player objects [own] and to the card
    objects from address [nc] on, and what a run leaves alone: the
    player objects below [np] and the card objects below [nc]. *)
Definition confined (own : list nat) (nc : nat) (st : State) : Prop :=
  (∀ p, p ∈ seats (game st) → p ∈ own) ∧
  (∀ p a, p ∈ own → a ∈ hand_of st p → nc ≤ a) ∧
  (∀ a, a ∈ table (game st) → nc ≤ a).

Definition agree (np nc : nat) (st st' : State) : Prop :=
  take np (persons st') = take np (persons st) ∧
  take nc (cards st') = take nc (cards st).

(** A computation that keeps a confined game confined and leaves the
    objects below [np] and [nc] alone, whether it returns (a value
    satisfying [Q]) or raises. *)
Definition safe (own : list nat) (np nc : nat) {A} (m : M A) (Q : A → Prop) : Prop :=
  ∀ st, confined own nc st →
    match m st with
    | Ok a st' => Q a ∧ confined own nc st' ∧ agree np nc st st'
    | Raise _ st' => confined own nc st' ∧ agree np nc st st'
    end.

(** The store has only grown since [st0], and the game of the state is
    still the one of [st0]. *)
Definition grown (st0 st : State) : Prop :=
  game st = game st0 ∧
  agree (length (persons st0)) (length (cards st0)) st0 st ∧
  length (persons st0) ≤ length (persons st) ∧
  length (cards st0) ≤ length (cards st).

(** What no step of a trick touches: the list of players and their
    names, the collection and the number of card objects, the two
    flags, the history, the trump suit of a card, and the identity of a
    card that is known. *)
Definition steady (st st' : State) : Prop :=
  players (game st') = players (game st) ∧
  card_collection (game st') = card_collection (game st) ∧
  computer_shuffle (game st') = computer_shuffle (game st) ∧
  print_info (game st') = print_info (game st) ∧
  history (game st') = history (game st) ∧
  length (cards st') = length (cards st) ∧
  name <$> persons st' = name <$> persons st ∧
  (∀ a, Card.trump_suit (card st' a) = Card.trump_suit (card st a)) ∧
  (∀ a, Card.is_unknown (card st a) = false →
        Card.is_unknown (card st' a) = false ∧
        Card.identity (card st' a) = Card.identity (card st a)).

(** A computation every outcome of which is [steady]. *)
Definition keeps {A} (m : M A) : Prop := ∀ st, steady st (state_of (m st)).

(** [b] is the copy of [a]: [a] is the [i]-th of the originals and [b]
    is the [i]-th object allocated from address [base] on. *)
Definition copy_of (originals : list nat) (base : nat) (a b : nat) : Prop :=
  ∃ i, originals !! i = Some a ∧ b = base + i.

(** ** players.py: class Random

    [Random.choose_action]: the player makes the cards of the hand
    known, asks the game for the allowed actions and draws one of them
    with [choose_random_action].  The result is the law of the action
    returned. *)
Definition Random_choose_action (p : nat) (rnd : nat → nat) : M (dist action) :=
  make_cards_known p rnd ;;
  st ← get_state;
  allowed_actions ← lift (allowed_plays st);
  lift (choose_random_action allowed_actions).

(** ** A game of two

    Players A and B, the computer shuffles, every draw of the random
    source is 0: the bottom card is the six of suit 0, A attacks with
    the six of suit 1, B beats it with the seven of suit 1, and A
    passes, which closes the trick. *)
Module Example.
Definition start : State :=
  mkState [] [mkPlayer "A" []; mkPlayer "B" []] blank_game.
Definition rnd0 : nat → nat := λ _, 0.
Definition dealt : State :=
  state_of (GameTree_init 3 rnd0 [0; 1] true "A" true start).
Definition attack : action := (Attack (Some 1, Some 0), None).
Definition defend : action := (Defend (Some 1, Some 1), Some (3 # 8)%Q).
Definition pass : action := (PassAttack, None).
Definition attacked : State := state_of (execute_action attack dealt).
Definition defended : State := state_of (execute_action defend attacked).
Definition closed : State := state_of (execute_action pass defended).

(** B takes instead, and A throws nothing in. *)
Definition take : action := (Take, Some (1 # 2)%Q).
Definition took : State := state_of (execute_action take attacked).
Definition no_throw : action := (ThrowCards None, None).
Definition thrown : State :=
  state_of ((modify (upd_game (λ g, set_history (history g ++ [no_throw]) g)) ;;
             throw_cards None ;; next_attacker) took).

(** The dealt game as the only game of a world, and its copy. *)
Definition world : World := mkWorld (cards dealt) (persons dealt) [game dealt].
End Example.

(** * Proofs *)

(** ** Tactics and basic facts about the store *)

Ltac msimpl :=
  unfold mbind, mret, M_bind, M_ret, res_bind, res_ret, assign, modify,
    get_state, raise, lift in *; simpl in *.

Lemma card_set_card_eq st a c : a < length (cards st) → card (set_card a c st) a = c.
Proof. intros H. unfold card, set_card; simpl. by apply list_lookup_total_insert_eq. Qed.

Lemma card_set_card_ne st a b c : a ≠ b → card (set_card a c st) b = card st b.
Proof. intros H. unfold card, set_card; simpl. by apply list_lookup_total_insert_ne. Qed.

Lemma length_cards_set_card st a c : length (cards (set_card a c st)) = length (cards st).
Proof. unfold set_card; simpl. apply length_insert. Qed.

Lemma card_set_card st a b c :
  card (set_card a c st) b = if decide (a = b ∧ a < length (cards st)) then c else card st b.
Proof. unfold card, set_card; simpl. apply list_lookup_total_insert. Qed.

Lemma all_cards_bound sv : sv ∈ all_cards → is_Some sv.1 ∧ is_Some sv.2.
Proof.
  unfold all_cards. intros H.
  apply list_elem_of_bind in H as (s & H & _).
  apply list_elem_of_bind in H as (v & H & _).
  apply list_elem_of_singleton in H as ->. simpl. eauto.
Qed.

Lemma non_public_bound st sv : sv ∈ get_non_public_cards st → is_Some sv.1 ∧ is_Some sv.2.
Proof.
  unfold get_non_public_cards. intros H.
  apply list_elem_of_difference in H as [H _]. by apply all_cards_bound.
Qed.

Lemma from_suit_value_Val s v c c' :
  Card.from_suit_value s v c = Val c' →
  Card.is_unknown c = true ∧
  c' = Card.mk s v (Card.trump_suit c) (Card.is_public c) (Card.is_private c) false.
Proof.
  unfold Card.from_suit_value. destruct (Card.is_unknown c); [|done].
  intros [= <-]. done.
Qed.

Lemma pop_random_elem {A} r (l : list A) x l' :
  pop_random r l = Val (x, l') → x ∈ l ∧ ∀ y, y ∈ l' → y ∈ l.
Proof.
  unfold pop_random. destruct l as [|x0 l0] eqn:E; [done|]. rewrite <- E. clear E.
  unfold index. msimpl. destruct (l !! _) eqn:Hl; [|done].
  intros [= <- <-]. split.
  - by eapply list_elem_of_lookup_2.
  - intros y Hy. eapply elem_of_sublist; [done|]. apply sublist_delete.
Qed.

Lemma bind_unknown_spec rnd unknown_cards : ∀ i unknown st st',
  bind_unknown rnd i unknown unknown_cards st = Ok tt st' →
  (∀ sv, sv ∈ unknown → is_Some sv.1) →
  length (cards st') = length (cards st) ∧
  (∀ a, Card.trump_suit (card st' a) = Card.trump_suit (card st a)) ∧
  (∀ a, a ∉ unknown_cards → card st' a = card st a) ∧
  (∀ a, a ∈ unknown_cards → a < length (cards st) →
        is_Some (Card.suit (card st' a)) ∧ Card.is_unknown (card st' a) = false).
Proof.
  induction unknown_cards as [|a0 l IH]; intros i unknown st st' Hrun Hsome.
  - msimpl. injection Hrun as <-. split_and!; try done.
    intros a Ha. by apply elem_of_nil in Ha.
  - simpl in Hrun. msimpl.
    destruct (pop_random (rnd i) unknown) as [[sv unknown']|] eqn:Hpop; [|done].
    destruct (Card.from_suit_value sv.1 sv.2 (card st a0)) as [bound|] eqn:Hb; [|done].
    apply pop_random_elem in Hpop as [Hsv Hsub].
    apply from_suit_value_Val in Hb as [Hunk ->].
    apply IH in Hrun as (Hlen & Htr & Hframe & Hb); [|by eauto].
    rewrite length_cards_set_card in Hlen, Hb.
    assert (Hs : is_Some sv.1) by eauto.
    split_and!.
    + done.
    + intros a. rewrite Htr, card_set_card. by case_decide as Hd; [destruct Hd as [-> _]|].
    + intros a Ha. apply not_elem_of_cons in Ha as [Hne Ha].
      rewrite Hframe by done. by rewrite card_set_card_ne.
    + intros a Ha Hlt.
      destruct (decide (a ∈ l)) as [Hin|Hnin]; [by apply Hb|].
      apply elem_of_cons in Ha as [->|]; [|done].
      rewrite Hframe by done. by rewrite card_set_card_eq.
Qed.

Lemma for_each_inv {A} (P : State → Prop) (body : A → M unit) l :
  (∀ x st, P st → P (state_of (body x st))) →
  ∀ st, P st → P (state_of (for_each l body st)).
Proof.
  intros Hbody. induction l as [|x l IH]; intros st HP; [done|].
  simpl. msimpl. specialize (Hbody x st HP).
  destruct (body x st) as [[] st1|e st1]; simpl in *; [by apply IH|done].
Qed.


Lemma upd_card_flags_same_binding st a f b :
  (∀ c, same_binding c (f c)) → same_binding (card st b) (card (upd_card a f st) b).
Proof.
  intros Hf. unfold upd_card. rewrite card_set_card. case_decide as Hd; [|done].
  destruct Hd as [-> _]. apply Hf.
Qed.

Lemma same_binding_trans c1 c2 c3 :
  same_binding c1 c2 → same_binding c2 c3 → same_binding c1 c3.
Proof. unfold same_binding. intros (?&?&?&?) (?&?&?&?). split_and!; congruence. Qed.

Lemma bind_Ok {A B} (m : M A) (f : A → M B) st b st' :
  (m ≫= f) st = Ok b st' → ∃ a st1, m st = Ok a st1 ∧ f a st1 = Ok b st'.
Proof. unfold mbind, M_bind. destruct (m st) as [a st1|]; [eauto|done]. Qed.

Lemma publish_known_spec h st :
  let st1 := state_of (publish_known h st) in
  length (cards st1) = length (cards st) ∧ persons st1 = persons st ∧
  game st1 = game st ∧ ∀ b, same_binding (card st b) (card st1 b).
Proof.
  unfold publish_known.
  apply (for_each_inv (λ st1, length (cards st1) = length (cards st) ∧
           persons st1 = persons st ∧ game st1 = game st ∧
           ∀ b, same_binding (card st b) (card st1 b))); [|done].
  intros x st0 (Hl & Hp & Hg & Hs). msimpl.
  destruct (Card.is_unknown (card st0 x)); simpl; [done|].
  split_and!; [by rewrite length_insert|done..|].
  intros b. eapply same_binding_trans; [apply Hs|].
  by apply (upd_card_flags_same_binding st0 x).
Qed.

Lemma determinize_hand_binds st p a rnd st' :
  a ∈ hand_of st p → a < length (cards st) → Card.is_unknown (card st a) = true →
  determinize_hand p rnd st = Ok tt st' →
  Card.is_unknown (card st' a) = false ∧ is_Some (Card.suit (card st' a)) ∧
  Card.trump_suit (card st' a) = Card.trump_suit (card st a).
Proof.
  intros Hin Hlt Hunk Hrun. unfold determinize_hand in Hrun.
  apply bind_Ok in Hrun as (? & ? & [= <- <-] & Hrun).
  apply bind_Ok in Hrun as ([] & st1 & Hpub & Hrun).
  pose proof (publish_known_spec (hand_of st p) st) as Hspec.
  rewrite Hpub in Hspec. simpl in Hspec. destruct Hspec as (Hlen & _ & _ & Hsame).
  case_decide as Hpos.
  - apply bind_Ok in Hrun as (? & ? & [= <- <-] & Hrun).
    apply bind_unknown_spec in Hrun as (_ & Htr & _ & Hb).
    + destruct (Hb a) as [Hs Hu].
      * apply list_elem_of_filter. done.
      * by rewrite Hlen.
      * split_and!; [done..|]. rewrite Htr. apply Hsame.
    + intros sv Hsv. by apply non_public_bound in Hsv as [? _].
  - exfalso. apply Hpos. apply Nat.neq_0_lt_0. intros Hz.
    apply length_zero_iff_nil in Hz.
    assert (a ∈ filter (λ a0, Card.is_unknown (card st a0) = true) (hand_of st p)) as Ha
      by by apply list_elem_of_filter.
    rewrite Hz in Ha. by apply elem_of_nil in Ha.
Qed.


(** ** The store: hands *)

Lemma state_eta st : mkState (cards st) (persons st) (game st) = st.
Proof. by destruct st. Qed.

Lemma hand_of_set_hand_eq st p h : p < length (persons st) → hand_of (set_hand p h st) p = h.
Proof.
  intros H. unfold hand_of, person, set_hand; simpl.
  by rewrite list_lookup_total_insert_eq.
Qed.

Lemma hand_of_set_hand_ne st p q h : p ≠ q → hand_of (set_hand p h st) q = hand_of st q.
Proof.
  intros H. unfold hand_of, person, set_hand; simpl.
  by rewrite list_lookup_total_insert_ne.
Qed.

Lemma name_set_hand st p q h : name (person (set_hand p h st) q) = name (person st q).
Proof.
  unfold person, set_hand; simpl. rewrite list_lookup_total_insert.
  case_decide as Hd; [|done]. by destruct Hd as [-> _].
Qed.

Lemma length_persons_set_hand st p h :
  length (persons (set_hand p h st)) = length (persons st).
Proof. unfold set_hand; simpl. apply length_insert. Qed.

Lemma set_hand_same st p : set_hand p (hand_of st p) st = st.
Proof.
  unfold set_hand, hand_of, person. destruct st as [cs ps g]; simpl. f_equal.
  destruct (decide (p < length ps)) as [Hlt|Hge].
  - apply list_insert_id. rewrite list_lookup_lookup_total_lt by done.
    f_equal. by destruct (ps !!! p).
  - apply list_insert_ge. lia.
Qed.

Lemma set_deck_same g : set_deck (deck g) g = g.
Proof. by destruct g. Qed.

(** ** fill_hand *)

Lemma draw_spec to_draw : ∀ deck hand,
  draw to_draw deck hand =
  (drop (to_draw `min` length deck) deck, hand ++ take (to_draw `min` length deck) deck).
Proof.
  induction to_draw as [|n IH]; intros deck hand; simpl.
  - by rewrite drop_0, app_nil_r.
  - destruct deck as [|c deck]; simpl; [by rewrite app_nil_r|].
    rewrite IH, <- app_assoc. done.
Qed.

Lemma fill_hand_spec p deck st :
  let n := (6 - length (hand_of st p)) `min` length deck in
  fill_hand p deck st = Ok (drop n deck) (set_hand p (hand_of st p ++ take n deck) st).
Proof.
  unfold fill_hand. case_decide as Hle.
  - replace (6 - length (hand_of st p)) with 0 by lia. simpl.
    by rewrite drop_0, app_nil_r, set_hand_same.
  - rewrite draw_spec.
    replace (Z.to_nat (6 - Z.of_nat (length (hand_of st p)))) with (6 - length (hand_of st p))
      by lia.
    done.
Qed.

Lemma fill_step p st :
  (st0 ← get_state; deck' ← fill_hand p (deck (game st0)); assign set_deck deck') st
  = Ok tt (fill p st).
Proof.
  unfold mbind, M_bind, get_state. rewrite fill_hand_spec. done.
Qed.

Lemma refill_spec st :
  refill st = Ok tt (foldl (λ s p, fill p s) st (draw_order (game st))).
Proof.
  unfold refill. unfold mbind at 1, M_bind at 1, get_state at 1.
  generalize (draw_order (game st)). intros l. revert st.
  induction l as [|p l IH]; intros st; [done|].
  simpl. unfold mbind at 1, M_bind at 1. rewrite fill_step. apply IH.
Qed.

(** What one refill does to the hands and to the deck. *)
Lemma fill_hand_of p st q :
  p < length (persons st) →
  hand_of (fill p st) q =
  if decide (p = q)
  then hand_of st p ++ take ((6 - length (hand_of st p)) `min` length (deck (game st)))
                            (deck (game st))
  else hand_of st q.
Proof.
  intros Hp. unfold fill. case_decide as Hd.
  - subst q. by apply hand_of_set_hand_eq.
  - by apply hand_of_set_hand_ne.
Qed.

Lemma fill_deck p st :
  deck (game (fill p st)) =
  drop ((6 - length (hand_of st p)) `min` length (deck (game st))) (deck (game st)).
Proof. done. Qed.

(** ** possible_card_plays and discard_card *)

Lemma known_identities_elem st h sv :
  sv ∈ known_identities st h ↔
  ∃ a, a ∈ h ∧ Card.is_unknown (card st a) = false ∧ Card.identity (card st a) = sv.
Proof.
  unfold known_identities. rewrite list_elem_of_fmap. split.
  - intros (c & -> & Hc). apply list_elem_of_filter in Hc as [Hk Hc].
    apply list_elem_of_fmap in Hc as (a & -> & Ha). eauto.
  - intros (a & Ha & Hk & <-). exists (card st a). split; [done|].
    apply list_elem_of_filter. split; [done|]. apply list_elem_of_fmap. eauto.
Qed.


Lemma possible_card_plays_elem st p np sv :
  sv ∈ possible_card_plays st p np ↔ ∃ a, a ∈ hand_of st p ∧ carries st np sv a.
Proof.
  unfold possible_card_plays.
  assert (∀ h acc,
    sv ∈ foldl (λ poss_plays a,
                  if Card.is_unknown (card st a)
                  then list_union poss_plays np
                  else list_union poss_plays [Card.identity (card st a)]) acc h ↔
    sv ∈ acc ∨ ∃ a, a ∈ h ∧ carries st np sv a) as H.
  { induction h as [|a h IH]; intros acc; simpl.
    - split; [tauto|]. intros [?|(? & Hin & _)]; [done|by apply elem_of_nil in Hin].
    - rewrite IH. unfold carries.
      destruct (Card.is_unknown (card st a)) eqn:Hu; rewrite list_elem_of_union.
      + split.
        * intros [[?|?]|(b & ? & ?)]; [by left|right..].
          -- exists a. split; [by left|]. left. by rewrite Hu.
          -- exists b. split; [by right|done].
        * intros [?|(b & Hb & Hc)]; [by left; left|].
          apply elem_of_cons in Hb as [->|Hb]; [|right; eauto].
          destruct Hc as [[_ ?]|[Hc _]]; [by left; right|congruence].
      + rewrite list_elem_of_singleton. split.
        * intros [[?|?]|(b & ? & ?)]; [by left|right..].
          -- exists a. split; [by left|]. right. by rewrite Hu.
          -- exists b. split; [by right|done].
        * intros [?|(b & Hb & Hc)]; [by left; left|].
          apply elem_of_cons in Hb as [->|Hb]; [|right; eauto].
          destruct Hc as [[Hc _]|[_ ?]]; [congruence|by left; right]. }
  rewrite H, elem_of_nil. tauto.
Qed.

Lemma NoDup_possible_card_plays st p np : NoDup np → NoDup (possible_card_plays st p np).
Proof.
  intros Hnp. unfold possible_card_plays.
  assert (∀ h acc, NoDup acc →
    NoDup (foldl (λ poss_plays a,
                  if Card.is_unknown (card st a)
                  then list_union poss_plays np
                  else list_union poss_plays [Card.identity (card st a)]) acc h)) as H.
  { induction h as [|a h IH]; intros acc Hacc; simpl; [done|].
    apply IH. destruct (Card.is_unknown (card st a)); apply NoDup_list_union; try done.
    apply NoDup_singleton. }
  apply H. constructor.
Qed.

Lemma NoDup_all_cards : NoDup all_cards.
Proof. apply (bool_decide_unpack _). by vm_compute. Qed.

Lemma NoDup_non_public st : NoDup (get_non_public_cards st).
Proof. apply NoDup_list_difference, NoDup_all_cards. Qed.

(** The loop of [discard_card] breaks as soon as some hand card can
    carry the identity. *)
Lemma discard_finds st p sv a :
  a ∈ hand_of st p → carries st (get_non_public_cards st) sv a →
  is_Some (list_find (discardable st (hand_of st p) sv) (hand_of st p)).
Proof.
  intros Ha [[Hu Hnp]|[Hk Hid]].
  - destruct (decide (sv ∈ known_identities st (hand_of st p))) as [Hin|Hnin].
    + apply known_identities_elem in Hin as (b & Hb & Hbk & Hbid).
      eapply list_find_elem_of; [exact Hb|]. unfold discardable. rewrite Hbk.
      by subst sv.
    + eapply list_find_elem_of; [exact Ha|]. unfold discardable. by rewrite Hu.
  - eapply list_find_elem_of; [exact Ha|]. unfold discardable. rewrite Hk.
    by subst sv.
Qed.


Lemma discard_card_found p sv remove st idx a :
  list_find (discardable st (hand_of st p) sv) (hand_of st p) = Some (idx, a) →
  ∃ st', discard_card p sv remove st = Ok a st' ∧
    game st' = game st ∧
    cards st' = <[a := played st sv a]> (cards st) ∧
    persons st' = (if remove
                   then <[p := mkPlayer (name (person st p)) (delete idx (hand_of st p))]>
                          (persons st)
                   else persons st).
Proof.
  intros Hfind. unfold discard_card. rewrite Hfind. eexists. split; [done|].
  split_and!.
  - by destruct (Card.is_unknown (card st a)), remove.
  - unfold played, upd_card, set_card, set_hand, card.
    destruct (decide (a < length (cards st))) as [Hlt|Hge].
    + destruct (Card.is_unknown (cards st !!! a)) eqn:Hu, remove; simpl;
        rewrite ?list_insert_insert_eq, ?list_lookup_total_insert_eq by done; done.
    + destruct (Card.is_unknown (cards st !!! a)) eqn:Hu, remove; simpl;
        rewrite !list_insert_ge by (rewrite ?length_insert; lia); done.
  - by destruct (Card.is_unknown (card st a)), remove.
Qed.

(** ** execute_action, branch by branch *)

#[global] Arguments discard_card : simpl never.
#[global] Arguments new_trick : simpl never.
#[global] Arguments refill : simpl never.
#[global] Arguments rotate_seats : simpl never.
#[global] Arguments next_attacker : simpl never.
#[global] Arguments throw_cards : simpl never.
#[global] Arguments take_and_close : simpl never.
#[global] Arguments list_find : simpl never.
#[global] Arguments get_non_public_cards : simpl never.

Lemma exec_Attack st sv w p idx a :
  player_to_play (game st) = Some p →
  list_find (discardable st (hand_of st p) sv) (hand_of st p) = Some (idx, a) →
  ∃ st', execute_action (Attack sv, w) st = Ok tt st' ∧
    cards st' = <[a := played st sv a]> (cards st) ∧
    persons st' = <[p := mkPlayer (name (person st p)) (delete idx (hand_of st p))]>
                    (persons st) ∧
    game st' =
      set_cards_to_defend (cards_to_defend (game st) ++ [a])
        (set_current_action Phase.Defend
           (set_player_to_play (defender (game st))
              (set_last_played_attacker (Some p)
                 (set_history (history (game st) ++ [(Attack sv, w)]) (game st))))).
Proof.
  intros Hp Hfind. unfold execute_action. msimpl. rewrite Hp. simpl.
  destruct (discard_card_found p sv true
              (upd_game (λ g, set_history (history g ++ [(Attack sv, w)]) g) st) idx a Hfind)
    as (st1 & Hd & Hg & Hc & Hps).
  rewrite Hd. eexists. split; [done|]. simpl.
  rewrite Hg, Hc, Hps. done.
Qed.

(** ** The cards in play under the moves of the engine *)

Lemma hand_of_insert st st' p n h' q :
  persons st' = <[p := mkPlayer n h']> (persons st) →
  hand_of st' q = if decide (p = q ∧ p < length (persons st)) then h' else hand_of st q.
Proof.
  intros Hps. unfold hand_of, person. rewrite Hps, list_lookup_total_insert.
  by case_decide.
Qed.

Lemma hands_cons st q ps : hands st (q :: ps) = hand_of st q ++ hands st ps.
Proof. done. Qed.

Lemma hands_insert_notin st st' p n h' ps :
  persons st' = <[p := mkPlayer n h']> (persons st) →
  p ∉ ps → hands st' ps = hands st ps.
Proof.
  intros Hps Hnin. induction ps as [|q ps IH]; [done|].
  apply not_elem_of_cons in Hnin as [Hne Hnin]. rewrite !hands_cons.
  rewrite IH by done. f_equal. rewrite (hand_of_insert st st' p n h' q Hps).
  case_decide as Hd; [|done]. by destruct Hd.
Qed.

(** Replacing the hand of a seated player replaces it in the cards held. *)
Lemma hands_insert st st' p n h' ps :
  persons st' = <[p := mkPlayer n h']> (persons st) →
  NoDup ps → p ∈ ps → p < length (persons st) →
  ∃ rest, hands st ps ≡ₚ hand_of st p ++ rest ∧ hands st' ps ≡ₚ h' ++ rest.
Proof.
  intros Hps Hnd Hin Hlt. induction ps as [|q ps IH]; [by apply elem_of_nil in Hin|].
  apply NoDup_cons in Hnd as [Hq Hnd]. rewrite !hands_cons.
  destruct (decide (q = p)) as [->|Hne].
  - exists (hands st ps). split; [done|].
    rewrite (hands_insert_notin st st' p n h' ps Hps Hq).
    rewrite (hand_of_insert st st' p n h' p Hps). by rewrite decide_True.
  - apply elem_of_cons in Hin as [->|Hin]; [done|].
    destruct (IH Hnd Hin) as (rest & H1 & H2).
    exists (hand_of st q ++ rest). split.
    + rewrite H1. by rewrite !app_assoc, (Permutation_app_comm (hand_of st q)).
    + rewrite H2. rewrite (hand_of_insert st st' p n h' q Hps).
      rewrite decide_False by (intros [? _]; congruence).
      by rewrite !app_assoc, (Permutation_app_comm (hand_of st q)).
Qed.

(** A card leaves the hand of a seated player. *)
Lemma hands_discard st st' p n idx a ps :
  persons st' = <[p := mkPlayer n (delete idx (hand_of st p))]> (persons st) →
  hand_of st p !! idx = Some a →
  NoDup ps → p ∈ ps → p < length (persons st) →
  hands st ps ≡ₚ a :: hands st' ps.
Proof.
  intros Hps Ha Hnd Hin Hlt.
  destruct (hands_insert st st' p n _ ps Hps Hnd Hin Hlt) as (rest & H1 & H2).
  rewrite H1, H2. rewrite (delete_Permutation _ _ _ Ha) at 1. done.
Qed.

(** A seated player takes cards. *)
Lemma hands_extend st p extra ps :
  NoDup ps → p ∈ ps → p < length (persons st) →
  hands (set_hand p (hand_of st p ++ extra) st) ps ≡ₚ hands st ps ++ extra.
Proof.
  intros Hnd Hin Hlt.
  destruct (hands_insert st (set_hand p (hand_of st p ++ extra) st) p
              (name (person st p)) (hand_of st p ++ extra) ps eq_refl Hnd Hin Hlt)
    as (rest & H1 & H2).
  rewrite H1, H2. by rewrite <- !app_assoc, (Permutation_app_comm rest).
Qed.

Lemma hands_upd_game st f ps : hands (upd_game f st) ps = hands st ps.
Proof. done. Qed.

Lemma Permutation_rotate3 {A} (a b c d : list A) : b ++ (c ++ a) ++ d ≡ₚ (a ++ b) ++ c ++ d.
Proof.
  rewrite <- (app_assoc c a d), (app_assoc b c), (app_assoc (b ++ c) a).
  rewrite (Permutation_app_comm (b ++ c) a). by rewrite <- !app_assoc.
Qed.

(** One refill moves cards from the deck to a hand. *)
Lemma fill_in_play p st :
  NoDup (players (game st)) → p ∈ players (game st) → p < length (persons st) →
  in_play (fill p st) ≡ₚ in_play st.
Proof.
  intros Hnd Hin Hlt. unfold in_play, fill.
  set (n := (6 - length (hand_of st p)) `min` length (deck (game st))).
  simpl. rewrite hands_upd_game.
  change (players (game (set_hand p (hand_of st p ++ take n (deck (game st))) st)))
    with (players (game st)).
  rewrite hands_extend by done.
  generalize (cards_to_defend (game st) ++ flatten_pairs (pairs_finished (game st))).
  intros tbl.
  transitivity ((take n (deck (game st)) ++ drop n (deck (game st))) ++
                hands st (players (game st)) ++ tbl); [|by rewrite take_drop].
  apply Permutation_rotate3.
Qed.

(** ** new_trick *)

(** What [new_trick] does once the main attacker is found at seat [idx]. *)
Lemma new_trick_found st main idx first :
  list_find (λ p, name (person st p) = main) (players (game st)) = Some (idx, first) →
  let g := game st in
  let living_seats := filter (living st) (seats_from (players g) idx) in
  let table g' :=
    set_cards_to_defend [] (set_pairs_finished [] (set_current_action Phase.Attack g')) in
  new_trick main st =
  Ok tt (upd_game (λ _,
    match living_seats with
    | [] => table (set_loser (defender g) (set_is_end_state true (set_attackers [] g)))
    | [last] =>
        table (set_loser (Some last) (set_is_end_state true (set_attackers [last] g)))
    | main_attacker :: second :: others =>
        table (set_reflected_trumps [] (set_last_played_attacker None
          (set_attacker_to_start_throwing None
             (set_draw_order ((main_attacker :: others) ++ [second])
                (set_player_to_play (Some main_attacker) (set_current_attacker 0
                   (set_attackers (main_attacker :: others) (set_defender (Some second)
                      (set_attackers living_seats g)))))))))
    end) st).
Proof.
  intros Hfind. unfold new_trick. msimpl. rewrite Hfind.
  destruct (filter (living st) (seats_from (players (game st)) idx)) as [|m [|s o]]; done.
Qed.

Lemma seats_from_rotate (ps : list nat) idx : seats_from ps idx = rotate idx ps.
Proof.
  apply list_eq. intros i. unfold seats_from.
  rewrite list_lookup_fmap.
  destruct (decide (i < length ps)) as [Hlt|Hge].
  - rewrite lookup_seq_lt by done. simpl.
    rewrite lookup_rotate_r by done. unfold rotate_nat_add.
    symmetry. rewrite list_lookup_lookup_total_lt.
    + f_equal. f_equal. rewrite <- Nat2Z.inj_add, <- Nat2Z.inj_mod. by rewrite Nat2Z.id.
    + rewrite <- Nat2Z.inj_add, <- Nat2Z.inj_mod, Nat2Z.id. apply Nat.mod_upper_bound. lia.
  - rewrite lookup_seq_ge by lia. simpl. symmetry. apply lookup_ge_None.
    rewrite length_rotate. lia.
Qed.

Lemma rotate_Permutation {A} n (l : list A) : rotate n l ≡ₚ l.
Proof.
  unfold rotate. rewrite Permutation_app_comm. by rewrite take_drop.
Qed.

Lemma seats_from_Permutation (ps : list nat) idx : seats_from ps idx ≡ₚ ps.
Proof. rewrite seats_from_rotate. apply rotate_Permutation. Qed.

Lemma living_seats_elem st idx p :
  p ∈ filter (living st) (seats_from (players (game st)) idx) ↔
  p ∈ players (game st) ∧ living st p.
Proof.
  rewrite list_elem_of_filter, seats_from_Permutation. tauto.
Qed.


(** ** allowed_plays: the Attack phase *)

Lemma res_bind_Val {A B} (m : res A) (f : A → res B) b :
  m ≫= f = Val b → ∃ a, m = Val a ∧ f a = Val b.
Proof. destruct m; [eauto|done]. Qed.

(** The list [allowed_plays] returns in the Attack phase. *)
Lemma allowed_plays_attack st acts :
  current_action (game st) = Phase.Attack →
  allowed_plays st = Val acts →
  ∃ attacker d,
    attackers (game st) !! current_attacker (game st) = Some attacker ∧
    player_to_play (game st) = Some attacker ∧
    defender (game st) = Some d ∧
    let poss_plays := possible_card_plays st attacker (get_non_public_cards st) in
    let passing := if decide (0 < length (pairs_finished (game st)))
                   then [(PassAttack, None)] else [] in
    let plays := if decide (0 < length (pairs_finished (game st)))
                 then filter (λ c, c.2 ∈ values_in_pairs st) poss_plays
                 else poss_plays in
    acts = passing ++
           if decide (0 < length (hand_of st d))
           then (λ sv, (Attack sv, None)) <$> plays else [].
Proof.
  intros Hphase Hal. unfold allowed_plays in Hal. rewrite Hphase in Hal.
  apply res_bind_Val in Hal as (poss & Hposs & Hal).
  case_decide; [done|]. injection Hal as <-.
  apply res_bind_Val in Hposs as (attacker & Hidx & Hposs).
  unfold index in Hidx. destruct (attackers _ !! _) as [x|] eqn:Hat; [|done].
  injection Hidx as ->.
  case_decide as Hpl; [|done].
  exists attacker. destruct (defender (game st)) as [d|]; last first.
  { by destruct (decide (0 < _)). }
  exists d. split_and!; [done..|]. simpl.
  destruct (decide (0 < length (pairs_finished (game st)))); simpl in Hposs;
    unfold mbind, res_bind in Hposs; simpl in Hposs;
    destruct (decide (0 < length (hand_of st d))); injection Hposs as <-;
    by rewrite ?app_nil_r.
Qed.


(** ** allowed_plays: the Defend phase *)

Lemma dict_add_keys key w d k :
  k ∈ (dict_add key w d).*1 ↔ k = key ∨ k ∈ d.*1.
Proof.
  induction d as [|[k0 v0] d IH]; simpl.
  - rewrite list_elem_of_singleton, elem_of_nil. tauto.
  - case_decide as Hk; simpl; rewrite !elem_of_cons; [subst; tauto|].
    rewrite IH. tauto.
Qed.

Lemma add_options_keys options d k :
  k ∈ (add_options options d).*1 ↔ k ∈ options ∨ k ∈ d.*1.
Proof.
  unfold add_options. generalize (1 # Pos.of_nat (length options))%Q. intros w.
  revert d. induction options as [|o options IH]; intros d; simpl.
  - rewrite elem_of_nil. tauto.
  - rewrite IH, dict_add_keys, elem_of_cons. tauto.
Qed.

Lemma scan_identities_spec st td ids : ∀ reflect defend reflect' defend',
  scan_identities st td ids reflect defend = Val (reflect', defend') →
  (∀ k, k ∈ reflect' ↔
        k ∈ reflect ∨ ∃ sv r, sv ∈ ids ∧ reflect_options st td sv = Val r ∧ k ∈ r) ∧
  (∀ k, k ∈ defend' ↔
        k ∈ defend ∨ ∃ sv d, sv ∈ ids ∧ defend_options td sv = Val d ∧ k ∈ d).
Proof.
  induction ids as [|sv ids IH]; intros reflect defend reflect' defend' Hscan; simpl in Hscan.
  - injection Hscan as <- <-. split; intros k; split; try tauto.
    all: intros [?|(? & ? & H & _)]; [done|by apply elem_of_nil in H].
  - apply res_bind_Val in Hscan as (r & Hr & Hscan).
    apply res_bind_Val in Hscan as (d & Hd & Hscan).
    apply IH in Hscan as [IHr IHd]. split; intros k.
    + rewrite IHr, elem_of_app. split.
      * intros [[?|?]|(sv' & r' & ? & ? & ?)]; [by left|right..].
        -- exists sv, r. split_and!; [by left|done..].
        -- exists sv', r'. split_and!; [by right|done..].
      * intros [?|(sv' & r' & Hin & Hr' & ?)]; [by left; left|].
        apply elem_of_cons in Hin as [->|Hin].
        -- left; right. congruence.
        -- right. eauto.
    + rewrite IHd, elem_of_app. split.
      * intros [[?|?]|(sv' & r' & ? & ? & ?)]; [by left|right..].
        -- exists sv, d. split_and!; [by left|done..].
        -- exists sv', r'. split_and!; [by right|done..].
      * intros [?|(sv' & r' & Hin & Hr' & ?)]; [by left; left|].
        apply elem_of_cons in Hin as [->|Hin].
        -- left; right. congruence.
        -- right. eauto.
Qed.


Lemma scan_hand_keys st td player h : ∀ opts opts',
  scan_hand st td player h opts = Val opts' →
  ∀ k, k ∈ opts'.*1 ↔ k ∈ opts.*1 ∨ yielded st td player h k.
Proof.
  induction h as [|a h IH]; intros opts opts' Hscan k; simpl in Hscan.
  - injection Hscan as <-. split; [tauto|].
    intros [?|(? & ? & H & _)]; [done|by apply elem_of_nil in H].
  - apply res_bind_Val in Hscan as ([reflect defend] & Hids & Hscan).
    apply scan_identities_spec in Hids as [Hr Hd].
    rewrite (IH _ _ Hscan), !add_options_keys, Hr, Hd, !elem_of_nil. unfold yielded. split.
    + intros [[[[]|(sv & r & ? & ? & ?)]|[[[]|(sv & d & ? & ? & ?)]|?]]|(a' & sv & ? & ?)].
      * right. exists a, sv. split_and!; [by left|done|]. left. eauto.
      * right. exists a, sv. split_and!; [by left|done|]. right. eauto.
      * by left.
      * right. exists a', sv. split; [by right|done].
    + intros [?|(a' & sv & Hin & Hsv & Hk)]; [by left; right; right|].
      apply elem_of_cons in Hin as [->|Hin].
      * left. destruct Hk as [(r & ? & ?)|(d & ? & ?)].
        -- left. right. eauto.
        -- right. left. right. eauto.
      * right. exists a', sv. eauto.
Qed.

(** The list [allowed_plays] returns in the Defend phase. *)
Lemma allowed_plays_defend st acts :
  current_action (game st) = Phase.Defend →
  allowed_plays st = Val acts →
  ∃ to_defend player play_options,
    cards_to_defend (game st) !! 0 = Some to_defend ∧
    player_to_play (game st) = Some player ∧
    scan_hand st (card st to_defend) player (hand_of st player) [] = Val play_options ∧
    acts = ((λ kw : act * Q, (kw.1, Some kw.2)) <$> play_options) ++ [(Take, Some (1 # 2)%Q)].
Proof.
  intros Hphase Hal. unfold allowed_plays in Hal. rewrite Hphase in Hal.
  apply res_bind_Val in Hal as (poss & Hposs & Hal).
  case_decide; [done|]. injection Hal as <-.
  apply res_bind_Val in Hposs as (to_defend & Hidx & Hposs).
  unfold index in Hidx. destruct (cards_to_defend _ !! 0) as [x|] eqn:Hat; [|done].
  injection Hidx as ->.
  apply res_bind_Val in Hposs as (player & Hpl & Hposs).
  destruct (player_to_play (game st)) as [p|]; [|done]. injection Hpl as ->.
  apply res_bind_Val in Hposs as (play_options & Hscan & Hposs).
  injection Hposs as <-. by exists to_defend, player, play_options.
Qed.


Lemma reflect_options_Val st td sv r :
  reflect_options st td sv = Val r →
  (∀ sv', Reflect sv' ∈ r ↔
     sv' = sv ∧ pairs_finished (game st) = [] ∧ sv.2 = Card.value td ∧
     new_defender_fits st 1) ∧
  (∀ sv', ReflectTrump sv' ∈ r ↔
     sv' = sv ∧ pairs_finished (game st) = [] ∧ sv.2 = Card.value td ∧
     sv.1 = Card.trump_suit td ∧ (sv ∉ reflected_trumps (game st)) ∧
     new_defender_fits st 0) ∧
  (∀ sv', Defend sv' ∉ r).
Proof.
  unfold reflect_options, new_defender_fits. intros Hr.
  case_decide as Hp; last first.
  { injection Hr as <-. split_and!; intros sv'; rewrite ?elem_of_nil; [| |tauto].
    all: split; [done|]; intros (_ & Hnil & _); by rewrite Hnil in Hp. }
  apply length_zero_iff_nil in Hp.
  apply res_bind_Val in Hr as (i & Hi & Hr). unfold py_mod in Hi.
  case_decide as Hz; [done|]. injection Hi as <-.
  apply res_bind_Val in Hr as (nd & Hnd & Hr). unfold index in Hnd.
  destruct (attackers (game st) !! _) as [x|] eqn:Hat; [|done]. injection Hnd as ->.
  injection Hr as <-.
  split_and!; intros sv'; rewrite ?elem_of_app.
  - split.
    + intros [Hin|Hin].
      * case_decide as Hc; [|by apply elem_of_nil in Hin].
        apply list_elem_of_singleton in Hin as [= ->]. destruct Hc as [Hc1 Hc2].
        split_and!; [done..|]. exists nd. split; [done|lia].
      * case_decide; [|by apply elem_of_nil in Hin].
        by apply list_elem_of_singleton in Hin.
    + intros (-> & _ & Hv & nd' & [= <-] & Hle). left.
      rewrite decide_True; [by left|]. split; [lia|done].
  - split.
    + intros [Hin|Hin].
      * case_decide; [|by apply elem_of_nil in Hin].
        by apply list_elem_of_singleton in Hin.
      * case_decide as Hc; [|by apply elem_of_nil in Hin].
        apply list_elem_of_singleton in Hin as [= ->].
        destruct Hc as (Hc1 & [Hc2 Hc3] & Hc4).
        split_and!; [done..|]. exists nd. split; [done|lia].
    + intros (-> & _ & Hv & Hs & Hnin & nd' & [= <-] & Hle). right.
      rewrite decide_True; [by left|]. split_and!; [lia|done..].
  - intros [Hin|Hin]; case_decide;
      solve [by apply elem_of_nil in Hin | by apply list_elem_of_singleton in Hin].
Qed.

Lemma defend_options_Val td sv d k :
  defend_options td sv = Val d → k ∈ d → k = Defend sv.
Proof.
  assert (Hby : ∀ l, l = (if decide (sv.1 = Card.trump_suit td ∧ Card.is_trump td = false)
                          then [Defend sv] else []) → k ∈ l → k = Defend sv).
  { intros l ->. case_decide; intros Hin;
      [by apply list_elem_of_singleton in Hin|by apply elem_of_nil in Hin]. }
  unfold defend_options. intros Hd Hk.
  case_decide.
  - apply res_bind_Val in Hd as (higher & _ & [= <-]).
    apply elem_of_app in Hk as [Hk|Hk]; [by eapply Hby|].
    destruct higher; [by apply list_elem_of_singleton in Hk|by apply elem_of_nil in Hk].
  - injection Hd as <-. by eapply Hby.
Qed.


(** ** allowed_plays: the ThrowCards phase *)

Lemma elem_of_combinations {A} (l : list A) : ∀ r l',
  l' ∈ combinations l r ↔ l' `sublist_of` l ∧ length l' = r.
Proof.
  induction l as [|x l IH]; intros r l'.
  - destruct r; simpl.
    + rewrite list_elem_of_singleton. split.
      * intros ->. done.
      * intros [H _]. by apply sublist_nil_r in H.
    + rewrite elem_of_nil. split; [done|].
      intros [H Hl]. apply sublist_nil_r in H. by subst.
  - destruct r; simpl.
    + rewrite list_elem_of_singleton. split.
      * intros ->. split; [apply sublist_nil_l|done].
      * intros [_ Hl]. by apply length_zero_iff_nil in Hl.
    + rewrite elem_of_app, list_elem_of_fmap. setoid_rewrite IH. split.
      * intros [(l0 & -> & Hs & Hl)|[Hs Hl]].
        -- split; [by apply sublist_skip|simpl; lia].
        -- split; [by apply sublist_cons|done].
      * intros [Hs Hl]. apply sublist_cons_r in Hs as [Hs|(l0 & -> & Hs)].
        -- by right.
        -- left. exists l0. simpl in Hl. split_and!; [done..|lia].
Qed.

(** The list [allowed_plays] returns in the ThrowCards phase. *)
Lemma allowed_plays_throw st acts :
  current_action (game st) = Phase.ThrowCards →
  allowed_plays st = Val acts →
  ∃ player d,
    player_to_play (game st) = Some player ∧
    defender (game st) = Some d ∧
    let values_on_table :=
      values_in_pairs st ++ ((λ a, Card.value (card st a)) <$> cards_to_defend (game st)) in
    let poss_throws :=
      filter (λ c, c.2 ∈ values_on_table)
             (possible_card_plays st player (get_non_public_cards st)) in
    let max_throws :=
      Z.min (Z.of_nat (length (hand_of st d)) - Z.of_nat (length (cards_to_defend (game st))))
            (Z.min (Z.of_nat (length poss_throws)) (Z.of_nat (length (hand_of st player)))) in
    acts = (ThrowCards None, None) ::
           (throw ← seq 1 (Z.to_nat max_throws);
            (λ option, (ThrowCards (Some option), None)) <$>
              filter (λ option, can_throw st player (get_non_public_cards st) option = true)
                     (combinations poss_throws throw)).
Proof.
  intros Hphase Hal. unfold allowed_plays in Hal. rewrite Hphase in Hal.
  apply res_bind_Val in Hal as (poss & Hposs & Hal).
  case_decide; [done|]. injection Hal as <-.
  apply res_bind_Val in Hposs as (player & Hpl & Hposs).
  destruct (player_to_play (game st)) as [p|]; [|done]. injection Hpl as ->.
  apply res_bind_Val in Hposs as (d & Hd & Hposs).
  destruct (defender (game st)) as [d'|]; [|done]. injection Hd as ->.
  injection Hposs as <-. by exists player, d.
Qed.


(** ** execute_action: a round of throws that closes the trick *)

Lemma name_fill p st q : name (person (fill p st) q) = name (person st q).
Proof. unfold fill. apply name_set_hand. Qed.

Lemma length_persons_fill p st : length (persons (fill p st)) = length (persons st).
Proof. unfold fill. apply length_persons_set_hand. Qed.

Lemma hand_of_fill_prefix p st q : hand_of st q `prefix_of` hand_of (fill p st) q.
Proof.
  destruct (decide (p < length (persons st))) as [Hlt|Hge].
  - rewrite fill_hand_of by done. case_decide; [subst|done]. by apply prefix_app_r.
  - unfold fill, hand_of, person, set_hand; simpl. by rewrite list_insert_ge by lia.
Qed.

Lemma refilled_facts l : ∀ st q,
  name (person (foldl (λ s p, fill p s) st l) q) = name (person st q) ∧
  hand_of st q `prefix_of` hand_of (foldl (λ s p, fill p s) st l) q ∧
  length (persons (foldl (λ s p, fill p s) st l)) = length (persons st).
Proof.
  induction l as [|p l IH]; intros st q; [done|]. simpl.
  destruct (IH (fill p st) q) as (-> & Hpre & ->). split_and!.
  - apply name_fill.
  - etrans; [apply hand_of_fill_prefix|done].
  - apply length_persons_fill.
Qed.

Lemma new_trick_persons main st :
  persons (state_of (new_trick main st)) = persons st ∧
  cards (state_of (new_trick main st)) = cards st.
Proof.
  unfold new_trick. msimpl.
  destruct (list_find _ _) as [[idx x]|]; [|done].
  by destruct (filter _ _) as [|m [|s o]].
Qed.


Lemma next_attacker_spec st :
  attackers (game st) ≠ [] →
  let i := (current_attacker (game st) + 1) mod length (attackers (game st)) in
  ∃ q, attackers (game st) !! i = Some q ∧
       next_attacker st =
       Ok q (upd_game (λ g, set_player_to_play (Some q) (set_current_attacker i g)) st).
Proof.
  intros Hne i.
  assert (Hlen : length (attackers (game st)) ≠ 0) by by destruct (attackers (game st)).
  assert (Hi : i < length (attackers (game st))) by by apply Nat.mod_upper_bound.
  destruct (lookup_lt_is_Some_2 _ _ Hi) as [q Hq]. exists q. split; [done|].
  unfold next_attacker, py_mod, index. msimpl.
  rewrite decide_False by done. simpl. fold i. rewrite Hq. done.
Qed.

(** The seats after a reflection: the old defender takes the place of
    the new one among the attackers, and the rotation moves its head to
    the end. *)
Lemma rotate_seats_spec st d :
  attackers (game st) ≠ [] →
  defender (game st) = Some d →
  let i := 1 mod length (attackers (game st)) in
  ∃ new_defender inserted first,
    attackers (game st) !! i = Some new_defender ∧
    inserted = take i (delete i (attackers (game st))) ++
               d :: drop i (delete i (attackers (game st))) ∧
    inserted !! 0 = Some first ∧
    rotate_seats st =
    Ok tt (upd_game (λ g,
      set_attackers (drop 1 inserted ++ [first])
        (set_draw_order (inserted ++ [new_defender])
           (set_defender (Some new_defender) g))) st).
Proof.
  intros Hne Hd i.
  assert (Hlen : length (attackers (game st)) ≠ 0) by by destruct (attackers (game st)).
  assert (Hi : i < length (attackers (game st))) by by apply Nat.mod_upper_bound.
  destruct (lookup_lt_is_Some_2 _ _ Hi) as [nd Hnd].
  set (inserted := take i (delete i (attackers (game st))) ++
                   d :: drop i (delete i (attackers (game st)))).
  assert (∃ first, inserted !! 0 = Some first) as [first Hfirst].
  { apply lookup_lt_is_Some_2. unfold inserted. rewrite length_app. simpl. lia. }
  exists nd, inserted, first. split_and!; [done..|].
  unfold rotate_seats, py_mod, index. msimpl.
  rewrite decide_False by done. simpl. fold i. rewrite Hnd. simpl. rewrite Hd. simpl.
  fold inserted. rewrite Hfirst. done.
Qed.

Lemma rotate_seats_perm l i (d nd : nat) inserted first :
  l !! i = Some nd →
  inserted = take i (delete i l) ++ d :: drop i (delete i l) →
  inserted !! 0 = Some first →
  inserted ≡ₚ d :: delete i l ∧
  drop 1 inserted ++ [first] ≡ₚ inserted ∧
  l ≡ₚ nd :: delete i l.
Proof.
  intros Hnd -> Hfirst. split_and!.
  - rewrite <- (take_drop i (delete i l)) at 3. by rewrite Permutation_middle.
  - generalize dependent (take i (delete i l) ++ d :: drop i (delete i l)).
    intros [|x ins] Hf; [done|]. injection Hf as ->. simpl. rewrite drop_0.
    by rewrite Permutation_app_comm.
  - by apply delete_Permutation.
Qed.

Lemma find_seated_name st d :
  d ∈ players (game st) →
  is_Some (list_find (λ p, name (person st p) = name (person st d)) (players (game st))).
Proof. intros Hd. by eapply list_find_elem_of. Qed.

(** ** Keeping the invariant *)

Lemma cards_ok_transfer st st' leaving :
  cards_ok st →
  players (game st') = players (game st) →
  card_collection (game st') = card_collection (game st) →
  length (persons st') = length (persons st) →
  in_play st' ++ leaving ≡ₚ in_play st →
  cards_ok st'.
Proof.
  intros [Hnd Hv Hip Hsub Hcd Hcs] Hpl Hcol Hlen Hperm. split.
  - by rewrite Hpl.
  - rewrite Hpl, Hlen. done.
  - rewrite <- Hperm in Hip. by apply NoDup_app in Hip as [? _].
  - rewrite Hcol. intros c Hc. apply Hsub. rewrite <- Hperm.
    apply elem_of_app. by left.
  - by rewrite Hcol.
  - by rewrite Hcol.
Qed.

Lemma refill_invariant l : ∀ st,
  NoDup (players (game st)) →
  (∀ p, p ∈ players (game st) → p < length (persons st)) →
  l ⊆ players (game st) →
  let st' := foldl (λ s p, fill p s) st l in
  in_play st' ≡ₚ in_play st ∧
  length (persons st') = length (persons st) ∧
  cards st' = cards st ∧
  (∀ q, name (person st' q) = name (person st q)) ∧
  ∃ deck', game st' = set_deck deck' (game st).
Proof.
  induction l as [|p l IH]; intros st Hnd Hv Hl; simpl.
  - split_and!; [done..|]. exists (deck (game st)). by rewrite set_deck_same.
  - assert (Hp : p ∈ players (game st)) by (apply Hl; by left).
    destruct (IH (fill p st)) as (Hperm & Hlen & Hc & Hn & deck' & Hg).
    + done.
    + intros q Hq. rewrite length_persons_fill. by apply Hv.
    + intros q Hq. apply Hl. by right.
    + split_and!.
      * rewrite Hperm. apply fill_in_play; [done..|]. by apply Hv.
      * by rewrite Hlen, length_persons_fill.
      * by rewrite Hc.
      * intros q. by rewrite Hn, name_fill.
      * exists deck'. rewrite Hg. unfold fill. simpl. by destruct (game st).
Qed.

Lemma seats_ok_new_trick g main second others living_seats :
  main :: second :: others ⊆ players g →
  seats_ok
    (set_cards_to_defend [] (set_pairs_finished [] (set_current_action Phase.Attack
       (set_reflected_trumps [] (set_last_played_attacker None
          (set_attacker_to_start_throwing None
             (set_draw_order ((main :: others) ++ [second])
                (set_player_to_play (Some main) (set_current_attacker 0
                   (set_attackers (main :: others) (set_defender (Some second)
                      (set_attackers living_seats g)))))))))))).
Proof.
  intros Hsub. split; simpl; try done.
  - lia.
  - intros x Hx. apply Hsub. apply elem_of_cons in Hx as [->|Hx]; [by left|by do 2 right].
  - intros x Hx. apply Hsub. apply elem_of_cons in Hx as [->|Hx]; [by left|].
    apply elem_of_app in Hx as [Hx|Hx]; [by do 2 right|].
    apply list_elem_of_singleton in Hx as ->. right; by left.
  - exists second. split; [done|]. apply Hsub. right; by left.
  - exists main. split; [done|]. apply Hsub. by left.
Qed.

(** [new_trick] with the name of a seated player. *)
Lemma new_trick_invariant st main :
  is_Some (list_find (λ p, name (person st p) = main) (players (game st))) →
  ∃ st', new_trick main st = Ok tt st' ∧
    cards st' = cards st ∧ persons st' = persons st ∧
    players (game st') = players (game st) ∧
    deck (game st') = deck (game st) ∧
    card_collection (game st') = card_collection (game st) ∧
    cards_to_defend (game st') = [] ∧
    pairs_finished (game st') = [] ∧
    (is_end_state (game st') = false → seats_ok (game st')).
Proof.
  intros [[idx first] Hfind]. eexists. split; [by eapply new_trick_found|].
  pose proof (living_seats_elem st idx) as Hliving.
  destruct (filter (living st) (seats_from (players (game st)) idx)) as [|m [|s o]];
    simpl; split_and!; try done.
  intros _. apply seats_ok_new_trick. intros x Hx. by apply Hliving in Hx as [? _].
Qed.

(** ** can_throw: what the greedy test guarantees *)

Lemma pop_first_Some c poss poss' :
  pop_first c poss = Some poss' →
  (∃ p, p ∈ poss ∧ c ∈ p) ∧ ∀ p, p ∈ poss' → p ∈ poss.
Proof.
  revert poss'. induction poss as [|p poss IH]; intros poss' H; simpl in H; [done|].
  case_decide as Hc.
  - injection H as <-. split; [exists p; split; [by left|done]|]. intros q Hq. by right.
  - destruct (pop_first c poss) as [poss0|] eqn:Hp; [|done]. injection H as <-.
    destruct (IH _ eq_refl) as [(q & Hq & Hcq) Hsub]. split.
    + exists q. split; [by right|done].
    + intros q' Hq'. apply elem_of_cons in Hq' as [->|Hq']; [by left|right; by apply Hsub].
Qed.

Lemma pop_first_None c poss :
  pop_first c poss = None → ∀ p, p ∈ poss → c ∉ p.
Proof.
  induction poss as [|p poss IH]; intros H q Hq; simpl in H;
    [by apply elem_of_nil in Hq|].
  case_decide as Hc; [done|].
  destruct (pop_first c poss) eqn:Hp; [done|].
  apply elem_of_cons in Hq as [->|Hq]; [done|by apply IH].
Qed.

Lemma pop_first_app c l1 l2 :
  pop_first c (l1 ++ l2) =
  match pop_first c l1 with
  | Some l1' => Some (l1' ++ l2)
  | None => (l1 ++.) <$> pop_first c l2
  end.
Proof.
  induction l1 as [|p l1 IH]; simpl.
  - by destruct (pop_first c l2).
  - case_decide; [done|]. rewrite IH.
    destruct (pop_first c l1); [done|]. by destruct (pop_first c l2).
Qed.

Lemma pop_first_replicate c m (np : list ident) :
  pop_first c (replicate m np) =
  match m with
  | 0 => None
  | S m' => if decide (c ∈ np) then Some (replicate m' np) else None
  end.
Proof.
  induction m as [|m IH]; simpl; [done|].
  case_decide; [done|]. rewrite IH. by destruct m.
Qed.


Lemma greedy_spec (K np : list ident) cs : ∀ slots m,
  (∀ p x, p ∈ slots → x ∈ p → x ∈ K) →
  greedy (slots ++ replicate m np) cs = true →
  (∀ c, c ∈ cs → c ∈ K ∨ c ∈ np) ∧ length (unpinned K cs) ≤ m.
Proof.
  induction cs as [|c cs IH]; intros slots m Hslots Hg; simpl in Hg.
  - split; [intros c Hc; by apply elem_of_nil in Hc|simpl; lia].
  - rewrite pop_first_app in Hg.
    destruct (pop_first c slots) as [slots'|] eqn:Hpop.
    + apply pop_first_Some in Hpop as [(p & Hp & Hcp) Hsub].
      destruct (IH slots' m) as [Hall Hlen]; [by eauto|done|].
      assert (c ∈ K) by eauto. split.
      * intros c' Hc'. apply elem_of_cons in Hc' as [->|Hc']; [by left|by apply Hall].
      * unfold unpinned. rewrite filter_cons_False by (intros ?; done). done.
    + rewrite pop_first_replicate in Hg. destruct m as [|m]; [done|].
      case_decide as Hnp; [|done]. simpl in Hg.
      destruct (IH slots m) as [Hall Hlen]; [done..|]. split.
      * intros c' Hc'. apply elem_of_cons in Hc' as [->|Hc']; [by right|by apply Hall].
      * unfold unpinned. destruct (decide (c ∈ K)).
        -- rewrite filter_cons_False by (intros ?; done). fold (unpinned K cs). lia.
        -- rewrite filter_cons_True by done. simpl. fold (unpinned K cs). lia.
Qed.



Lemma length_filter_fmap {A B} (f : A → B) (P : B → Prop) `{∀ x, Decision (P x)}
    (l : list A) :
  length (filter P (f <$> l)) = length (filter (P ∘ f) l).
Proof.
  induction l as [|x l IH]; [done|].
  rewrite fmap_cons, !filter_cons. unfold compose at 1.
  destruct (decide (P (f x))); simpl; by rewrite IH.
Qed.

Lemma can_throw_throwable st p cs :
  NoDup cs → can_throw st p (get_non_public_cards st) cs = true → throwable st p cs.
Proof.
  intros Hnd Hcan. unfold can_throw in Hcan. case_decide as Hlen; [done|].
  apply (greedy_spec (known_identities st (hand_of st p))) in Hcan as [Hall Hle].
  - split_and!; [done..|]. etrans; [exact Hle|].
    etrans; [apply Nat.le_min_l|]. unfold unknown_in.
    by rewrite length_filter_fmap.
  - intros sl x Hsl Hx. apply list_elem_of_fmap in Hsl as (c & -> & Hc).
    apply list_elem_of_singleton in Hx as ->.
    apply list_elem_of_filter in Hc as [[Hk _] Hc].
    apply list_elem_of_fmap in Hc as (a & -> & Ha).
    apply known_identities_elem. eauto.
Qed.

(** ** discard_card on a throwable tuple *)

Lemma filter_ext_in {A} (P Q : A → Prop) `{∀ x, Decision (P x)} `{∀ x, Decision (Q x)}
    (l : list A) :
  (∀ x, x ∈ l → (P x ↔ Q x)) → filter P l = filter Q l.
Proof.
  induction l as [|x l IH]; intros Hext; [done|].
  rewrite !filter_cons. rewrite IH by (intros y Hy; apply Hext; by right).
  destruct (decide (P x)) as [HP|HP], (decide (Q x)) as [HQ|HQ]; try done.
  - exfalso. apply HQ, Hext; [by left|done].
  - exfalso. apply HP, Hext; [by left|done].
Qed.

Lemma NoDup_delete_lookup {A} (l : list A) i x :
  NoDup l → l !! i = Some x → (x ∉ delete i l) ∧ NoDup (delete i l).
Proof.
  intros Hnd Hi. rewrite (delete_Permutation _ _ _ Hi) in Hnd.
  by apply NoDup_cons in Hnd.
Qed.

Lemma played_identity st h c a :
  discardable st h c a → Card.identity (played st c a) = c.
Proof.
  unfold discardable, played. destruct (Card.is_unknown (card st a)); simpl.
  - by destruct c.
  - intros [Hs Hv]. unfold Card.identity. simpl. rewrite Hs, Hv. by destruct c.
Qed.

Lemma played_known st c a : Card.is_unknown (played st c a) = false.
Proof. done. Qed.

Lemma card_insert st st' a x b :
  cards st' = <[a := x]> (cards st) → a ≠ b → card st' b = card st b.
Proof. intros Hc Hne. unfold card. rewrite Hc. by apply list_lookup_total_insert_ne. Qed.

Lemma non_public_after st st' a x c sv :
  cards st' = <[a := x]> (cards st) →
  card_collection (game st') = card_collection (game st) →
  Card.identity x = c →
  sv ∈ get_non_public_cards st → sv ≠ c → sv ∈ get_non_public_cards st'.
Proof.
  intros Hc Hcol Hid Hsv Hne. unfold get_non_public_cards in *.
  apply list_elem_of_difference in Hsv as [Hall Hnp].
  apply list_elem_of_difference. split; [done|]. intros Hin. apply Hnp.
  apply list_elem_of_fmap in Hin as (y & -> & Hy).
  apply list_elem_of_filter in Hy as [Hpub Hy].
  unfold collection in Hy. rewrite Hcol in Hy.
  apply list_elem_of_fmap in Hy as (b & -> & Hb).
  destruct (decide (a = b)) as [->|Hab].
  - exfalso. apply Hne. rewrite <- Hid. unfold card. rewrite Hc.
    destruct (decide (b < length (cards st))).
    + by rewrite list_lookup_total_insert_eq.
    + (* the card was never stored: it is not public *)
      rewrite list_insert_ge in Hc by lia. unfold card in Hpub. rewrite Hc in Hpub.
      rewrite list_lookup_total_alt, lookup_ge_None_2 in Hpub by lia. done.
  - rewrite (card_insert st st' a x b Hc Hab) in Hpub |- *.
    apply list_elem_of_fmap. exists (card st b). split; [done|].
    apply list_elem_of_filter. split; [done|]. unfold collection.
    apply list_elem_of_fmap. eauto.
Qed.

Lemma throwable_step st p c cs :
  throwable st p (c :: cs) → NoDup (hand_of st p) →
  ∃ idx a,
    list_find (discardable st (hand_of st p) c) (hand_of st p) = Some (idx, a) ∧
    ∀ st',
      cards st' = <[a := played st c a]> (cards st) →
      persons st' = <[p := mkPlayer (name (person st p)) (delete idx (hand_of st p))]>
                      (persons st) →
      card_collection (game st') = card_collection (game st) →
      hand_of st' p = delete idx (hand_of st p) ∧
      NoDup (hand_of st' p) ∧
      throwable st' p cs.
Proof.
  intros (Hnd & Hall & Hcount) Hh. intros.
  remember (hand_of st p) as h eqn:Eh in *.
  remember (known_identities st h) as K eqn:EK in *.
  assert (∃ a0, a0 ∈ h ∧ carries st (get_non_public_cards st) c a0) as (a0 & Ha0 & Hcar).
  { destruct (decide (c ∈ K)) as [HK|HK].
    - rewrite EK in HK. apply known_identities_elem in HK as (b & Hb & Hbk & Hbid).
      exists b. split; [done|]. by right.
    - destruct (Hall c) as [?|Hnp]; [by left|done|].
      unfold unpinned in Hcount. rewrite filter_cons_True in Hcount by done.
      simpl in Hcount.
      destruct (unknown_in st h) as [|u us] eqn:Hu; [simpl in Hcount; lia|].
      assert (u ∈ unknown_in st h) as Hin by (rewrite Hu; by left).
      apply list_elem_of_filter in Hin as [Huk Hin].
      exists u. split; [done|]. by left. }
  destruct (discard_finds st p c a0) as [[idx a] Hfind]; [by rewrite <- Eh|done|].
  rewrite <- Eh in Hfind.
  exists idx, a. split; [done|]. intros st' Hc Hps Hcol.
  apply list_find_Some in Hfind as (Hidx & Hdis & _).
  assert (Hvalid : p < length (persons st)).
  { destruct (decide (p < length (persons st))); [done|]. exfalso.
    rewrite Eh in Ha0. unfold hand_of, person in Ha0.
    rewrite list_lookup_total_alt, lookup_ge_None_2 in Ha0 by lia.
    by apply elem_of_nil in Ha0. }
  assert (Hh' : hand_of st' p = delete idx h).
  { rewrite Eh in Hps. rewrite (hand_of_insert st st' p _ _ p Hps), Eh.
    by rewrite decide_True. }
  destruct (NoDup_delete_lookup h idx a Hh Hidx) as [Hnotin Hnd'].
  assert (Hsame : ∀ b, b ∈ delete idx h → card st' b = card st b).
  { intros b Hb. apply (card_insert st st' a _ b Hc). by intros ->. }
  apply NoDup_cons in Hnd as [Hc_cs Hnd].
  (* the known identities of the new hand *)
  assert (HK' : ∀ sv, sv ∈ known_identities st' (delete idx h) ↔
                      ∃ b, b ∈ delete idx h ∧ Card.is_unknown (card st b) = false ∧
                           Card.identity (card st b) = sv).
  { intros sv. rewrite known_identities_elem. split.
    - intros (b & Hb & Hk & Hid). exists b. rewrite <- (Hsame b Hb). done.
    - intros (b & Hb & Hk & Hid). exists b. rewrite (Hsame b Hb). done. }
  assert (HKsub : ∀ sv, sv ∈ K → sv ≠ c → sv ∈ known_identities st' (delete idx h)).
  { intros sv HK Hne. apply HK'. rewrite EK in HK.
    apply known_identities_elem in HK as (b & Hb & Hk & Hid).
    exists b. split_and!; [|done..].
    rewrite (delete_Permutation _ _ _ Hidx) in Hb.
    apply elem_of_cons in Hb as [->|Hb]; [|done].
    exfalso. apply Hne. rewrite <- Hid.
    unfold discardable in Hdis. rewrite Hk in Hdis. destruct Hdis as [Hs Hv].
    unfold Card.identity. rewrite Hs, Hv. by destruct c. }
  assert (HKsup : ∀ sv, sv ∈ known_identities st' (delete idx h) → sv ∈ K).
  { intros sv HK. apply HK' in HK as (b & Hb & Hk & Hid). rewrite EK.
    apply known_identities_elem. exists b. split_and!; [|done..].
    by eapply list_elem_of_delete_inv. }
  rewrite Hh'. split_and!; [done..|]. unfold throwable. rewrite Hh'. split_and!.
  - done.
  - intros c' Hc'. assert (c' ≠ c) by (intros ->; done).
    destruct (Hall c') as [HK|Hnp]; [by right|by left; apply HKsub|].
    right. eapply non_public_after; [done..|by eapply played_identity|done|done].
  - assert (Hun : unpinned (known_identities st' (delete idx h)) cs = unpinned K cs).
    { apply filter_ext_in. intros sv Hsv. assert (sv ≠ c) by (intros ->; done).
      split; intros Hn HK; apply Hn; [by apply HKsub|by apply HKsup]. }
    rewrite Hun.
    assert (Hunk : unknown_in st' (delete idx h) = unknown_in st (delete idx h)).
    { apply filter_ext_in. intros b Hb. by rewrite (Hsame b Hb). }
    rewrite Hunk.
    assert (Hperm : unknown_in st h ≡ₚ unknown_in st (a :: delete idx h)).
    { unfold unknown_in. by rewrite <- (delete_Permutation _ _ _ Hidx). }
    rewrite Hperm in Hcount. unfold unknown_in in Hcount |- *.
    unfold unpinned in Hcount. rewrite !filter_cons in Hcount.
    unfold discardable in Hdis. rewrite <- EK in Hdis.
    destruct (Card.is_unknown (card st a)) eqn:Hu.
    + destruct Hdis as [_ HnK]. rewrite decide_True in Hcount by done.
      rewrite decide_True in Hcount by done. simpl in Hcount. unfold unpinned. lia.
    + rewrite (decide_False (P := false = true)) in Hcount by done.
      destruct (decide (c ∉ K)); simpl in Hcount; unfold unpinned; lia.
Qed.

Lemma persons_insert_same st p :
  <[p := mkPlayer (name (person st p)) (hand_of st p)]> (persons st) = persons st.
Proof.
  pose proof (f_equal persons (set_hand_same st p)) as H. done.
Qed.

Lemma name_insert st st' p n h q :
  persons st' = <[p := mkPlayer n h]> (persons st) → n = name (person st p) →
  name (person st' q) = name (person st q).
Proof.
  intros Hps ->. unfold person. rewrite Hps, list_lookup_total_insert.
  case_decide as Hd; [|done]. by destruct Hd as [-> _].
Qed.

Lemma set_cards_to_defend_twice x y g :
  set_cards_to_defend y (set_cards_to_defend x g) = set_cards_to_defend y g.
Proof. done. Qed.

(** The loop of [throw_cards] on a throwable tuple: every discard finds
    its card, the thrown cards leave the hand of [p] and join
    [cards_to_defend]. *)
Lemma throw_loop p cs : ∀ st,
  throwable st p cs → NoDup (hand_of st p) → player_to_play (game st) = Some p →
  ∃ st' thrown,
    for_each cs (λ sv,
      st ← get_state;
      player ← lift (deref (player_to_play (game st)));
      card_played ← discard_card player sv true;
      modify (upd_game (λ g,
        set_cards_to_defend (cards_to_defend g ++ [card_played]) g))) st = Ok tt st' ∧
    persons st' = <[p := mkPlayer (name (person st p)) (hand_of st' p)]> (persons st) ∧
    hand_of st p ≡ₚ thrown ++ hand_of st' p ∧
    length thrown = length cs ∧
    game st' = set_cards_to_defend (cards_to_defend (game st) ++ thrown) (game st) ∧
    length (cards st') = length (cards st).
Proof.
  induction cs as [|c cs IH]; intros st Hthr Hnd Hp.
  - exists st, []. split_and!; try done.
    + by rewrite persons_insert_same.
    + rewrite app_nil_r. by destruct (game st).
  - destruct (throwable_step st p c cs Hthr Hnd) as (idx & a & Hfind & Hnext).
    destruct (discard_card_found p c true st idx a Hfind) as (st1 & Hd & Hg1 & Hc1 & Hps1).
    set (st2 := upd_game (λ g, set_cards_to_defend (cards_to_defend g ++ [a]) g) st1).
    destruct (Hnext st2) as (Hh2 & Hnd2 & Hthr2); [done|done|by rewrite <- Hg1|].
    destruct (IH st2 Hthr2 Hnd2) as (st' & thrown & Hrun & Hps & Hperm & Hlen & Hg & Hc).
    { simpl. by rewrite Hg1. }
    exists st', (a :: thrown). split_and!.
    + simpl. msimpl. rewrite Hp. simpl. rewrite Hd. exact Hrun.
    + rewrite Hps. change (persons st2) with (persons st1). rewrite Hps1.
      rewrite list_insert_insert_eq. do 2 f_equal.
      apply (name_insert st st2 p _ _ p Hps1 eq_refl).
    + apply list_find_Some in Hfind as (Hidx & _ & _).
      rewrite (delete_Permutation _ _ _ Hidx), <- Hh2, Hperm. done.
    + simpl. by rewrite Hlen.
    + rewrite Hg. simpl. rewrite Hg1, <- app_assoc. done.
    + rewrite Hc. change (cards st2) with (cards st1). rewrite Hc1. apply length_insert.
Qed.

(** ** One action keeps the invariant *)

Lemma elem_of_lookup_seated {A} (l ps : list A) i x :
  l ⊆ ps → l !! i = Some x → x ∈ ps.
Proof. intros Hsub Hi. apply Hsub. by eapply list_elem_of_lookup_2. Qed.

Lemma leaving_play_other st a st' : a.1 ≠ PassAttack → leaving_play st a st' = [].
Proof. intros H. unfold leaving_play. rewrite decide_False; [done|]. by intros [? _]. Qed.

Lemma step_Attack st acts sv w :
  cards_ok st → seats_ok (game st) → is_end_state (game st) = false →
  current_action (game st) = Phase.Attack →
  allowed_plays st = Val acts → (Attack sv, w) ∈ acts →
  ∃ st', execute_action (Attack sv, w) st = Ok tt st' ∧ invariant st' ∧
         in_play st' ++ leaving_play st (Attack sv, w) st' ≡ₚ in_play st.
Proof.
  intros Hc Hs Hend Hphase Hal Hin.
  destruct (allowed_plays_attack st acts Hphase Hal)
    as (attacker & d & Hat & Hpl & Hd & Hacts). simpl in Hacts. subst acts.
  assert (Hsv : sv ∈ possible_card_plays st attacker (get_non_public_cards st)).
  { destruct (decide (0 < length (pairs_finished (game st))));
      destruct (decide (0 < length (hand_of st d)));
      apply elem_of_app in Hin as [Hin|Hin];
      try (by apply elem_of_nil in Hin); try (by apply list_elem_of_singleton in Hin);
      apply list_elem_of_fmap in Hin as (sv' & [= -> ->] & Hin); [|done].
    by apply list_elem_of_filter in Hin as [_ ?]. }
  apply possible_card_plays_elem in Hsv as (a0 & Ha0 & Hcar).
  destruct (discard_finds st attacker sv a0 Ha0 Hcar) as [[idx a] Hfind].
  destruct (exec_Attack st sv w attacker idx a Hpl Hfind) as (st' & Hex & Hcs & Hps & Hg).
  exists st'. split; [done|].
  assert (Hseat : attacker ∈ players (game st)).
  { eapply elem_of_lookup_seated; [apply Hs|done]. }
  apply list_find_Some in Hfind as (Hidx & _ & _).
  assert (Hperm : in_play st' ≡ₚ in_play st).
  { unfold in_play. rewrite Hg. simpl.
    rewrite (hands_discard st st' attacker _ idx a (players (game st)) Hps Hidx);
      [|apply Hc|done|by apply Hc].
    solve_Permutation. }
  rewrite leaving_play_other by done. rewrite app_nil_r. split; [|done].
  split.
  - eapply (cards_ok_transfer st st' []); [done|by rewrite Hg..| |by rewrite app_nil_r].
    rewrite Hps. apply length_insert.
  - intros _. destruct Hs. rewrite Hg. split; simpl; done.
Qed.

Lemma step_PassAttack st acts w :
  cards_ok st → seats_ok (game st) → is_end_state (game st) = false →
  current_action (game st) = Phase.Attack →
  allowed_plays st = Val acts → (PassAttack, w) ∈ acts →
  ∃ st', execute_action (PassAttack, w) st = Ok tt st' ∧ invariant st' ∧
         in_play st' ++ leaving_play st (PassAttack, w) st' ≡ₚ in_play st.
Proof.
  intros Hc Hs Hend Hphase Hal Hin.
  destruct (allowed_plays_attack st acts Hphase Hal)
    as (attacker & d & Hat & Hpl & Hd & Hacts). simpl in Hacts. subst acts.
  assert (Hpairs : pairs_finished (game st) ≠ []).
  { destruct (decide (0 < length (pairs_finished (game st)))) as [Hlt|Hlt];
      destruct (decide (0 < length (hand_of st d)));
      apply elem_of_app in Hin as [Hin|Hin];
      try (by apply elem_of_nil in Hin);
      try (by apply list_elem_of_fmap in Hin as (? & [=] & _)).
    all: intros Hnil; rewrite Hnil in Hlt; simpl in Hlt; lia. }
  assert (Hne : attackers (game st) ≠ []).
  { intros Hnil. by rewrite Hnil in Hat. }
  set (st0 := upd_game (λ g, set_history (history g ++ [(PassAttack, w)]) g) st).
  destruct (next_attacker_spec st0 Hne) as (q & Hq & Hnext). simpl in Hq, Hnext.
  set (i := (current_attacker (game st) + 1) mod length (attackers (game st))) in *.
  set (st1 := upd_game (λ g, set_player_to_play (Some q) (set_current_attacker i g)) st0)
    in *.
  assert (Hqs : q ∈ players (game st)).
  { eapply elem_of_lookup_seated; [apply Hs|done]. }
  unfold execute_action. simpl. unfold mbind at 1, M_bind at 1, modify at 1.
  fold st0. unfold mbind at 1, M_bind at 1. rewrite Hnext.
  unfold mbind at 1, M_bind at 1, get_state at 1.
  change (last_played_attacker (game st1)) with (last_played_attacker (game st)).
  destruct (decide (Some q = last_played_attacker (game st))) as [Hlast|Hlast].
  - (* the round of passes is complete *)
    unfold mbind at 1, M_bind at 1. rewrite refill_spec.
    change (draw_order (game st1)) with (draw_order (game st)).
    destruct (refill_invariant (draw_order (game st)) st1)
      as (Hperm & Hlen & Hcards & Hnames & deck' & Hg);
      [apply Hc|apply Hc|apply Hs|].
    set (st2 := foldl (λ s p, fill p s) st1 (draw_order (game st))) in *.
    unfold mbind at 1, M_bind at 1, get_state at 1.
    assert (Hctd : cards_to_defend (game st2) = []).
    { rewrite Hg. simpl. by apply Hs. }
    rewrite (decide_True _ _ Hctd).
    unfold mbind at 1, M_bind at 1, mret at 1, M_ret at 1.
    unfold mbind at 1, M_bind at 1, lift at 1.
    assert (Hd2 : defender (game st2) = Some d) by by rewrite Hg.
    rewrite Hd2. simpl deref. cbv iota.
    destruct (new_trick_invariant st2 (name (person st2 d)))
      as (st' & Hnew & Hc' & Hp' & Hpl' & Hdk' & Hcol' & Hctd' & Hpairs' & Hseats').
    { apply find_seated_name. rewrite Hg. simpl.
      destruct Hs as [_ _ _ (d' & Hd' & Hdin) _ _ _ _]. congruence. }
    exists st'. split; [done|].
    assert (Hleave : leaving_play st (PassAttack, w) st'
                     = flatten_pairs (pairs_finished (game st))).
    { unfold leaving_play. by rewrite decide_True. }
    assert (Hperm' : in_play st' ++ flatten_pairs (pairs_finished (game st))
                     ≡ₚ in_play st).
    { transitivity (in_play st2); [|by rewrite Hperm].
      unfold in_play. rewrite Hdk', Hpl', Hctd', Hpairs', Hctd.
      unfold hands, hand_of, person. rewrite Hp'. rewrite Hg. simpl.
      by rewrite <- !app_assoc. }
    rewrite Hleave. split; [|done]. split; [|done].
    eapply (cards_ok_transfer st st'); [done| | | |exact Hperm'].
    + rewrite Hpl', Hg. done.
    + rewrite Hcol', Hg. done.
    + rewrite Hp', Hlen. done.
  - (* another attacker may play *)
    exists st1. split; [done|].
    assert (Hleave : leaving_play st (PassAttack, w) st1 = []).
    { unfold leaving_play. rewrite decide_False; [done|]. by intros [_ ?]. }
    rewrite Hleave, app_nil_r. split; [|done]. split.
    + by eapply (cards_ok_transfer st st1 []); [| | | |by rewrite app_nil_r].
    + intros _. destruct Hs. split; simpl; try done;
        solve [ apply Nat.mod_upper_bound; by destruct (attackers (game st))
              | by exists q | by rewrite Hphase ].
Qed.

Lemma identities_carries st p a sv :
  sv ∈ identities_of st p a → carries st (get_non_public_cards st) sv a.
Proof.
  unfold identities_of, carries. destruct (Card.is_unknown (card st a)).
  - intros Hin. apply list_elem_of_difference in Hin as [? _]. by left.
  - intros Hin. apply list_elem_of_singleton in Hin. by right.
Qed.

Lemma reflect_options_kind st td sv r k :
  reflect_options st td sv = Val r → k ∈ r → k = Reflect sv ∨ k = ReflectTrump sv.
Proof.
  unfold reflect_options. intros Hr Hk.
  case_decide; [|injection Hr as <-; by apply elem_of_nil in Hk].
  apply res_bind_Val in Hr as (i & _ & Hr).
  apply res_bind_Val in Hr as (nd & _ & Hr). injection Hr as <-.
  apply elem_of_app in Hk as [Hk|Hk].
  - destruct (decide (_ ∧ _)) in Hk; [|by apply elem_of_nil in Hk].
    apply list_elem_of_singleton in Hk. by left.
  - destruct (decide (_ ∧ _)) in Hk; [|by apply elem_of_nil in Hk].
    apply list_elem_of_singleton in Hk. by right.
Qed.

(** What an action other than ['Take'] offered in the Defend phase is. *)
Lemma defend_phase_action st acts k w :
  current_action (game st) = Phase.Defend →
  allowed_plays st = Val acts → (k, w) ∈ acts →
  ∃ to_defend player,
    cards_to_defend (game st) !! 0 = Some to_defend ∧
    player_to_play (game st) = Some player ∧
    (k = Take ∨
     ∃ a sv, a ∈ hand_of st player ∧ carries st (get_non_public_cards st) sv a ∧
       (k = Defend sv ∨
        (k = Reflect sv ∧ new_defender_fits st 1) ∨
        (k = ReflectTrump sv ∧ new_defender_fits st 0))).
Proof.
  intros Hphase Hal Hin.
  destruct (allowed_plays_defend st acts Hphase Hal)
    as (to_defend & player & opts & Htd & Hpl & Hscan & ->).
  exists to_defend, player. split_and!; [done..|].
  apply elem_of_app in Hin as [Hin|Hin];
    [|apply list_elem_of_singleton in Hin as [= -> _]; by left].
  right. apply list_elem_of_fmap in Hin as ([k' q] & [= -> ->] & Hin).
  assert (k' ∈ opts.*1) as Hk by (apply list_elem_of_fmap; by exists (k', q)).
  apply (scan_hand_keys _ _ _ _ _ _ Hscan) in Hk as [Hk|(a & sv & Ha & Hsv & Hk)];
    [by apply elem_of_nil in Hk|].
  exists a, sv. split_and!; [done|by eapply identities_carries|].
  destruct Hk as [(r & Hr & Hk)|(d & Hd & Hk)].
  - pose proof (reflect_options_Val _ _ _ _ Hr) as (HR & HT & _).
    destruct (reflect_options_kind _ _ _ _ _ Hr Hk) as [->| ->].
    + apply HR in Hk as (_ & _ & _ & ?). right; left. done.
    + apply HT in Hk as (_ & _ & _ & _ & _ & ?). right; right. done.
  - left. by eapply defend_options_Val.
Qed.

Lemma step_Take st acts w :
  cards_ok st → seats_ok (game st) → is_end_state (game st) = false →
  current_action (game st) = Phase.Defend →
  allowed_plays st = Val acts → (Take, w) ∈ acts →
  ∃ st', execute_action (Take, w) st = Ok tt st' ∧ invariant st' ∧
         in_play st' ++ leaving_play st (Take, w) st' ≡ₚ in_play st.
Proof.
  intros Hc Hs Hend Hphase Hal Hin.
  destruct (lookup_lt_is_Some_2 _ _ (attacker_in_range _ Hs)) as [q Hq].
  unfold execute_action, index. msimpl. rewrite Hq. simpl.
  eexists. split; [done|]. rewrite leaving_play_other by done. rewrite app_nil_r.
  split; [|done]. split.
  - by eapply (cards_ok_transfer st _ []); [| | | |by rewrite app_nil_r].
  - intros _. pose proof (elem_of_lookup_seated _ _ _ _ (attackers_seated _ Hs) Hq).
    destruct Hs. split; simpl; try done.
    + by exists q.
    + by exists (current_attacker (game st)).
Qed.

Lemma flatten_pairs_snoc pairs (x y : nat) :
  flatten_pairs (pairs ++ [(x, y)]) = flatten_pairs pairs ++ [x; y].
Proof. unfold flatten_pairs. by rewrite bind_app. Qed.

Lemma step_Defend st acts sv w :
  cards_ok st → seats_ok (game st) → is_end_state (game st) = false →
  current_action (game st) = Phase.Defend →
  allowed_plays st = Val acts → (Defend sv, w) ∈ acts →
  ∃ st', execute_action (Defend sv, w) st = Ok tt st' ∧ invariant st' ∧
         in_play st' ++ leaving_play st (Defend sv, w) st' ≡ₚ in_play st.
Proof.
  intros Hc Hs Hend Hphase Hal Hin.
  destruct (defend_phase_action st acts _ w Hphase Hal Hin)
    as (td & p & Htd & Hpl & [?|(a0 & sv' & Ha0 & Hcar & Hk)]); [done|].
  destruct Hk as [[= <-]|[[? _]|[? _]]]; [|done..].
  destruct (discard_finds st p sv a0 Ha0 Hcar) as [[idx a] Hfind].
  set (st1 := upd_game (set_cards_to_defend (drop 1 (cards_to_defend (game st))))
                (upd_game (λ g, set_history (history g ++ [(Defend sv, w)]) g) st)).
  destruct (discard_card_found p sv true st1 idx a Hfind) as (st2 & Hd & Hg2 & Hc2 & Hps2).
  destruct (lookup_lt_is_Some_2 _ _ (attacker_in_range _ Hs)) as [q Hq].
  assert (Hpseat : p ∈ players (game st)).
  { destruct Hs as [_ _ _ _ (p' & Hp' & Hpin) _ _ _]. congruence. }
  apply list_find_Some in Hfind as (Hidx & _ & _).
  assert (Hhands : hands st (players (game st)) ≡ₚ a :: hands st2 (players (game st))).
  { apply (hands_discard st st2 p (name (person st p)) idx a);
      [exact Hps2|done|apply Hc|done|by apply Hc]. }
  assert (Hctd : cards_to_defend (game st) = td :: drop 1 (cards_to_defend (game st))).
  { destruct (cards_to_defend (game st)); [done|]. simpl in *. rewrite drop_0. congruence. }
  unfold execute_action, index. msimpl. rewrite Htd. simpl. rewrite Hpl. simpl.
  fold st1. rewrite Hd.
  destruct (decide (length (drop 1 (cards_to_defend (game st))) = 0)) as [Hz|Hnz].
  - rewrite Hq. simpl. eexists. split; [done|].
    rewrite leaving_play_other by done. rewrite app_nil_r.
    match goal with |- invariant ?s ∧ _ => set (st' := s) end.
    assert (Hperm : in_play st' ≡ₚ in_play st).
    { unfold in_play. simpl. rewrite Hg2. simpl. rewrite flatten_pairs_snoc.
      rewrite Hctd at 2. rewrite Hhands. change (hands st' ?l) with (hands st2 l).
      solve_Permutation. }
    split; [|done]. split.
    + eapply (cards_ok_transfer st st' []); [done|simpl; by rewrite Hg2..| |
                                              by rewrite app_nil_r].
      simpl. rewrite Hps2. apply length_insert.
    + intros _. pose proof (elem_of_lookup_seated _ _ _ _ (attackers_seated _ Hs) Hq).
      destruct Hs. split; simpl; rewrite ?Hg2; simpl; try done.
      * by exists q.
      * intros _. by apply length_zero_iff_nil.
  - eexists. split; [done|].
    rewrite leaving_play_other by done. rewrite app_nil_r.
    match goal with |- invariant ?s ∧ _ => set (st' := s) end.
    assert (Hperm : in_play st' ≡ₚ in_play st).
    { unfold in_play. simpl. rewrite Hg2. simpl. rewrite flatten_pairs_snoc.
      rewrite Hctd at 2. rewrite Hhands. change (hands st' ?l) with (hands st2 l).
      solve_Permutation. }
    split; [|done]. split.
    + eapply (cards_ok_transfer st st' []); [done|simpl; by rewrite Hg2..| |
                                              by rewrite app_nil_r].
      simpl. rewrite Hps2. apply length_insert.
    + intros _. destruct Hs. split; simpl; rewrite ?Hg2; simpl; try done.
      by rewrite Hphase.
Qed.

Lemma seats_ok_reflected g g' d nd inserted first :
  seats_ok g → defender g = Some d →
  attackers g !! (1 mod length (attackers g)) = Some nd →
  inserted = take (1 mod length (attackers g)) (delete (1 mod length (attackers g)) (attackers g))
             ++ d :: drop (1 mod length (attackers g))
                          (delete (1 mod length (attackers g)) (attackers g)) →
  inserted !! 0 = Some first →
  players g' = players g →
  attackers g' = drop 1 inserted ++ [first] →
  draw_order g' = inserted ++ [nd] →
  defender g' = Some nd →
  player_to_play g' = Some nd →
  current_attacker g' = current_attacker g →
  current_action g' = Phase.Defend →
  seats_ok g'.
Proof.
  intros Hs Hd Hnd Hins Hfirst Hpl Hat Hdo Hdef Hptp Hcur Hph.
  destruct (rotate_seats_perm _ _ d nd _ _ Hnd Hins Hfirst) as (H1 & H2 & H3).
  destruct Hs as [Hrange Hseated _ (d' & Hd' & Hdin) _ _ _ _].
  assert (d' = d) as -> by congruence.
  assert (Hsub : ∀ x, x ∈ inserted → x ∈ players g).
  { intros x Hx. rewrite H1 in Hx. apply elem_of_cons in Hx as [->|Hx]; [done|].
    apply Hseated. by eapply list_elem_of_delete_inv. }
  assert (Hndin : nd ∈ players g) by (eapply elem_of_lookup_seated; [exact Hseated|exact Hnd]).
  split.
  - rewrite Hcur, Hat, H2, H1. simpl.
    rewrite length_delete by (by eexists).
    apply lookup_lt_Some in Hnd. lia.
  - rewrite Hat, Hpl. intros x Hx. rewrite H2 in Hx. by apply Hsub.
  - rewrite Hdo, Hpl. intros x Hx. apply elem_of_app in Hx as [Hx|Hx]; [by apply Hsub|].
    by apply list_elem_of_singleton in Hx as ->.
  - exists nd. by rewrite Hpl.
  - exists nd. by rewrite Hpl.
  - by rewrite Hph.
  - by rewrite Hptp, Hdef.
  - by rewrite Hph.
Qed.

Lemma step_Reflect st acts sv w :
  cards_ok st → seats_ok (game st) → is_end_state (game st) = false →
  current_action (game st) = Phase.Defend →
  allowed_plays st = Val acts → (Reflect sv, w) ∈ acts →
  ∃ st', execute_action (Reflect sv, w) st = Ok tt st' ∧ invariant st' ∧
         in_play st' ++ leaving_play st (Reflect sv, w) st' ≡ₚ in_play st.
Proof.
  intros Hc Hs Hend Hphase Hal Hin.
  destruct (defend_phase_action st acts _ w Hphase Hal Hin)
    as (td & p & Htd & Hpl & [?|(a0 & sv' & Ha0 & Hcar & Hk)]); [done|].
  destruct Hk as [?|[[[= <-] (nd0 & Hnd0 & _)]|[? _]]]; [done| |done].
  assert (Hdef : defender (game st) = Some p).
  { rewrite <- Hpl. symmetry. by apply Hs. }
  assert (Hne : attackers (game st) ≠ []).
  { intros Hnil. by rewrite Hnil in Hnd0. }
  destruct (discard_finds st p sv a0 Ha0 Hcar) as [[idx a] Hfind].
  set (st1 := upd_game (λ g, set_history (history g ++ [(Reflect sv, w)]) g) st).
  destruct (discard_card_found p sv true st1 idx a Hfind) as (st2 & Hd & Hg2 & Hc2 & Hps2).
  set (st3 := upd_game (set_last_played_attacker (player_to_play (game st))) st2).
  destruct (rotate_seats_spec st3 p) as (nd & inserted & first & Hnd & Hins & Hfirst & Hrot).
  { simpl. by rewrite Hg2. }
  { simpl. by rewrite Hg2. }
  simpl in Hnd, Hins. rewrite Hg2 in Hnd, Hins. simpl in Hnd, Hins.
  assert (Hpseat : p ∈ players (game st)).
  { destruct Hs as [_ _ _ _ (p' & Hp' & Hpin) _ _ _]. congruence. }
  apply list_find_Some in Hfind as (Hidx & _ & _).
  assert (Hhands : hands st (players (game st)) ≡ₚ a :: hands st2 (players (game st))).
  { apply (hands_discard st st2 p (name (person st p)) idx a);
      [exact Hps2|done|apply Hc|done|by apply Hc]. }
  unfold execute_action. msimpl. rewrite Hdef. simpl. fold st1. rewrite Hd.
  fold st3. rewrite Hrot. eexists. split; [done|].
  rewrite leaving_play_other by done. rewrite app_nil_r.
  match goal with |- invariant ?s ∧ _ => set (st' := s) end.
  assert (Hperm : in_play st' ≡ₚ in_play st).
  { unfold in_play. simpl. rewrite Hg2. simpl.
    rewrite Hhands. change (hands st' ?l) with (hands st2 l). solve_Permutation. }
  split; [|done]. split.
  - eapply (cards_ok_transfer st st' []); [done|simpl; by rewrite Hg2..| |
                                            by rewrite app_nil_r].
    simpl. rewrite Hps2. apply length_insert.
  - intros _.
    eapply (seats_ok_reflected (game st) (game st') p nd inserted first);
      try done; simpl; by rewrite ?Hg2.
Qed.

Lemma step_ReflectTrump st acts sv w :
  cards_ok st → seats_ok (game st) → is_end_state (game st) = false →
  current_action (game st) = Phase.Defend →
  allowed_plays st = Val acts → (ReflectTrump sv, w) ∈ acts →
  ∃ st', execute_action (ReflectTrump sv, w) st = Ok tt st' ∧ invariant st' ∧
         in_play st' ++ leaving_play st (ReflectTrump sv, w) st' ≡ₚ in_play st.
Proof.
  intros Hc Hs Hend Hphase Hal Hin.
  destruct (defend_phase_action st acts _ w Hphase Hal Hin)
    as (td & p & Htd & Hpl & [?|(a0 & sv' & Ha0 & Hcar & Hk)]); [done|].
  destruct Hk as [?|[[? _]|[[= <-] (nd0 & Hnd0 & _)]]]; [done..|].
  assert (Hdef : defender (game st) = Some p).
  { rewrite <- Hpl. symmetry. by apply Hs. }
  assert (Hne : attackers (game st) ≠ []).
  { intros Hnil. by rewrite Hnil in Hnd0. }
  destruct (discard_finds st p sv a0 Ha0 Hcar) as [[idx a] Hfind].
  set (st1 := upd_game (λ g, set_history (history g ++ [(ReflectTrump sv, w)]) g) st).
  destruct (discard_card_found p sv false st1 idx a Hfind) as (st2 & Hd & Hg2 & Hc2 & Hps2).
  set (st3 := upd_game (set_last_played_attacker (Some p))
                (upd_game (λ g, set_reflected_trumps (reflected_trumps g ++ [sv]) g) st2)).
  destruct (rotate_seats_spec st3 p) as (nd & inserted & first & Hnd & Hins & Hfirst & Hrot).
  { simpl. by rewrite Hg2. }
  { simpl. by rewrite Hg2. }
  simpl in Hnd, Hins. rewrite Hg2 in Hnd, Hins. simpl in Hnd, Hins.
  unfold execute_action. msimpl. rewrite Hpl, Hdef.
  rewrite decide_True by done. simpl. fold st1. rewrite Hd.
  fold st3. rewrite Hrot. eexists. split; [done|].
  rewrite leaving_play_other by done. rewrite app_nil_r.
  match goal with |- invariant ?s ∧ _ => set (st' := s) end.
  assert (Hperm : in_play st' ≡ₚ in_play st).
  { unfold in_play. simpl. rewrite Hg2. simpl.
    change (hands st' ?l) with (hands st2 l).
    unfold hands, hand_of, person. by rewrite Hps2. }
  split; [|done]. split.
  - eapply (cards_ok_transfer st st' []); [done|simpl; by rewrite Hg2..| |
                                            by rewrite app_nil_r].
    simpl. by rewrite Hps2.
  - intros _.
    eapply (seats_ok_reflected (game st) (game st') p nd inserted first);
      try done; simpl; by rewrite ?Hg2.
Qed.

Lemma hand_sublist_hands st p ps : p ∈ ps → hand_of st p `sublist_of` hands st ps.
Proof.
  induction ps as [|q ps IH]; intros Hin; [by apply elem_of_nil in Hin|].
  rewrite hands_cons. apply elem_of_cons in Hin as [->|Hin].
  - by apply sublist_inserts_r.
  - apply sublist_inserts_l. by apply IH.
Qed.

Lemma cards_ok_hand st p : cards_ok st → p ∈ players (game st) → NoDup (hand_of st p).
Proof.
  intros Hc Hp. pose proof (in_play_distinct _ Hc) as Hnd. unfold in_play in Hnd.
  apply NoDup_app in Hnd as (_ & _ & Hnd). apply NoDup_app in Hnd as (Hnd & _ & _).
  eapply sublist_NoDup; [exact Hnd|]. by apply hand_sublist_hands.
Qed.

(** The defender takes the table and a new trick opens. *)
Lemma take_and_close_invariant st :
  NoDup (players (game st)) →
  (∀ p, p ∈ players (game st) → p < length (persons st)) →
  seats_ok (game st) →
  ∃ st', take_and_close st = Ok tt st' ∧
    in_play st' ≡ₚ in_play st ∧
    players (game st') = players (game st) ∧
    card_collection (game st') = card_collection (game st) ∧
    length (persons st') = length (persons st) ∧
    (is_end_state (game st') = false → seats_ok (game st')).
Proof.
  intros Hnd Hvalid Hs.
  destruct (defender_seated _ Hs) as (d & Hd & Hdin).
  assert (Hlen : length (attackers (game st)) ≠ 0).
  { pose proof (attacker_in_range _ Hs). lia. }
  assert (Hi : 1 mod length (attackers (game st)) < length (attackers (game st)))
    by by apply Nat.mod_upper_bound.
  destruct (lookup_lt_is_Some_2 _ _ Hi) as [second Hsecond].
  set (table := flatten_pairs (pairs_finished (game st)) ++ cards_to_defend (game st)).
  set (taken := set_hand d (hand_of st d ++ table) st).
  destruct (refill_invariant (draw_order (game st)) taken)
    as (Hperm & Hplen & Hcards & Hnames & deck' & Hg);
    [done|intros p Hp; unfold taken; rewrite length_persons_set_hand; by apply Hvalid
    |apply Hs|].
  set (refilled := foldl (λ s p, fill p s) taken (draw_order (game st))) in *.
  destruct (new_trick_invariant refilled (name (person refilled second)))
    as (st' & Hnew & Hc' & Hp' & Hpl' & Hdk' & Hcol' & Hctd' & Hpairs' & Hseats').
  { apply find_seated_name. rewrite Hg. simpl.
    eapply elem_of_lookup_seated; [apply Hs|done]. }
  exists st'. split_and!.
  - unfold take_and_close, py_mod, index. msimpl. rewrite Hd. simpl.
    fold table. fold taken. rewrite refill_spec.
    change (draw_order (game taken)) with (draw_order (game st)). fold refilled.
    rewrite decide_False by done. simpl. rewrite Hsecond. simpl. done.
  - assert (H1 : in_play st' ++ table ≡ₚ in_play refilled).
    { unfold in_play. rewrite Hdk', Hpl', Hctd', Hpairs'.
      unfold hands at 1, hand_of, person. rewrite Hp'.
      fold (person refilled) (hand_of refilled). fold (hands refilled (players (game refilled))).
      rewrite Hg. simpl. fold table.
      unfold table. solve_Permutation. }
    assert (H2 : in_play taken ≡ₚ in_play st ++ table).
    { unfold in_play, taken. simpl.
      change (players (game (set_hand d (hand_of st d ++ table) st)))
        with (players (game st)).
      rewrite hands_extend by (done || by apply Hvalid). solve_Permutation. }
    rewrite Hperm, H2 in H1. by apply Permutation_app_inv_r in H1.
  - by rewrite Hpl', Hg.
  - by rewrite Hcol', Hg.
  - rewrite Hp', Hplen. unfold taken. apply length_persons_set_hand.
  - done.
Qed.

(** What an action offered in the ThrowCards phase is. *)
Lemma throw_phase_action st acts k w :
  current_action (game st) = Phase.ThrowCards →
  allowed_plays st = Val acts → (k, w) ∈ acts →
  ∃ player d,
    player_to_play (game st) = Some player ∧
    defender (game st) = Some d ∧
    (k = ThrowCards None ∨
     ∃ option, k = ThrowCards (Some option) ∧ option ≠ [] ∧ NoDup option ∧
       can_throw st player (get_non_public_cards st) option = true).
Proof.
  intros Hphase Hal Hin.
  destruct (allowed_plays_throw st acts Hphase Hal) as (player & d & Hpl & Hd & ->).
  exists player, d. split_and!; [done..|].
  apply elem_of_cons in Hin as [[= -> _]|Hin]; [by left|]. right.
  apply list_elem_of_bind in Hin as (throw & Hin & Hthrow).
  apply list_elem_of_fmap in Hin as (o & [= -> ->] & Hin).
  apply list_elem_of_filter in Hin as [Hcan Hin].
  apply elem_of_combinations in Hin as [Hsub Hlen].
  apply elem_of_seq in Hthrow. exists o. split_and!; [done| | |done].
  - intros ->. simpl in Hlen. lia.
  - eapply sublist_NoDup; [|exact Hsub].
    apply NoDup_filter, NoDup_possible_card_plays, NoDup_non_public.
Qed.

Lemma step_ThrowCards st acts throw w :
  cards_ok st → seats_ok (game st) → is_end_state (game st) = false →
  current_action (game st) = Phase.ThrowCards →
  allowed_plays st = Val acts → (ThrowCards throw, w) ∈ acts →
  ∃ st', execute_action (ThrowCards throw, w) st = Ok tt st' ∧ invariant st' ∧
         in_play st' ++ leaving_play st (ThrowCards throw, w) st' ≡ₚ in_play st.
Proof.
  intros Hc Hs Hend Hphase Hal Hin.
  destruct (throw_phase_action st acts _ w Hphase Hal Hin) as (p & d & Hpl & Hd & Hk).
  set (st1 := upd_game (λ g, set_history (history g ++ [(ThrowCards throw, w)]) g) st).
  assert (Hpseat : p ∈ players (game st)).
  { destruct Hs as [_ _ _ _ (p' & Hp' & Hpin) _ _ _]. congruence. }
  (* the throws *)
  assert (∃ st2 thrown,
    throw_cards throw st1 = Ok tt st2 ∧
    persons st2 = <[p := mkPlayer (name (person st p)) (hand_of st2 p)]> (persons st) ∧
    hand_of st p ≡ₚ thrown ++ hand_of st2 p ∧
    game st2 = set_cards_to_defend (cards_to_defend (game st1) ++ thrown) (game st1))
    as (st2 & thrown & Hthrow & Hps2 & Hhand & Hg2).
  { destruct Hk as [[= ->]|(option & [= ->] & Hne & Hnd & Hcan)].
    - exists st1, []. split_and!; [done| |done|].
      + change (hand_of st1 p) with (hand_of st p). by rewrite persons_insert_same.
      + rewrite app_nil_r. by destruct (game st1).
    - destruct (throw_loop p option st1) as (st2 & thrown & Hrun & Hps & Hperm & _ & Hg & _).
      + by apply can_throw_throwable.
      + by apply (cards_ok_hand st).
      + done.
      + exists st2, thrown. split_and!; [|done..].
        unfold throw_cards. by destruct option. }
  assert (Hplay2 : in_play st2 ≡ₚ in_play st).
  { unfold in_play. rewrite Hg2. simpl.
    destruct (hands_insert st st2 p _ _ (players (game st)) Hps2)
      as (rest & H1 & H2); [apply Hc|done|by apply Hc|].
    rewrite H1, H2, Hhand. solve_Permutation. }
  assert (Hlen2 : length (persons st2) = length (persons st)).
  { rewrite Hps2. apply length_insert. }
  (* the next attacker *)
  assert (Hne : attackers (game st2) ≠ []).
  { rewrite Hg2. simpl. pose proof (attacker_in_range _ Hs).
    destruct (attackers (game st)); [simpl in *; lia|done]. }
  destruct (next_attacker_spec st2 Hne) as (q & Hq & Hnext).
  rewrite Hg2 in Hq. simpl in Hq.
  set (i := (current_attacker (game st) + 1) mod length (attackers (game st))) in *.
  set (st3 := upd_game
         (λ g, set_player_to_play (Some q)
                 (set_current_attacker
                    ((current_attacker (game st2) + 1) mod length (attackers (game st2)))
                    g)) st2) in *.
  destruct (throw_start _ Hs Hphase) as (start & Hstart & Hlt).
  destruct (lookup_lt_is_Some_2 _ _ Hlt) as [starter Hstarter].
  assert (Hs3 : seats_ok (game st3)).
  { pose proof (elem_of_lookup_seated _ _ _ _ (attackers_seated _ Hs) Hq).
    destruct Hs. split; simpl; rewrite ?Hg2; simpl; try done;
      solve [ apply Nat.mod_upper_bound; by destruct (attackers (game st))
            | by exists q | by rewrite Hphase | eauto ]. }
  unfold execute_action. simpl. unfold mbind at 1, M_bind at 1, modify at 1. fold st1.
  unfold mbind at 1, M_bind at 1. rewrite Hthrow.
  unfold mbind at 1, M_bind at 1. rewrite Hnext.
  unfold mbind at 1, M_bind at 1, get_state at 1.
  assert (Hstart3 : attacker_to_start_throwing (game st3) = Some start)
    by (simpl; by rewrite Hg2).
  assert (Hstarter3 : attackers (game st3) !! start = Some starter)
    by (simpl; by rewrite Hg2).
  rewrite Hstart3.
  unfold mbind at 1, M_bind at 1, lift at 1, index at 1. rewrite Hstarter3.
  destruct (decide (q = starter)) as [->|Hne'].
  - destruct (take_and_close_invariant st3) as (st' & Hclose & Hperm & Hpl' & Hcol' & Hlen' & Hs').
    + simpl. rewrite Hg2. apply Hc.
    + simpl. rewrite Hg2. simpl. rewrite Hlen2. apply Hc.
    + done.
    + exists st'. rewrite leaving_play_other, app_nil_r by done. split; [done|].
      assert (in_play st' ≡ₚ in_play st) as Hfinal.
      { rewrite Hperm. etrans; [|exact Hplay2]. unfold in_play. simpl. done. }
      split; [|done]. split; [|done].
      eapply (cards_ok_transfer st st' []); [done| | | |by rewrite app_nil_r].
      * rewrite Hpl'. simpl. by rewrite Hg2.
      * rewrite Hcol'. simpl. by rewrite Hg2.
      * by rewrite Hlen'.
  - exists st3. rewrite leaving_play_other, app_nil_r by done. split; [done|].
    assert (in_play st3 ≡ₚ in_play st) as Hfinal by by rewrite <- Hplay2.
    split; [|done]. split; [|done].
    eapply (cards_ok_transfer st st3 []); [done| | | |by rewrite app_nil_r];
      simpl; by rewrite ?Hg2.
Qed.

(** Every action offered in a state that satisfies the invariant
    executes, keeps the invariant, and keeps the cards in play but for
    the pairs that a closing ['PassAttack'] removes. *)
Lemma step_invariant st acts a :
  invariant st → is_end_state (game st) = false →
  allowed_plays st = Val acts → a ∈ acts →
  ∃ st', execute_action a st = Ok tt st' ∧ invariant st' ∧
         in_play st' ++ leaving_play st a st' ≡ₚ in_play st.
Proof.
  intros [Hc Hs] Hend Hal Hin. specialize (Hs Hend). destruct a as [k w].
  destruct (current_action (game st)) eqn:Hphase.
  - destruct (allowed_plays_attack st acts Hphase Hal) as (? & d & _ & _ & _ & Hacts).
    assert (k = PassAttack ∨ ∃ sv, k = Attack sv) as [->|[sv ->]].
    { simpl in Hacts. subst acts.
      destruct (decide (0 < length (pairs_finished (game st))));
        destruct (decide (0 < length (hand_of st d)));
        apply elem_of_app in Hin as [Hin|Hin];
        try (by apply elem_of_nil in Hin).
      all: try (apply list_elem_of_singleton in Hin as [= -> _]; by left).
      all: apply list_elem_of_fmap in Hin as (sv & [= -> _] & _); right; by exists sv. }
    + by eapply step_PassAttack.
    + by eapply step_Attack.
  - destruct (defend_phase_action st acts k w Hphase Hal Hin)
      as (_ & _ & _ & _ & [->|(_ & sv & _ & _ & [->|[[-> _]|[-> _]]])]).
    + by eapply step_Take.
    + by eapply step_Defend.
    + by eapply step_Reflect.
    + by eapply step_ReflectTrump.
  - destruct (throw_phase_action st acts k w Hphase Hal Hin)
      as (_ & _ & _ & _ & [->|(option & -> & _)]); by eapply step_ThrowCards.
Qed.

(** ** Binding cards keeps the seats and the hands *)

Lemma invariant_cards st st' :
  persons st' = persons st → game st' = game st → invariant st → invariant st'.
Proof.
  intros Hp Hg [Hc Hs]. split; [|by rewrite Hg].
  eapply (cards_ok_transfer st st' []); [done|by rewrite Hg..|by rewrite Hp|].
  rewrite app_nil_r. unfold in_play, hands, hand_of, person. by rewrite Hp, Hg.
Qed.


Lemma make_cards_known_loop_frame rnd h : ∀ i st,
  same_seats st (state_of (make_cards_known_loop rnd i h st)).
Proof.
  induction h as [|a h IH]; intros i st; [done|]. simpl.
  unfold mbind at 1, M_bind at 1, get_state at 1.
  unfold mbind at 1, M_bind at 1.
  destruct (Card.is_unknown (card st a)).
  - unfold mbind at 1, M_bind at 1, lift at 1.
    destruct (choice (rnd i) (get_unknown_cards st)) as [sv|]; [|done].
    unfold mbind at 1, M_bind at 1, lift at 1.
    destruct (Card.from_suit_value sv.1 sv.2 (card st a)) as [bound|]; [|done].
    unfold modify. apply (IH (S i) (set_card a (Card.set_is_private true bound) st)).
  - apply IH.
Qed.

Lemma bind_unknown_frame rnd cs : ∀ i unknown st,
  same_seats st (state_of (bind_unknown rnd i unknown cs st)).
Proof.
  induction cs as [|a cs IH]; intros i unknown st; [done|]. simpl.
  unfold mbind at 1, M_bind at 1, lift at 1.
  destruct (pop_random (rnd i) unknown) as [[sv unknown']|]; [|done].
  unfold mbind at 1, M_bind at 1, get_state at 1.
  unfold mbind at 1, M_bind at 1, lift at 1.
  destruct (Card.from_suit_value sv.1 sv.2 (card st a)) as [bound|]; [|done].
  unfold mbind at 1, M_bind at 1, modify at 1.
  apply (IH (S i) unknown' (set_card a (Card.set_is_public true bound) st)).
Qed.

Lemma determinize_hand_frame p rnd st :
  same_seats st (state_of (determinize_hand p rnd st)).
Proof.
  unfold determinize_hand. unfold mbind at 1, M_bind at 1, get_state at 1.
  unfold mbind at 1, M_bind at 1.
  pose proof (publish_known_spec (hand_of st p) st) as (_ & Hp & Hg & _).
  destruct (publish_known (hand_of st p) st) as [[] st1|e st1]; simpl in *; [|done].
  case_decide; [|done].
  unfold mbind at 1, M_bind at 1, get_state at 1.
  destruct (bind_unknown_frame rnd
              (filter (λ a, Card.is_unknown (card st a) = true) (hand_of st p)) 0
              (get_non_public_cards st1) st1) as [H1 H2].
  split; congruence.
Qed.

(** ** The constructed game *)

#[global] Arguments map_M : simpl never.
#[global] Arguments for_each : simpl never.
#[global] Arguments seq : simpl never.

Lemma alloc_cards c {A} (l : list A) : ∀ st,
  map_M (λ _, alloc_card c) l st =
  Ok (seq (length (cards st)) (length l))
     (mkState (cards st ++ replicate (length l) c) (persons st) (game st)).
Proof.
  induction l as [|x l IH]; intros st.
  - unfold map_M. simpl. unfold mret, M_ret. rewrite app_nil_r. by destruct st.
  - unfold map_M. fold (@map_M A nat). unfold mbind at 1, M_bind at 1, alloc_card at 1.
    unfold mbind at 1, M_bind at 1. rewrite IH. simpl.
    unfold mret, M_ret. rewrite length_app. simpl.
    rewrite <- app_assoc. simpl. rewrite Nat.add_1_r. done.
Qed.

Lemma deal_spec l : ∀ st,
  for_each l (λ p,
    st ← get_state;
    deck' ← fill_hand p (deck (game st));
    assign set_deck deck') st
  = Ok tt (foldl (λ s p, fill p s) st l).
Proof.
  induction l as [|p l IH]; intros st; [done|].
  unfold for_each. fold (@for_each nat). unfold mbind at 1, M_bind at 1.
  rewrite fill_step. apply IH.
Qed.

Lemma hands_empty st ps : (∀ p, p ∈ ps → hand_of st p = []) → hands st ps = [].
Proof.
  induction ps as [|p ps IH]; intros H; [done|].
  rewrite hands_cons, (H p) by by left. apply IH. intros q Hq. apply H. by right.
Qed.

Lemma new_trick_Ok main st st' :
  new_trick main st = Ok tt st' →
  is_Some (list_find (λ p, name (person st p) = main) (players (game st))).
Proof.
  unfold new_trick. msimpl. by destruct (list_find _ _) as [[idx x]|].
Qed.


Lemma modify_Ok f st (u : unit) st' : modify f st = Ok u st' → st' = f st.
Proof. by intros [= _ <-]. Qed.

Lemma lift_Ok {A} (r : res A) st a st' : lift r st = Ok a st' → r = Val a ∧ st' = st.
Proof. unfold lift. destruct r; [|done]. by intros [= <- <-]. Qed.

Lemma guard_Ok (P : Prop) `{Decision P} e st (u : unit) st' :
  (if decide P then mret tt else raise e) st = Ok u st' → P ∧ st' = st.
Proof. case_decide; [|done]. by intros [= <-]. Qed.

(** The state in which [__init__] deals: the players are seated, the
    deck and the collection are the 36 new cards. *)
Lemma init_deal fuel rnd ps shuffle main info st0 b st :
  GameTree_init (S fuel) rnd ps shuffle main info st0 = Ok b st →
  ∃ stA sv,
    persons stA = persons st0 ∧
    players (game stA) = ps ∧
    deck (game stA) = seq (length (cards st0)) 36 ∧
    card_collection (game stA) = seq (length (cards st0)) 36 ∧
    (if decide (sv.2 = Some 8)
     then GameTree_init fuel rnd ps shuffle main info
     else
       for_each (seq (length (cards st0)) 36)
         (λ a, modify (upd_card a (Card.set_trump_suit sv.1))) ;;
       for_each ps (λ p,
         st ← get_state;
         deck' ← fill_hand p (deck (game st));
         assign set_deck deck') ;;
       new_trick main ;;
       mret true) stA = Ok b st.
Proof.
  intros Hinit. simpl in Hinit.
  apply bind_Ok in Hinit as ([] & s1 & H1 & Hinit). apply modify_Ok in H1.
  apply bind_Ok in Hinit as ([] & s2 & H2 & Hinit). apply guard_Ok in H2 as [_ H2].
  apply bind_Ok in Hinit as ([] & s3 & H3 & Hinit). apply modify_Ok in H3.
  apply bind_Ok in Hinit as (new_deck & s4 & H4 & Hinit).
  rewrite (alloc_cards Card.new (seq 0 36)) in H4. injection H4 as Hdeck H4.
  apply bind_Ok in Hinit as ([] & s5 & H5 & Hinit). apply modify_Ok in H5.
  apply bind_Ok in Hinit as ([] & s6 & H6 & Hinit). apply modify_Ok in H6.
  apply bind_Ok in Hinit as ([] & s7 & H7 & Hinit). apply modify_Ok in H7.
  apply bind_Ok in Hinit as (s7' & s8 & H8 & Hinit). injection H8 as <- <-.
  apply bind_Ok in Hinit as ([] & s9 & H9 & Hinit). apply guard_Ok in H9 as [_ H9].
  apply bind_Ok in Hinit as (bottom & s10 & H10 & Hinit). apply lift_Ok in H10 as [_ H10].
  apply bind_Ok in Hinit as (sv & s11 & H11 & Hinit). apply lift_Ok in H11 as [_ H11].
  apply bind_Ok in Hinit as (bound & s12 & H12 & Hinit). apply lift_Ok in H12 as [_ H12].
  apply bind_Ok in Hinit as ([] & stA & H13 & Hinit). apply modify_Ok in H13.
  exists stA, sv.
  assert (Hlen : length (cards s3) = length (cards st0)) by (by rewrite H3, H2, H1).
  rewrite Hlen in Hdeck. rewrite Hdeck.
  split_and!; [| | | |exact Hinit].
  all: rewrite H13, H12, H11, H10, H9, H7, H6, H5; simpl; try done.
  all: rewrite <- H4; simpl; rewrite H3, H2, H1; done.
Qed.

(** A freshly constructed game satisfies the invariant. *)
Lemma init_invariant fuel rnd ps shuffle main info : ∀ st0 st,
  new_players st0 ps →
  GameTree_init fuel rnd ps shuffle main info st0 = Ok true st →
  invariant st.
Proof.
  induction fuel as [|fuel IH]; intros st0 st Hnew Hinit; [done|].
  apply init_deal in Hinit as (stA & sv & HpA & HplA & HdkA & HcolA & Hinit).
  remember (seq (length (cards st0)) 36) as new_deck eqn:Enew in *.
  case_decide as Hace.
  { apply (IH stA st); [|done]. destruct Hnew as [Hnd Hnew]. split; [done|].
    intros p Hp. unfold hand_of, person. rewrite HpA. by apply Hnew. }
  apply bind_Ok in Hinit as ([] & stB & HB & Hinit).
  assert (Hsame : same_seats stA stB).
  { pose proof (for_each_inv (same_seats stA)
      (λ a, modify (upd_card a (Card.set_trump_suit sv.1))) new_deck
      (λ x s H, H) stA (conj eq_refl eq_refl)) as Hs.
    by rewrite HB in Hs. }
  destruct Hsame as [HpB HgB]. clear HB.
  apply bind_Ok in Hinit as ([] & stC & HC & Hinit).
  rewrite deal_spec in HC. injection HC as HC.
  apply bind_Ok in Hinit as ([] & stD & Hnewtrick & Hinit).
  injection Hinit as <-.
  destruct Hnew as [Hnd Hnew].
  assert (HplB : players (game stB) = ps) by by rewrite HgB.
  destruct (refill_invariant ps stB)
    as (Hperm & Hlen & _ & _ & deck' & HgC).
  { by rewrite HplB. }
  { rewrite HplB, HpB, HpA. intros p Hp. by apply Hnew. }
  { by rewrite HplB. }
  rewrite HC in Hperm, Hlen, HgC.
  destruct (new_trick_invariant stC main (new_trick_Ok _ _ _ Hnewtrick))
    as (st' & Hnew' & Hc' & Hp' & Hpl' & Hdk' & Hcol' & Hctd' & Hpairs' & Hseats').
  rewrite Hnewtrick in Hnew'. injection Hnew' as <-.
  assert (Hplay : in_play stD ≡ₚ new_deck).
  { assert (H1 : in_play stD ++ cards_to_defend (game stB)
                   ++ flatten_pairs (pairs_finished (game stB)) ≡ₚ in_play stC).
    { unfold in_play. rewrite Hdk', Hpl', Hctd', Hpairs'.
      unfold hands at 1, hand_of, person. rewrite Hp'.
      fold (person stC) (hand_of stC). fold (hands stC (players (game stC))).
      rewrite HgC. simpl. solve_Permutation. }
    rewrite Hperm in H1. unfold in_play at 2 in H1.
    rewrite hands_empty in H1; last first.
    { rewrite HplB. intros p Hp. unfold hand_of, person. rewrite HpB, HpA. by apply Hnew. }
    rewrite HgB, HdkA in H1. simpl in H1.
    by apply Permutation_app_inv_r in H1. }
  split; [|exact Hseats']. split.
  - rewrite Hpl', HgC. simpl. by rewrite HplB.
  - rewrite Hpl', HgC. simpl. rewrite HplB, Hp', Hlen, HpB, HpA.
    intros p Hp. by apply Hnew.
  - rewrite Hplay, Enew. apply NoDup_seq.
  - rewrite Hcol', HgC. simpl. rewrite HgB, HcolA. intros c Hc. by rewrite <- Hplay.
  - rewrite Hcol', HgC. simpl. rewrite HgB, HcolA, Enew. apply NoDup_seq.
  - rewrite Hcol', HgC. simpl. rewrite HgB, HcolA, Enew. apply length_seq.
Qed.
(** ** Every reachable state satisfies the invariant *)

Lemma reachable_invariant st : reachable st → invariant st.
Proof.
  induction 1 as [st0 fuel rnd ps shuffle main info st _ Hnew Hinit
                 |st a acts st' _ IH Hend Hal Hin Hex
                 |st p rnd st' _ IH Hex
                 |st p rnd st' _ IH Hex
                 |st a st' _ IH Hex].
  - by eapply init_invariant.
  - destruct (step_invariant st acts a IH Hend Hal Hin) as (st'' & Hex' & Hinv & _).
    rewrite Hex in Hex'. by injection Hex' as <-.
  - unfold make_cards_known in Hex.
    apply bind_Ok in Hex as (s & s' & [= <- <-] & Hex).
    destruct (make_cards_known_loop_frame rnd (hand_of st p) 0 st) as [Hp Hg].
    rewrite Hex in Hp, Hg. by eapply invariant_cards.
  - destruct (determinize_hand_frame p rnd st) as [Hp Hg].
    rewrite Hex in Hp, Hg. by eapply invariant_cards.
  - injection Hex as <-. eapply (invariant_cards st); [..|exact IH]; done.
Qed.
(** ** The discards of an allowed action *)

(** The payload of a single-card action. *)
Lemma allowed_card_found st acts a sv remove :
  invariant st → is_end_state (game st) = false →
  allowed_plays st = Val acts → a ∈ acts →
  a.1 ∈ [Attack sv; Defend sv; Reflect sv; ReflectTrump sv] →
  ∃ p c st1,
    player_to_play (game st) = Some p ∧
    (a.1 = Reflect sv → defender (game st) = Some p) ∧
    discard_card p sv remove st = Ok c st1 ∧ c ∈ hand_of st p.
Proof.
  intros [Hc Hs] Hend Hal Hin Hkind. specialize (Hs Hend). destruct a as [k w].
  simpl in Hkind.
  assert (Hk' : k = Attack sv ∨ k = Defend sv ∨ k = Reflect sv ∨ k = ReflectTrump sv).
  { rewrite !elem_of_cons in Hkind. rewrite elem_of_nil in Hkind. tauto. }
  clear Hkind.
  assert (∃ p a0, player_to_play (game st) = Some p ∧
            (k = Reflect sv → defender (game st) = Some p) ∧
            a0 ∈ hand_of st p ∧ carries st (get_non_public_cards st) sv a0)
    as (p & a0 & Hpl & Hdef & Ha0 & Hcar).
  { destruct (current_action (game st)) eqn:Hphase.
    - destruct (allowed_plays_attack st acts Hphase Hal)
        as (attacker & d & Hat & Hpl & Hd & Hacts). simpl in Hacts. subst acts.
      assert (Hsv : k = Attack sv ∧
                sv ∈ possible_card_plays st attacker (get_non_public_cards st)).
      { destruct (decide (0 < length (pairs_finished (game st))));
          destruct (decide (0 < length (hand_of st d)));
          apply elem_of_app in Hin as [Hin|Hin];
          try (by apply elem_of_nil in Hin).
        all: try (apply list_elem_of_singleton in Hin as [= -> _];
                  by destruct Hk' as [?|[?|[?|?]]]).
        all: apply list_elem_of_fmap in Hin as (sv' & [= -> _] & Hin).
        all: assert (sv' = sv) as -> by (destruct Hk' as [?|[?|[?|?]]]; congruence).
        all: split; [done|].
        all: try done.
        all: by apply list_elem_of_filter in Hin as [_ ?]. }
      destruct Hsv as [-> Hsv].
      apply possible_card_plays_elem in Hsv as (a0 & Ha0 & Hcar).
      by exists attacker, a0.
    - destruct (defend_phase_action st acts k w Hphase Hal Hin)
        as (td & p & Htd & Hpl & [->|(a0 & sv' & Ha0 & Hcar & Hk)]);
        [by destruct Hk' as [?|[?|[?|?]]]|].
      assert (sv' = sv) as ->.
      { destruct Hk as [->|[[-> _]|[-> _]]]; destruct Hk' as [?|[?|[?|?]]]; congruence. }
      exists p, a0. split_and!; [done| |done..].
      intros _. rewrite <- Hpl. symmetry. by apply Hs.
    - destruct (throw_phase_action st acts k w Hphase Hal Hin)
        as (_ & _ & _ & _ & [->|(option & -> & _)]);
        by destruct Hk' as [?|[?|[?|?]]]. }
  destruct (discard_finds st p sv a0 Ha0 Hcar) as [[idx c] Hfind].
  destruct (discard_card_found p sv remove st idx c Hfind) as (st1 & Hd & _).
  exists p, c, st1. split_and!; [done..|].
  apply list_find_Some in Hfind as (Hidx & _ & _). by eapply list_elem_of_lookup_2.
Qed.

(** The payload of a throw. *)
Lemma allowed_throw_found st acts a cs :
  invariant st → is_end_state (game st) = false →
  allowed_plays st = Val acts → a ∈ acts → a.1 = ThrowCards (Some cs) →
  ∃ p st1 thrown,
    player_to_play (game st) = Some p ∧
    can_throw st p (get_non_public_cards st) cs = true ∧
    throw_cards (Some cs) st = Ok tt st1 ∧
    length thrown = length cs ∧
    hand_of st p ≡ₚ thrown ++ hand_of st1 p ∧
    cards_to_defend (game st1) = cards_to_defend (game st) ++ thrown.
Proof.
  intros [Hc Hs] Hend Hal Hin Hkind. specialize (Hs Hend). destruct a as [k w].
  simpl in Hkind. subst k.
  assert (Hphase : current_action (game st) = Phase.ThrowCards).
  { destruct (current_action (game st)) eqn:Hphase; [| |done].
    - destruct (allowed_plays_attack st acts Hphase Hal) as (? & d & _ & _ & _ & Hacts).
      simpl in Hacts. subst acts.
      destruct (decide (0 < length (pairs_finished (game st))));
        destruct (decide (0 < length (hand_of st d)));
        apply elem_of_app in Hin as [Hin|Hin];
        try (by apply elem_of_nil in Hin);
        try (by apply list_elem_of_singleton in Hin);
        by apply list_elem_of_fmap in Hin as (sv & ? & _).
    - by destruct (defend_phase_action st acts _ w Hphase Hal Hin)
        as (_ & _ & _ & _ & [?|(_ & sv & _ & _ & [?|[[? _]|[? _]]])]). }
  destruct (throw_phase_action st acts _ w Hphase Hal Hin)
    as (p & d & Hpl & Hd & [?|(option & [= <-] & Hne & Hnd & Hcan)]); [done|].
  destruct (throw_loop p cs st) as (st1 & thrown & Hrun & Hps & Hperm & Hlen & Hg & _).
  - by apply can_throw_throwable.
  - apply (cards_ok_hand st); [done|].
    destruct Hs as [_ _ _ _ (p' & Hp' & Hpin) _ _ _]. congruence.
  - done.
  - exists p, st1, thrown. split_and!; try done.
    + unfold throw_cards. by destruct cs.
    + by rewrite Hg.
Qed.
(** ** The example game is a game *)

Lemma dealt_reachable : reachable Example.dealt.
Proof.
  apply (reachable_init Example.start 3 Example.rnd0 [0; 1] true "A" true).
  - reflexivity.
  - split; [apply (bool_decide_unpack _); by vm_compute|].
    intros p Hp. apply elem_of_cons in Hp as [->|Hp]; [by split; [simpl; lia|]|].
    apply list_elem_of_singleton in Hp as ->. by split; [simpl; lia|].
  - by vm_compute.
Qed.

Lemma attacked_reachable : reachable Example.attacked.
Proof.
  eapply (reachable_step Example.dealt Example.attack).
  - apply dealt_reachable.
  - by vm_compute.
  - by vm_compute.
  - apply (bool_decide_unpack _). by vm_compute.
  - by vm_compute.
Qed.

Lemma defended_reachable : reachable Example.defended.
Proof.
  eapply (reachable_step Example.attacked Example.defend).
  - apply attacked_reachable.
  - by vm_compute.
  - by vm_compute.
  - apply (bool_decide_unpack _). by vm_compute.
  - by vm_compute.
Qed.
(** * Snapshots are independent of their original *)

Lemma elem_of_option_list {A} (o : option A) x : x ∈ option_list o ↔ o = Some x.
Proof.
  destruct o as [y|]; simpl.
  - rewrite list_elem_of_singleton. split; [by intros ->|by intros [= ->]].
  - rewrite elem_of_nil. split; [done|by intros ?].
Qed.

Lemma seats_elem g p :
  p ∈ seats g ↔
  p ∈ players g ∨ p ∈ attackers g ∨ p ∈ draw_order g ∨
  defender g = Some p ∨ player_to_play g = Some p.
Proof.
  unfold seats. rewrite !elem_of_app, !elem_of_option_list. tauto.
Qed.

Lemma table_elem g a :
  a ∈ table g ↔
  a ∈ deck g ∨ a ∈ cards_to_defend g ∨ a ∈ flatten_pairs (pairs_finished g).
Proof. unfold table. rewrite !elem_of_app. tauto. Qed.

(** Side conditions of an attribute assignment: the new references are
    among the old ones or known to be owned. *)
Ltac refs :=
  let g := fresh "g" in let Hg := fresh "Hg" in
  let q := fresh "q" in let Hq := fresh "Hq" in
  intros g Hg q Hq;
  first [ rewrite seats_elem in Hq; setoid_rewrite seats_elem in Hg
        | rewrite table_elem in Hq; setoid_rewrite table_elem in Hg ];
  simpl in Hq; try change (flatten_pairs []) with (@nil nat) in Hq;
  decompose [or] Hq; simplify_eq;
  solve [eauto 10 | exfalso; eapply elem_of_nil; eassumption].

Section frame.
Variables (own : list nat) (np nc : nat).
Hypothesis own_fresh : ∀ p, p ∈ own → np ≤ p.

Lemma agree_refl st : agree np nc st st.
Proof. done. Qed.

Lemma agree_trans st1 st2 st3 :
  agree np nc st1 st2 → agree np nc st2 st3 → agree np nc st1 st3.
Proof. intros [? ?] [? ?]. split; congruence. Qed.

Lemma safe_ret {A} (a : A) (Q : A → Prop) : Q a → safe own np nc (mret a) Q.
Proof. intros Ha st Hc. by split_and!. Qed.

Lemma safe_raise {A} e (Q : A → Prop) : safe own np nc (raise e) Q.
Proof. intros st Hc. by split. Qed.

Lemma safe_bind {A B} (m : M A) (k : A → M B) (Q : A → Prop) (R : B → Prop) :
  safe own np nc m Q → (∀ a, Q a → safe own np nc (k a) R) →
  safe own np nc (m ≫= k) R.
Proof.
  intros Hm Hk st Hc. unfold mbind, M_bind. specialize (Hm st Hc).
  destruct (m st) as [a st1|e st1]; [|done].
  destruct Hm as (Ha & Hc1 & Hag). specialize (Hk a Ha st1 Hc1).
  destruct (k a st1) as [b st2|e st2].
  - destruct Hk as (? & ? & ?). split_and!; [done..|]. by eapply agree_trans.
  - destruct Hk as (? & ?). split; [done|]. by eapply agree_trans.
Qed.

Lemma safe_weaken {A} (m : M A) (Q R : A → Prop) :
  safe own np nc m Q → (∀ a, Q a → R a) → safe own np nc m R.
Proof.
  intros Hm HQR st Hc. specialize (Hm st Hc). destruct (m st); [|done].
  destruct Hm as (? & ? & ?). split_and!; auto.
Qed.

Lemma safe_get_state : safe own np nc get_state (confined own nc).
Proof. intros st Hc. by split_and!. Qed.

Lemma safe_lift {A} (r : res A) (Q : A → Prop) :
  (∀ a, r = Val a → Q a) → safe own np nc (lift r) Q.
Proof. intros Hr st Hc. unfold lift. destruct r; [|done]. split_and!; [by apply Hr|done..]. Qed.

Lemma safe_modify f (Q : unit → Prop) :
  Q tt → (∀ st, confined own nc st → confined own nc (f st) ∧ agree np nc st (f st)) →
  safe own np nc (modify f) Q.
Proof. intros HQ Hf st Hc. destruct (Hf st Hc). by split_and!. Qed.

Lemma safe_for_each {A} (l : list A) (body : A → M unit) :
  (∀ x, x ∈ l → safe own np nc (body x) (λ _, True)) →
  safe own np nc (for_each l body) (λ _, True).
Proof.
  induction l as [|x l IH]; intros Hbody.
  - by apply safe_ret.
  - unfold for_each; fold (@for_each A). eapply safe_bind.
    + apply Hbody. by left.
    + intros _ _. apply IH. intros y Hy. apply Hbody. by right.
Qed.

(** *** The writes *)

Lemma confined_upd_game f st :
  confined own nc st →
  (∀ p, p ∈ seats (f (game st)) → p ∈ own) →
  (∀ a, a ∈ table (f (game st)) → nc ≤ a) →
  confined own nc (upd_game f st) ∧ agree np nc st (upd_game f st).
Proof. intros (Hs & Hh & Ht) Hs' Ht'. by split_and!. Qed.

Lemma hand_of_set_hand p h st q a :
  a ∈ hand_of (set_hand p h st) q → (q = p ∧ a ∈ h) ∨ a ∈ hand_of st q.
Proof.
  unfold hand_of, person, set_hand. simpl. rewrite list_lookup_total_insert.
  case_decide as Hq; [|by right]. destruct Hq as [-> _]. by left.
Qed.

Lemma confined_set_hand p h st :
  confined own nc st → p ∈ own → (∀ a, a ∈ h → nc ≤ a) →
  confined own nc (set_hand p h st) ∧ agree np nc st (set_hand p h st).
Proof.
  intros (Hs & Hh & Ht) Hp Hfresh. split; [split_and!; [done| |done]|split; [|done]].
  - intros q a Hq Ha. apply hand_of_set_hand in Ha as [[_ Ha]|Ha]; eauto.
  - simpl. apply take_insert_ge. by apply own_fresh.
Qed.

Lemma confined_set_card a c st :
  confined own nc st → nc ≤ a →
  confined own nc (set_card a c st) ∧ agree np nc st (set_card a c st).
Proof.
  intros (Hs & Hh & Ht) Ha. split; [done|split; [done|]].
  simpl. by apply take_insert_ge.
Qed.

Lemma safe_game f :
  (∀ g, (∀ p, p ∈ seats g → p ∈ own) → ∀ p, p ∈ seats (f g) → p ∈ own) →
  (∀ g, (∀ a, a ∈ table g → nc ≤ a) → ∀ a, a ∈ table (f g) → nc ≤ a) →
  safe own np nc (modify (upd_game f)) (λ _, True).
Proof.
  intros Hs Ht. apply safe_modify; [done|]. intros st Hc.
  apply confined_upd_game; [done|apply Hs, Hc|apply Ht, Hc].
Qed.

Lemma safe_assign {A} (set : A → GameTree → GameTree) x :
  (∀ g, (∀ p, p ∈ seats g → p ∈ own) → ∀ p, p ∈ seats (set x g) → p ∈ own) →
  (∀ g, (∀ a, a ∈ table g → nc ≤ a) → ∀ a, a ∈ table (set x g) → nc ≤ a) →
  safe own np nc (assign set x) (λ _, True).
Proof.
  intros Hs Ht. apply safe_modify; [done|]. intros st Hc.
  apply confined_upd_game; [done|apply Hs, Hc|apply Ht, Hc].
Qed.

Lemma safe_discard_card p sv remove :
  p ∈ own → safe own np nc (discard_card p sv remove) (λ a, nc ≤ a).
Proof.
  intros Hp st Hc. unfold discard_card.
  destruct (list_find _ _) as [[idx a]|] eqn:Hfind; [|done].
  apply list_find_Some in Hfind as (Hidx & _ & _).
  assert (Ha : nc ≤ a).
  { destruct Hc as (_ & Hh & _). eapply Hh; [done|]. by eapply list_elem_of_lookup_2. }
  split; [done|].
  set (st1 := if Card.is_unknown (card st a)
              then upd_card a (Card.set_suit_value sv.1 sv.2) st else st).
  assert (H1 : confined own nc st1 ∧ agree np nc st st1).
  { unfold st1. destruct (Card.is_unknown (card st a)); [|done].
    by apply confined_set_card. }
  destruct H1 as [Hc1 Hag1].
  set (st2 := if remove then set_hand p (delete idx (hand_of st p)) st1 else st1).
  assert (H2 : confined own nc st2 ∧ agree np nc st1 st2).
  { unfold st2. destruct remove; [|done]. apply confined_set_hand; [done..|].
    intros b Hb. apply list_elem_of_delete_inv in Hb.
    destruct Hc as (_ & Hh & _). by eapply Hh. }
  destruct H2 as [Hc2 Hag2].
  destruct (confined_set_card a (make_public (card st2 a)) st2 Hc2 Ha) as [Hc3 Hag3].
  split; [done|]. eapply agree_trans; [|exact Hag3]. by eapply agree_trans.
Qed.

Lemma safe_lift_eq {A} (r : res A) : safe own np nc (lift r) (λ a, r = Val a).
Proof. by apply safe_lift. Qed.

Lemma index_elem {A} (l : list A) i x : index l i = Val x → x ∈ l.
Proof.
  unfold index. destruct (l !! i) eqn:Hl; [|done]. intros [= <-].
  by eapply list_elem_of_lookup_2.
Qed.

Lemma deref_Some {A} (o : option A) x : deref o = Val x → o = Some x.
Proof. destruct o; [|done]. by intros [= <-]. Qed.

Lemma safe_next_attacker : safe own np nc next_attacker (λ p, p ∈ own).
Proof.
  unfold next_attacker.
  eapply safe_bind; [apply safe_get_state|]. intros st (Hs & Hh & Ht).
  eapply safe_bind; [apply safe_lift_eq|]. intros i Hi.
  eapply safe_bind; [apply safe_assign; refs|]. intros _ _.
  eapply safe_bind; [apply safe_lift_eq|]. intros p Hp%index_elem.
  assert (p ∈ own) by (apply Hs, seats_elem; tauto).
  eapply safe_bind; [apply safe_assign; refs|]. intros _ _.
  by apply safe_ret.
Qed.

(** *** The methods of a trick *)

Lemma safe_fill_hand p deck :
  p ∈ own → (∀ a, a ∈ deck → nc ≤ a) →
  safe own np nc (fill_hand p deck) (λ deck', ∀ a, a ∈ deck' → nc ≤ a).
Proof.
  intros Hp Hdeck st Hc. unfold fill_hand. case_decide; [done|].
  rewrite draw_spec. split_and!.
  - intros a Ha. apply Hdeck. eapply elem_of_sublist; [exact Ha|apply sublist_drop].
  - apply confined_set_hand; [done..|]. intros a [Ha|Ha]%elem_of_app.
    + destruct Hc as (_ & Hh & _). by eapply Hh.
    + apply Hdeck. eapply elem_of_sublist; [exact Ha|apply sublist_take].
  - apply confined_set_hand; [done..|]. intros a [Ha|Ha]%elem_of_app.
    + destruct Hc as (_ & Hh & _). by eapply Hh.
    + apply Hdeck. eapply elem_of_sublist; [exact Ha|apply sublist_take].
Qed.

Lemma safe_refill : safe own np nc refill (λ _, True).
Proof.
  unfold refill.
  eapply safe_bind; [apply safe_get_state|]. intros st (Hs & Hh & Ht).
  apply safe_for_each. intros p Hp.
  eapply safe_bind; [apply safe_get_state|]. intros st1 (Hs1 & Hh1 & Ht1).
  eapply safe_bind.
  { apply safe_fill_hand.
    - apply Hs, seats_elem. tauto.
    - intros a Ha. apply Ht1, table_elem. tauto. }
  intros deck' Hdeck'. simpl in Hdeck'. apply safe_assign; refs.
Qed.

Lemma safe_new_trick main : safe own np nc (new_trick main) (λ _, True).
Proof.
  unfold new_trick.
  eapply safe_bind; [apply safe_get_state|]. intros st (Hs & Hh & Ht).
  destruct (list_find _ _) as [[idx first]|]; [|apply safe_raise].
  assert (Hliving : ∀ p, p ∈ filter (living st) (seats_from (players (game st)) idx) →
                         p ∈ own).
  { intros p [Hp _]%living_seats_elem. apply Hs, seats_elem. tauto. }
  eapply safe_bind; [apply safe_assign; refs|]. intros _ _.
  eapply safe_bind.
  { destruct (filter _ _) as [|main' [|second others]].
    - eapply safe_bind; [apply safe_assign; refs|]. intros _ _.
      apply safe_assign; refs.
    - eapply safe_bind; [apply safe_assign; refs|]. intros _ _.
      apply safe_assign; refs.
    - assert (Hmain : main' ∈ own) by (apply Hliving; set_solver).
      assert (Hsecond : second ∈ own) by (apply Hliving; set_solver).
      assert (Hothers : ∀ p, p ∈ others → p ∈ own) by (intros; apply Hliving; set_solver).
      assert (Hatt : ∀ p, p ∈ main' :: others → p ∈ own).
      { intros p [->|?]%elem_of_cons; auto. }
      assert (Hdraw : ∀ p, p ∈ (main' :: others) ++ [second] → p ∈ own).
      { intros p [?|Hp]%elem_of_app; [auto|]. by apply list_elem_of_singleton in Hp as ->. }
      eapply safe_bind; [apply safe_assign; refs|]. intros _ _.
      eapply safe_bind; [apply safe_assign; refs|]. intros _ _.
      eapply safe_bind; [apply safe_assign; refs|]. intros _ _.
      eapply safe_bind; [apply safe_assign; refs|]. intros _ _.
      eapply safe_bind; [apply safe_assign; refs|]. intros _ _.
      eapply safe_bind; [apply safe_assign; refs|]. intros _ _.
      eapply safe_bind; [apply safe_assign; refs|]. intros _ _.
      apply safe_assign; refs. }
  intros _ _.
  eapply safe_bind; [apply safe_assign; refs|]. intros _ _.
  eapply safe_bind; [apply safe_assign; refs|]. intros _ _.
  apply safe_assign; refs.
Qed.

Lemma safe_rotate_seats : safe own np nc rotate_seats (λ _, True).
Proof.
  unfold rotate_seats.
  eapply safe_bind; [apply safe_get_state|]. intros st (Hs & Hh & Ht).
  eapply safe_bind; [apply safe_lift_eq|]. intros i Hi.
  eapply safe_bind; [apply safe_lift_eq|]. intros new_defender Hnew%index_elem.
  assert (Hatt : ∀ p, p ∈ attackers (game st) → p ∈ own).
  { intros p Hp. apply Hs, seats_elem. tauto. }
  assert (Hpopped : ∀ p, p ∈ delete i (attackers (game st)) → p ∈ own).
  { intros p Hp%list_elem_of_delete_inv. auto. }
  eapply safe_bind; [apply safe_assign; refs|]. intros _ _.
  destruct (defender (game st)) as [old_defender|] eqn:Hdef; [|apply safe_raise].
  assert (Hold : old_defender ∈ own) by (apply Hs, seats_elem; tauto).
  set (popped := delete i (attackers (game st))) in *.
  assert (Hins : ∀ p, p ∈ take i popped ++ old_defender :: drop i popped → p ∈ own).
  { intros p [Hp|[->|Hp]%elem_of_cons]%elem_of_app; [|done|].
    - apply Hpopped. eapply elem_of_sublist; [exact Hp|apply sublist_take].
    - apply Hpopped. eapply elem_of_sublist; [exact Hp|apply sublist_drop]. }
  set (inserted := take i popped ++ old_defender :: drop i popped) in *.
  assert (Hdraw : ∀ p, p ∈ inserted ++ [new_defender] → p ∈ own).
  { intros p [?|Hp]%elem_of_app; [auto|].
    apply list_elem_of_singleton in Hp as ->. auto. }
  eapply safe_bind; [apply safe_assign; refs|]. intros _ _.
  eapply safe_bind; [apply safe_assign; refs|]. intros _ _.
  eapply safe_bind; [apply safe_assign; refs|]. intros _ _.
  eapply safe_bind; [apply safe_lift_eq|]. intros first Hfirst%index_elem.
  assert (Hrot : ∀ p, p ∈ drop 1 inserted ++ [first] → p ∈ own).
  { intros p [Hp|Hp]%elem_of_app.
    - apply Hins. eapply elem_of_sublist; [exact Hp|apply sublist_drop].
    - apply list_elem_of_singleton in Hp as ->. auto. }
  apply safe_assign; refs.
Qed.

Lemma safe_table_snoc c :
  nc ≤ c →
  safe own np nc
    (modify (upd_game (λ g, set_cards_to_defend (cards_to_defend g ++ [c]) g)))
    (λ _, True).
Proof.
  intros Hc. apply safe_modify; [done|]. intros st1 Hc1.
  apply confined_upd_game; [done|apply Hc1|]. intros a Ha.
  destruct Hc1 as (_ & _ & Ht1). rewrite table_elem in *. simpl in Ha.
  rewrite elem_of_app, list_elem_of_singleton in Ha.
  destruct Ha as [?|[[?|Hac]|?]]; [| |by rewrite Hac|]; apply Ht1, table_elem; tauto.
Qed.

Lemma safe_throw_cards throw : safe own np nc (throw_cards throw) (λ _, True).
Proof.
  unfold throw_cards. destruct throw as [[|sv0 cs]|];
    [apply safe_raise| |by apply safe_ret].
  apply safe_for_each. intros sv _.
  eapply safe_bind; [apply safe_get_state|]. intros st (Hs & Hh & Ht).
  eapply safe_bind; [apply safe_lift_eq|]. intros player Hpl%deref_Some.
  eapply safe_bind.
  { apply safe_discard_card. apply Hs, seats_elem. tauto. }
  intros c Hc. simpl in Hc. by apply safe_table_snoc.
Qed.

Lemma safe_take_and_close : safe own np nc take_and_close (λ _, True).
Proof.
  unfold take_and_close.
  eapply safe_bind; [apply safe_get_state|]. intros st (Hs & Hh & Ht).
  eapply safe_bind; [apply safe_lift_eq|]. intros d Hd%deref_Some.
  assert (d ∈ own) by (apply Hs, seats_elem; tauto).
  eapply safe_bind.
  { apply (safe_modify _ (λ _, True)); [done|]. intros st1 Hc1.
    apply confined_set_hand; [done..|]. intros a [Ha|Ha]%elem_of_app.
    - by eapply Hh.
    - apply Ht, table_elem. apply elem_of_app in Ha. tauto. }
  intros _ _.
  eapply safe_bind; [apply safe_refill|]. intros _ _.
  eapply safe_bind; [apply safe_lift_eq|]. intros i Hi.
  eapply safe_bind; [apply safe_lift_eq|]. intros second Hsecond.
  eapply safe_bind; [apply safe_get_state|]. intros st2 _.
  apply safe_new_trick.
Qed.

(** *** Every action *)

Lemma safe_execute_action a : safe own np nc (execute_action a) (λ _, True).
Proof.
  unfold execute_action.
  eapply safe_bind.
  { apply (safe_modify _ (λ _, True)); [done|]. intros st Hc.
    apply confined_upd_game; [done|apply Hc..]. }
  intros _ _. destruct a.1 as [sv|sv| |throw| |sv|sv].
  - (* Attack *)
    eapply safe_bind; [apply safe_get_state|]. intros st (Hs & Hh & Ht).
    eapply safe_bind; [apply safe_lift_eq|]. intros player Hpl%deref_Some.
    assert (player ∈ own) by (apply Hs, seats_elem; tauto).
    eapply safe_bind; [by apply safe_discard_card|]. intros c Hc. simpl in Hc.
    eapply safe_bind; [apply safe_assign; refs|]. intros _ _.
    eapply safe_bind.
    { apply safe_assign; [|refs]. intros g Hg q Hq.
      rewrite seats_elem in Hq. simpl in Hq. setoid_rewrite seats_elem in Hg.
      destruct Hq as [?|[?|[?|[?|Hq]]]]; eauto 10.
      apply Hs, seats_elem. tauto. }
    intros _ _.
    eapply safe_bind; [apply safe_assign; refs|]. intros _ _.
    by apply safe_table_snoc.
  - (* Defend *)
    eapply safe_bind; [apply safe_get_state|]. intros st (Hs & Hh & Ht).
    eapply safe_bind; [apply safe_lift_eq|]. intros card_defended Hcd%index_elem.
    assert (Hdrop : ∀ a, a ∈ drop 1 (cards_to_defend (game st)) → nc ≤ a).
    { intros b Hb. apply Ht, table_elem. right. left.
      eapply elem_of_sublist; [exact Hb|apply sublist_drop]. }
    eapply safe_bind; [apply safe_assign; refs|]. intros _ _.
    eapply safe_bind; [apply safe_lift_eq|]. intros player Hpl%deref_Some.
    assert (player ∈ own) by (apply Hs, seats_elem; tauto).
    eapply safe_bind; [by apply safe_discard_card|]. intros c Hc. simpl in Hc.
    eapply safe_bind.
    { apply (safe_modify _ (λ _, True)); [done|]. intros st1 Hc1.
      apply confined_upd_game; [done|apply Hc1|]. intros b Hb.
      destruct Hc1 as (_ & _ & Ht1). rewrite table_elem in *. simpl in Hb.
      rewrite flatten_pairs_snoc, elem_of_app in Hb.
      destruct Hb as [?|[?|[?|Hb]]]; [apply Ht1, table_elem; tauto..|].
      apply elem_of_cons in Hb as [->|Hb].
      - apply Ht, table_elem. tauto.
      - by apply list_elem_of_singleton in Hb as ->. }
    intros _ _. case_decide; [|by apply safe_ret].
    eapply safe_bind; [apply safe_lift_eq|]. intros p Hp%index_elem.
    assert (p ∈ own) by (apply Hs, seats_elem; tauto).
    eapply safe_bind; [apply safe_assign; refs|]. intros _ _.
    apply safe_assign; refs.
  - (* Take *)
    eapply safe_bind; [apply safe_get_state|]. intros st (Hs & Hh & Ht).
    eapply safe_bind; [apply safe_assign; refs|]. intros _ _.
    eapply safe_bind; [apply safe_lift_eq|]. intros p Hp%index_elem.
    assert (p ∈ own) by (apply Hs, seats_elem; tauto).
    eapply safe_bind; [apply safe_assign; refs|]. intros _ _.
    apply safe_assign; refs.
  - (* ThrowCards *)
    eapply safe_bind; [apply safe_throw_cards|]. intros _ _.
    eapply safe_bind; [apply safe_next_attacker|]. intros p Hp.
    eapply safe_bind; [apply safe_get_state|]. intros st _.
    destruct (attacker_to_start_throwing (game st)); [|apply safe_raise].
    eapply safe_bind; [apply safe_lift_eq|]. intros starter _.
    case_decide; [apply safe_take_and_close|by apply safe_ret].
  - (* PassAttack *)
    eapply safe_bind; [apply safe_next_attacker|]. intros p Hp.
    eapply safe_bind; [apply safe_get_state|]. intros st _.
    case_decide; [|by apply safe_ret].
    eapply safe_bind; [apply safe_refill|]. intros _ _.
    eapply safe_bind; [apply safe_get_state|]. intros st1 _.
    eapply safe_bind.
    { instantiate (1 := λ _, True). case_decide; [by apply safe_ret|apply safe_raise]. }
    intros _ _.
    eapply safe_bind; [apply safe_lift_eq|]. intros d _.
    apply safe_new_trick.
  - (* Reflect *)
    eapply safe_bind; [apply safe_get_state|]. intros st (Hs & Hh & Ht).
    eapply safe_bind; [apply safe_lift_eq|]. intros d Hd%deref_Some.
    assert (d ∈ own) by (apply Hs, seats_elem; tauto).
    eapply safe_bind; [by apply safe_discard_card|]. intros c Hc. simpl in Hc.
    eapply safe_bind; [apply safe_assign; refs|]. intros _ _.
    eapply safe_bind; [apply safe_rotate_seats|]. intros _ _.
    eapply safe_bind; [by apply safe_table_snoc|]. intros _ _.
    eapply safe_bind; [apply safe_assign; refs|]. intros _ _.
    apply safe_modify; [done|]. intros st1 Hc1.
    apply confined_upd_game; [done| |apply Hc1]. intros q Hq.
    destruct Hc1 as (Hs1 & _ & _). apply Hs1. rewrite seats_elem in *.
    simpl in Hq. tauto.
  - (* ReflectTrump *)
    eapply safe_bind; [apply safe_get_state|]. intros st (Hs & Hh & Ht).
    eapply safe_bind.
    { instantiate (1 := λ _, True). case_decide; [by apply safe_ret|apply safe_raise]. }
    intros _ _.
    eapply safe_bind; [apply safe_lift_eq|]. intros player Hpl%deref_Some.
    assert (player ∈ own) by (apply Hs, seats_elem; tauto).
    eapply safe_bind; [by apply safe_discard_card|]. intros c Hc. simpl in Hc.
    eapply safe_bind; [apply safe_game; refs|]. intros _ _.
    eapply safe_bind; [apply safe_assign; refs|]. intros _ _.
    eapply safe_bind; [apply safe_rotate_seats|]. intros _ _.
    eapply safe_bind; [apply safe_assign; refs|]. intros _ _.
    apply safe_modify; [done|]. intros st1 Hc1.
    apply confined_upd_game; [done| |apply Hc1]. intros q Hq.
    destruct Hc1 as (Hs1 & _ & _). apply Hs1. rewrite seats_elem in *.
    simpl in Hq. tauto.
Qed.
End frame.
(** ** The copy refers to new objects only *)

Lemma grown_refl st : grown st st.
Proof. by split_and!. Qed.

Lemma grown_alloc_person st0 st x :
  grown st0 st → grown st0 (mkState (cards st) (persons st ++ [x]) (game st)).
Proof.
  intros (Hg & [Hp Hc] & Hlp & Hlc). split_and!; simpl; try done.
  - split; simpl; [|done]. by rewrite take_app_le.
  - rewrite length_app. lia.
Qed.

Lemma grown_alloc_card st0 st x :
  grown st0 st → grown st0 (mkState (cards st ++ [x]) (persons st) (game st)).
Proof.
  intros (Hg & [Hp Hc] & Hlp & Hlc). split_and!; simpl; try done.
  - split; simpl; [done|]. by rewrite take_app_le.
  - rewrite length_app. lia.
Qed.

Lemma grown_set_hand st0 st p h :
  grown st0 st → length (persons st0) ≤ p → grown st0 (set_hand p h st).
Proof.
  intros (Hg & [Hp Hc] & Hlp & Hlc) Hfresh. split_and!; simpl; try done.
  - split; simpl; [|done]. by rewrite take_insert_ge.
  - by rewrite length_insert.
Qed.

(** The loop that fills [player_ids] or [card_ids]: every copy is a new
    object, and the dict maps into the copies. *)
Lemma copy_all_spec (copy : nat → M nat) (fresh : State → nat → Prop) st0 :
  (∀ x st c st', grown st0 st → copy x st = Ok c st' → grown st0 st' ∧ fresh st0 c) →
  ∀ originals ids copies st ids' copies' st',
    grown st0 st →
    (∀ k v, ids !! k = Some v → v ∈ copies) →
    (∀ c, c ∈ copies → fresh st0 c) →
    copy_all copy originals ids copies st = Ok (ids', copies') st' →
    grown st0 st' ∧
    (∀ k v, ids' !! k = Some v → v ∈ copies') ∧
    (∀ c, c ∈ copies' → fresh st0 c) ∧
    length copies' = length copies + length originals.
Proof.
  intros Hcopy. induction originals as [|x originals IH];
    intros ids copies st ids' copies' st' Hg Hids Hfresh Hrun.
  - injection Hrun as <- <- <-. split_and!; [done..|simpl; lia].
  - simpl in Hrun. apply bind_Ok in Hrun as (c & st1 & Hc & Hrun).
    destruct (Hcopy x st c st1 Hg Hc) as [Hg1 Hfc].
    apply IH in Hrun as (Hg' & Hids' & Hfresh' & Hlen); [|done|..].
    + split_and!; [done..|]. rewrite Hlen, length_app. simpl. lia.
    + intros k v [[_ <-]|[_ Hk]]%lookup_insert_Some; apply elem_of_app.
      * right. by apply list_elem_of_singleton.
      * left. by eapply Hids.
    + intros c' [?|Hc']%elem_of_app; [auto|].
      by apply list_elem_of_singleton in Hc' as ->.
Qed.

Lemma Player_make_copy_spec st0 x st c st' :
  grown st0 st → Player_make_copy x st = Ok c st' →
  grown st0 st' ∧ length (persons st0) ≤ c.
Proof.
  intros Hg [= <- <-]. split; [by apply grown_alloc_person|]. apply Hg.
Qed.

Lemma Card_make_copy_spec st0 x st c st' :
  grown st0 st → Card_make_copy x st = Ok c st' →
  grown st0 st' ∧ length (cards st0) ≤ c.
Proof.
  intros Hg [= <- <-]. split; [by apply grown_alloc_card|]. apply Hg.
Qed.

Lemma map_M_grown st0 l : ∀ st cs st',
  grown st0 st → map_M Player_make_copy l st = Ok cs st' → grown st0 st'.
Proof.
  induction l as [|x l IH]; intros st cs st' Hg Hrun.
  - by injection Hrun as <- <-.
  - unfold map_M in Hrun; fold (@map_M nat nat) in Hrun.
    apply bind_Ok in Hrun as (c & st1 & Hc & Hrun).
    apply bind_Ok in Hrun as (cs' & st2 & Hcs & Hrun). injection Hrun as <- <-.
    apply (Player_make_copy_spec st0) in Hc as [Hg1 _]; [|done]. by eapply IH.
Qed.

Lemma remap_elem ids l l' c :
  remap ids l = Val l' → c ∈ l' → ∃ k, ids !! k = Some c.
Proof.
  revert l'. induction l as [|x l IH]; intros l' Hl Hc.
  - injection Hl as <-. by apply elem_of_nil in Hc.
  - simpl in Hl. unfold lookup_id in Hl. destruct (ids !! x) as [c0|] eqn:Hx; [|done].
    simpl in Hl. destruct (remap ids l) as [cs|]; [|done]. injection Hl as <-.
    apply elem_of_cons in Hc as [->|Hc]; eauto.
Qed.

Lemma remap_pairs_elem ids l l' c :
  remap_pairs ids l = Val l' → c ∈ flatten_pairs l' → ∃ k, ids !! k = Some c.
Proof.
  revert l'. induction l as [|x l IH]; intros l' Hl Hc.
  - injection Hl as <-. by apply elem_of_nil in Hc.
  - simpl in Hl. unfold lookup_id in Hl.
    destruct (ids !! x.1) as [c0|] eqn:Hx0; [|done]. simpl in Hl.
    destruct (ids !! x.2) as [c1|] eqn:Hx1; [|done]. simpl in Hl.
    destruct (remap_pairs ids l) as [cs|]; [|done]. injection Hl as <-.
    unfold flatten_pairs in Hc. simpl in Hc.
    apply elem_of_cons in Hc as [->|Hc]; [eauto|].
    apply elem_of_cons in Hc as [->|Hc]; eauto.
Qed.

Lemma hand_of_set_hand_same p h st a : a ∈ hand_of (set_hand p h st) p → a ∈ h.
Proof.
  unfold hand_of, person, set_hand. simpl. rewrite list_lookup_total_insert.
  case_decide as Hp; [done|]. intros Ha.
  rewrite list_lookup_total_alt, lookup_ge_None_2 in Ha; [by apply elem_of_nil in Ha|].
  destruct (decide (p < length (persons st))); [|lia]. by destruct Hp.
Qed.

(** The hands of the copies hold copies. *)
Lemma remap_hands_spec st0 card_ids (fresh : nat → Prop) :
  (∀ k v, card_ids !! k = Some v → fresh v) →
  ∀ originals copies st st',
    grown st0 st →
    (∀ q, q ∈ copies → length (persons st0) ≤ q) →
    length originals = length copies →
    remap_hands card_ids originals copies st = Ok tt st' →
    grown st0 st' ∧
    (∀ q a, q ∈ copies → a ∈ hand_of st' q → fresh a) ∧
    (∀ q a, a ∈ hand_of st' q → a ∈ hand_of st q ∨ fresh a).
Proof.
  intros Hids. induction originals as [|p originals IH];
    intros [|copy_p copies] st st' Hg Hfresh Hlen Hrun; try done.
  - injection Hrun as <-. split_and!; [done| |by left].
    intros q a Hq. by apply elem_of_nil in Hq.
  - simpl in Hrun. apply bind_Ok in Hrun as (s & st1 & [= <- <-] & Hrun).
    apply bind_Ok in Hrun as (h & st1 & [Hh ->]%lift_Ok & Hrun).
    apply bind_Ok in Hrun as ([] & st2 & ->%modify_Ok & Hrun).
    assert (Hhf : ∀ a, a ∈ h → fresh a).
    { intros a Ha. destruct (remap_elem _ _ _ _ Hh Ha) as [k Hk]. by eapply Hids. }
    apply IH in Hrun as (Hg' & Hcopies & Hrest).
    + split_and!; [done| |].
      * intros q a [->|Hq]%elem_of_cons Ha; [|by eapply Hcopies].
        destruct (Hrest _ _ Ha) as [Ha'|?]; [|done].
        apply Hhf. by eapply hand_of_set_hand_same.
      * intros q a Ha. destruct (Hrest _ _ Ha) as [Ha'|?]; [|by right].
        apply hand_of_set_hand in Ha' as [[_ ?]|?]; auto.
    + apply grown_set_hand; [done|]. apply Hfresh. by left.
    + intros q Hq. apply Hfresh. by right.
    + simpl in Hlen. lia.
Qed.

(** [make_deepcopy] leaves the objects of the original alone, and the
    copy it returns refers to new player objects, whose hands hold new
    card objects, and to new card objects. *)
Lemma make_deepcopy_spec st T st1 :
  make_deepcopy st = Ok T st1 →
  grown st st1 ∧
  (∀ p, p ∈ players T → length (persons st) ≤ p) ∧
  confined (players T) (length (cards st)) (mkState (cards st1) (persons st1) T).
Proof.
  intros Hrun. unfold make_deepcopy in Hrun.
  apply bind_Ok in Hrun as (s & s1 & [= <- <-] & Hrun).
  apply bind_Ok in Hrun as (unused & s1 & Hunused & Hrun).
  apply (map_M_grown st) in Hunused; [|apply grown_refl].
  apply bind_Ok in Hrun as ([player_ids new_players] & s2 & Hplayers & Hrun).
  apply (copy_all_spec _ (λ st0 c, length (persons st0) ≤ c) st) in Hplayers
    as (Hg2 & Hpids & Hpfresh & Hplen);
    [|apply Player_make_copy_spec|done|done|by intros c ?%elem_of_nil].
  apply bind_Ok in Hrun as (new_attackers & s3 & [Hatt ->]%lift_Ok & Hrun).
  apply bind_Ok in Hrun as (new_draw_order & s3 & [Hdraw ->]%lift_Ok & Hrun).
  apply bind_Ok in Hrun as (new_player_to_play & s3 & Hptp & Hrun).
  assert (Hptp' : new_player_to_play ∈ new_players ∧ s3 = s2).
  { destruct (player_to_play (game st)) as [p|]; [|done].
    apply lift_Ok in Hptp as [Hptp ->]. split; [|done].
    unfold lookup_id in Hptp. destruct (player_ids !! p) eqn:Hp; [|done].
    injection Hptp as <-. by eapply Hpids. }
  destruct Hptp' as [Hptp' ->]. clear Hptp.
  apply bind_Ok in Hrun as ([card_ids new_card_collection] & s4 & Hcards & Hrun).
  apply (copy_all_spec _ (λ st0 c, length (cards st0) ≤ c) st) in Hcards
    as (Hg4 & Hcids & Hcfresh & Hclen);
    [|apply Card_make_copy_spec|done|done|by intros c ?%elem_of_nil].
  assert (Hcids' : ∀ k v, card_ids !! k = Some v → length (cards st) ≤ v).
  { intros k v Hk. eapply Hcfresh, Hcids, Hk. }
  apply bind_Ok in Hrun as ([] & s5 & Hhands & Hrun).
  apply (remap_hands_spec st _ (λ a, length (cards st) ≤ a) Hcids') in Hhands
    as (Hg5 & Hhands & _); [|done|done|by rewrite Hplen].
  apply bind_Ok in Hrun as (new_deck & s6 & [Hdeck ->]%lift_Ok & Hrun).
  apply bind_Ok in Hrun as (new_ctd & s6 & [Hctd ->]%lift_Ok & Hrun).
  apply bind_Ok in Hrun as (new_pairs & s6 & [Hpairs ->]%lift_Ok & Hrun).
  injection Hrun as <- <-.
  split; [done|]. split; [done|]. split_and!; simpl.
  - intros p. rewrite seats_elem. simpl.
    unfold get_id.
    intros [?|[Hp|[Hp|[Hp|Hp]]]]; [done| | | |].
    + destruct (remap_elem _ _ _ _ Hatt Hp) as [k Hk]. by eapply Hpids.
    + destruct (remap_elem _ _ _ _ Hdraw Hp) as [k Hk]. by eapply Hpids.
    + destruct (defender (game st)) as [d|]; [|done]. simpl in Hp. by eapply Hpids.
    + by injection Hp as <-.
  - intros p a Hp Ha. by eapply Hhands.
  - intros a. rewrite table_elem. simpl. intros [Ha|[Ha|Ha]].
    + destruct (remap_elem _ _ _ _ Hdeck Ha) as [k Hk]. by eapply Hcids'.
    + destruct (remap_elem _ _ _ _ Hctd Ha) as [k Hk]. by eapply Hcids'.
    + destruct (remap_pairs_elem _ _ _ _ Hpairs Ha) as [k Hk]. by eapply Hcids'.
Qed.

(** ** Actions on the copy *)

Lemma agree_lookup np nc st st' :
  agree np nc st st' →
  (∀ p, p < np → persons st' !! p = persons st !! p) ∧
  (∀ a, a < nc → cards st' !! a = cards st !! a).
Proof.
  intros [Hp Hc]. split; intros i Hi.
  - rewrite <- (lookup_take_lt (persons st') np i), <- (lookup_take_lt (persons st) np i)
      by done. by rewrite Hp.
  - rewrite <- (lookup_take_lt (cards st') nc i), <- (lookup_take_lt (cards st) nc i)
      by done. by rewrite Hc.
Qed.

(** Any sequence of actions on a confined game [T] leaves the other
    games and the objects below [np] and [nc] alone. *)
Lemma execute_on_frame own np nc S T acts : ∀ w,
  (∀ p, p ∈ own → np ≤ p) →
  S ≠ T → T < length (w_games w) →
  confined own nc (enter T w) →
  let w' := foldl (execute_on T) w acts in
  w_games w' !! S = w_games w !! S ∧
  agree np nc (enter T w) (enter T w').
Proof.
  induction acts as [|a acts IH]; intros w Hown HST HT Hc; simpl; [done|].
  pose proof (safe_execute_action own np nc Hown a (enter T w) Hc) as Hsafe.
  set (st' := state_of (execute_action a (enter T w))).
  assert (Hst' : confined own nc st' ∧ agree np nc (enter T w) st').
  { unfold st'. destruct (execute_action a (enter T w)); simpl; tauto. }
  destruct Hst' as [Hc' Hag'].
  assert (Henter : enter T (execute_on T w a) = st').
  { unfold execute_on. fold st'. unfold enter, leave. simpl.
    rewrite list_lookup_total_insert_eq by done. by destruct st'. }
  destruct (IH (execute_on T w a)) as [Hgames Hag]; [done..| |by rewrite Henter|].
  { unfold execute_on, leave. simpl. by rewrite length_insert. }
  split.
  - rewrite Hgames. unfold execute_on, leave. simpl.
    by rewrite list_lookup_insert_ne.
  - rewrite Henter in Hag. by eapply agree_trans.
Qed.
(** * Cards that were reset

    C10.  [reset] sets [trump_suit] to [None], and [from_suit_value]
    writes [suit], [value] and [is_unknown] (which becomes false) and
    nothing else, so never [trump_suit].  Hence a hand card that is
    reset and then bound again by [determinize_hand] is known, has a
    suit, keeps [trump_suit = None], and its [is_trump] is false
    whatever the trump suit of the game is. *)
Theorem reset_card_rebound_has_no_trump_suit :
  (∀ c, Card.trump_suit (Card.reset c) = None) ∧
  (∀ s v c c', Card.from_suit_value s v c = Val c' →
     Card.suit c' = s ∧ Card.value c' = v ∧ Card.is_unknown c' = false ∧
     Card.trump_suit c' = Card.trump_suit c ∧
     Card.is_public c' = Card.is_public c ∧ Card.is_private c' = Card.is_private c) ∧
  (∀ st p a rnd st',
     a ∈ hand_of st p → a < length (cards st) →
     (reset a ;; determinize_hand p rnd) st = Ok tt st' →
     Card.is_unknown (card st' a) = false ∧
     is_Some (Card.suit (card st' a)) ∧
     Card.trump_suit (card st' a) = None ∧
     Card.is_trump (card st' a) = false).
Proof.
  split_and!.
  - done.
  - intros s v c c' H. apply from_suit_value_Val in H as [_ ->]. done.
  - intros st p a rnd st' Hin Hlt Hrun. unfold reset in Hrun. msimpl.
    apply determinize_hand_binds with (a := a) in Hrun as (Hu & Hs & Htr).
    + unfold upd_card in Htr. rewrite card_set_card_eq in Htr by done. simpl in Htr.
      split_and!; [done..|]. unfold Card.is_trump. rewrite Htr.
      destruct Hs as [s ->]. done.
    + done.
    + unfold upd_card. by rewrite length_cards_set_card.
    + unfold upd_card. by rewrite card_set_card_eq.
Qed.

Lemma reset_card_rebound_has_no_trump_suit_witness :
  6 ∈ hand_of Example.dealt 1 ∧
  ∃ st', (reset 6 ;; determinize_hand 1 Example.rnd0) Example.dealt = Ok tt st' ∧
         Card.trump_suit (card st' 6) = None ∧ Card.is_trump (card st' 6) = false.
Proof.
  split; [apply (bool_decide_unpack _); by vm_compute|].
  destruct ((reset 6 ;; determinize_hand 1 Example.rnd0) Example.dealt)
    as [[] st'|] eqn:Hrun; [|by vm_compute in Hrun].
  exists st'. split; [done|].
  destruct reset_card_rebound_has_no_trump_suit as (_ & _ & Hrebound).
  destruct (Hrebound Example.dealt 1 6 Example.rnd0 st') as (_ & _ & Htrump & Hnot).
  - apply (bool_decide_unpack _). by vm_compute.
  - vm_compute. lia.
  - exact Hrun.
  - split; [exact Htrump|exact Hnot].
Defined.

(** ** choose_random_action *)

Lemma map_res_weights (l : list action) :
  (∀ x, x ∈ l → is_Some x.2) → ∃ ws, map_res weight_of l = Val ws.
Proof.
  induction l as [|[a o] l IH]; intros H; [by eexists|].
  destruct (H (a, o)) as [w Hw]; [by left|]. simpl in Hw. subst o.
  destruct IH as [ws Hws]; [intros y Hy; apply H; by right|].
  exists (w :: ws). simpl. unfold mbind, res_bind. by rewrite Hws.
Qed.

(** Whatever the weights are, a weighted list is sampled uniformly. *)
Lemma choose_random_action_weighted (l : list action) :
  l ≠ [] → (∀ x, x ∈ l → is_Some x.2) →
  choose_random_action l = Val (uniform ((λ x : action, (x.1, None)) <$> l)).
Proof.
  intros Hne Hw. destruct l as [|[a o] l]; [done|].
  unfold choose_random_action.
  destruct (Hw (a, o)) as [w Hx]; [by left|]. simpl in Hx. subst o.
  destruct (map_res_weights ((a, Some w) :: l) Hw) as [ws Hws].
  unfold mbind at 1, res_bind. unfold index. simpl lookup. cbv beta iota. simpl snd.
  cbv iota. rewrite Hws. done.
Qed.

Lemma choose_random_action_unweighted (l : list action) :
  l ≠ [] → (∀ x, x ∈ l → x.2 = None) →
  choose_random_action l = Val (uniform l).
Proof.
  intros Hne Hw. destruct l as [|[a o] l]; [done|].
  unfold choose_random_action.
  pose proof (Hw (a, o)) as Hx. simpl in Hx. rewrite Hx by by left. done.
Qed.

(** C9.  The code does not sample in proportion to the weights:
    [choose_random] receives them and calls [random.choices] without
    them.  On the weighted list [('Defend', (0, 1), 1.0)],
    [('Take', None, 0.5)] each action has probability 1/2, where
    weights 1 and 1/2 ask for 2/3 and 1/3. *)
Theorem choose_random_action_ignores_weights :
  let defend : action := (Defend (Some 0, Some 1), None) in
  let take : action := (Take, None) in
  let poss_actions := [(defend.1, Some 1%Q); (take.1, Some (1 # 2)%Q)] in
  ∃ d, choose_random_action poss_actions = Val d ∧
       Qeq (prob d defend) (1 # 2) ∧
       Qeq (prob d take) (1 # 2) ∧
       ¬ Qeq (prob d defend) (1 / (1 + (1 # 2))).
Proof.
  eexists. split; [reflexivity|]. vm_compute. split_and!; done.
Qed.
(** * The start of a trick

    C8.  [new_trick], called on a game that has not ended with the name
    of a player, collects the living players clockwise from that
    player: they are the players whose hand is not empty or who can
    still draw from a deck that is not empty.  With no living player
    the game ends and the loser is the previous defender; with one, the
    game ends and that player is the loser; with two or more the game
    goes on, the second living seat defends and the other living
    players attack. *)
Theorem new_trick_living_players st main idx first :
  list_find (λ p, name (person st p) = main) (players (game st)) = Some (idx, first) →
  is_end_state (game st) = false →
  (∀ p, p ∈ filter (living st) (seats_from (players (game st)) idx) ↔
        p ∈ players (game st) ∧ living st p) ∧
  ∃ st', new_trick main st = Ok tt st' ∧
    match filter (living st) (seats_from (players (game st)) idx) with
    | [] =>
        is_end_state (game st') = true ∧ loser (game st') = defender (game st)
    | [last] =>
        is_end_state (game st') = true ∧ loser (game st') = Some last
    | main_attacker :: second :: others =>
        is_end_state (game st') = false ∧
        defender (game st') = Some second ∧
        attackers (game st') = main_attacker :: others
    end.
Proof.
  intros Hfind Hend. split; [intros p; apply living_seats_elem|].
  eexists. split; [by eapply new_trick_found|].
  destruct (filter (living st) (seats_from (players (game st)) idx)) as [|m [|s o]];
    simpl; done.
Qed.

Lemma new_trick_living_players_witness :
  list_find (λ p, name (person Example.dealt p) = "A") (players (game Example.dealt))
    = Some (0, 0) ∧
  is_end_state (game Example.dealt) = false ∧
  ∃ st', new_trick "A" Example.dealt = Ok tt st' ∧
         is_end_state (game st') = false ∧ defender (game st') = Some 1 ∧
         attackers (game st') = [0].
Proof.
  split; [by vm_compute|]. split; [by vm_compute|].
  destruct (new_trick_living_players Example.dealt "A" 0 0) as [_ (st' & Hrun & Hcase)];
    [by vm_compute..|].
  exists st'. split; [done|]. exact Hcase.
Defined.
(** * The actions offered

    C6.  In the attack phase ['PassAttack'] is offered exactly when a
    pair is finished; when a pair is finished every offered attack has
    a value that lies on the table, in a finished pair or among the
    cards to defend; and an attack is offered only when the hand of the
    defender is not empty. *)
Theorem allowed_plays_attack_phase st acts :
  current_action (game st) = Phase.Attack →
  allowed_plays st = Val acts →
  let values_on_table :=
    values_in_pairs st ++ ((λ a, Card.value (card st a)) <$> cards_to_defend (game st)) in
  ((∃ w, (PassAttack, w) ∈ acts) ↔ pairs_finished (game st) ≠ []) ∧
  (pairs_finished (game st) ≠ [] →
   ∀ sv w, (Attack sv, w) ∈ acts → sv.2 ∈ values_on_table) ∧
  (∀ sv w, (Attack sv, w) ∈ acts →
   ∃ d, defender (game st) = Some d ∧ hand_of st d ≠ []).
Proof.
  intros Hphase Hal.
  destruct (allowed_plays_attack st acts Hphase Hal)
    as (attacker & d & _ & _ & Hd & ->).
  assert (Hlen : ∀ {A} (l : list A), 0 < length l ↔ l ≠ []).
  { intros A [|]; simpl; split; (done || lia). }
  split_and!.
  - split.
    + intros [w Hin]. apply elem_of_app in Hin as [Hin|Hin].
      * case_decide; [by apply Hlen|by apply elem_of_nil in Hin].
      * case_decide; [|by apply elem_of_nil in Hin].
        apply list_elem_of_fmap in Hin as (? & [=] & _).
    + intros Hne. exists None. apply elem_of_app. left.
      rewrite decide_True by by apply Hlen. by left.
  - intros Hne sv w Hin. apply Hlen in Hne.
    rewrite !(decide_True _ _ Hne) in Hin.
    apply elem_of_app in Hin as [Hin|Hin].
    { by apply list_elem_of_singleton in Hin. }
    case_decide; [|by apply elem_of_nil in Hin].
    apply list_elem_of_fmap in Hin as (sv' & [= -> ->] & Hin).
    apply list_elem_of_filter in Hin as [Hin _].
    apply elem_of_app. by left.
  - intros sv w Hin. exists d. split; [done|].
    apply elem_of_app in Hin as [Hin|Hin].
    { case_decide; [by apply list_elem_of_singleton in Hin|by apply elem_of_nil in Hin]. }
    case_decide; [by apply Hlen|by apply elem_of_nil in Hin].
Qed.

Lemma allowed_plays_attack_phase_witness :
  current_action (game Example.dealt) = Phase.Attack ∧
  ∃ acts, allowed_plays Example.dealt = Val acts ∧
    ((∃ w, (PassAttack, w) ∈ acts) ↔ pairs_finished (game Example.dealt) ≠ []).
Proof.
  split; [by vm_compute|].
  destruct (allowed_plays Example.dealt) as [acts|] eqn:Hal; [|by vm_compute in Hal].
  exists acts. split; [done|].
  apply (allowed_plays_attack_phase Example.dealt acts); [by vm_compute|exact Hal].
Defined.
(** C5.  In the defend phase, with [td] the first card to defend:
    ['Reflect'] of [(s, v)] is offered only when no pair is finished,
    [v] is the value of [td] and the new defender would hold at least
    [len(cards_to_defend) + 1] cards; ['ReflectTrump'] of [(s, v)] only
    when no pair is finished, [v] is that value, [s] is the trump suit
    (read from [td]), [(s, v)] was not shown before and the new
    defender would hold at least [len(cards_to_defend)] cards.
    Conversely every identity that a hand card of the player can take
    and that meets these conditions is offered as that action. *)
Theorem allowed_plays_defend_phase_reflect st acts :
  current_action (game st) = Phase.Defend →
  allowed_plays st = Val acts →
  ∃ to_defend player,
    cards_to_defend (game st) !! 0 = Some to_defend ∧
    player_to_play (game st) = Some player ∧
    let td := card st to_defend in
    (∀ sv w, (Reflect sv, w) ∈ acts →
       pairs_finished (game st) = [] ∧ sv.2 = Card.value td ∧ new_defender_fits st 1) ∧
    (∀ sv w, (ReflectTrump sv, w) ∈ acts →
       pairs_finished (game st) = [] ∧ sv.2 = Card.value td ∧
       sv.1 = Card.trump_suit td ∧ (sv ∉ reflected_trumps (game st)) ∧
       new_defender_fits st 0) ∧
    (∀ a sv, a ∈ hand_of st player → sv ∈ identities_of st player a →
       pairs_finished (game st) = [] → sv.2 = Card.value td →
       (new_defender_fits st 1 → ∃ w, (Reflect sv, Some w) ∈ acts) ∧
       (sv.1 = Card.trump_suit td → sv ∉ reflected_trumps (game st) →
        new_defender_fits st 0 → ∃ w, (ReflectTrump sv, Some w) ∈ acts)).
Proof.
  intros Hphase Hal.
  destruct (allowed_plays_defend st acts Hphase Hal)
    as (to_defend & player & opts & Htd & Hpl & Hscan & ->).
  exists to_defend, player. split_and!; [done..|]. simpl. split_and!.
  - intros sv w Hin. apply elem_of_app in Hin as [Hin|Hin];
      [|by apply list_elem_of_singleton in Hin].
    apply list_elem_of_fmap in Hin as ([k q] & [= <- ->] & Hin).
    assert (Reflect sv ∈ opts.*1) as Hk.
    { apply list_elem_of_fmap. by exists (Reflect sv, q). }
    apply (scan_hand_keys _ _ _ _ _ _ Hscan) in Hk as [Hk|(a & sv' & _ & _ & Hk)];
      [by apply elem_of_nil in Hk|].
    destruct Hk as [(r & Hr & Hk)|(d & Hd & Hk)].
    + apply reflect_options_Val in Hr as (Hr & _ & _).
      apply Hr in Hk as (-> & ? & ? & ?). done.
    + by apply (defend_options_Val _ _ _ _ Hd) in Hk.
  - intros sv w Hin. apply elem_of_app in Hin as [Hin|Hin];
      [|by apply list_elem_of_singleton in Hin].
    apply list_elem_of_fmap in Hin as ([k q] & [= <- ->] & Hin).
    assert (ReflectTrump sv ∈ opts.*1) as Hk.
    { apply list_elem_of_fmap. by exists (ReflectTrump sv, q). }
    apply (scan_hand_keys _ _ _ _ _ _ Hscan) in Hk as [Hk|(a & sv' & _ & _ & Hk)];
      [by apply elem_of_nil in Hk|].
    destruct Hk as [(r & Hr & Hk)|(d & Hd & Hk)].
    + apply reflect_options_Val in Hr as (_ & Hr & _).
      apply Hr in Hk as (-> & ? & ? & ? & ? & ?). done.
    + by apply (defend_options_Val _ _ _ _ Hd) in Hk.
  - intros a sv Ha Hsv Hp Hv.
    assert (Hopt : ∃ r, reflect_options st (card st to_defend) sv = Val r).
    { (* the scan of the hand returned, so it returned at this identity *)
      clear -Hscan Ha Hsv. revert Hscan. generalize (@nil (act * Q)).
      induction (hand_of st player) as [|a0 h IH]; intros opts0 Hscan;
        [by apply elem_of_nil in Ha|].
      simpl in Hscan. apply res_bind_Val in Hscan as ([reflect defend] & Hids & Hscan).
      apply elem_of_cons in Ha as [->|Ha]; [|by eapply IH].
      clear -Hids Hsv. revert Hids. generalize (@nil act) at 1. generalize (@nil act).
      induction (identities_of st player a0) as [|sv0 ids IH]; intros l1 l2 Hids;
        [by apply elem_of_nil in Hsv|].
      simpl in Hids. apply res_bind_Val in Hids as (r & Hr & Hids).
      apply res_bind_Val in Hids as (d & Hd & Hids).
      apply elem_of_cons in Hsv as [->|Hsv]; [by eexists|by eapply IH]. }
    destruct Hopt as [r Hr].
    pose proof (reflect_options_Val _ _ _ _ Hr) as (HR & HT & _).
    assert (Hkey : ∀ k, k ∈ r → ∃ w, (k, Some w) ∈
              ((λ kw : act * Q, (kw.1, Some kw.2)) <$> opts) ++ [(Take, Some (1 # 2)%Q)]).
    { intros k Hk.
      assert (k ∈ opts.*1) as Hin.
      { apply (scan_hand_keys _ _ _ _ _ _ Hscan). right. exists a, sv.
        split_and!; [done..|]. left. eauto. }
      apply list_elem_of_fmap in Hin as ([k' q] & -> & Hin). exists q.
      apply elem_of_app. left. apply list_elem_of_fmap. by exists (k', q). }
    split.
    + intros Hfit. apply Hkey, HR. done.
    + intros Hs Hnin Hfit. apply Hkey, HT. done.
Qed.

Lemma allowed_plays_defend_phase_reflect_witness :
  current_action (game Example.attacked) = Phase.Defend ∧
  ∃ acts, allowed_plays Example.attacked = Val acts ∧
    ∃ to_defend player,
      cards_to_defend (game Example.attacked) !! 0 = Some to_defend ∧
      player_to_play (game Example.attacked) = Some player ∧
      ∀ sv w, (Reflect sv, w) ∈ acts →
        pairs_finished (game Example.attacked) = [] ∧
        sv.2 = Card.value (card Example.attacked to_defend) ∧
        new_defender_fits Example.attacked 1.
Proof.
  split; [by vm_compute|].
  destruct (allowed_plays Example.attacked) as [acts|] eqn:Hal; [|by vm_compute in Hal].
  exists acts. split; [done|].
  destruct (allowed_plays_defend_phase_reflect Example.attacked acts)
    as (to_defend & player & Htd & Hpl & Hreflect & _); [by vm_compute|exact Hal|].
  exists to_defend, player. split; [exact Htd|]. split; [exact Hpl|]. exact Hreflect.
Defined.
(** C4.  In the throw phase let [bound] be the minimum of the room of
    the defender ([len(defender.hand) - len(cards_to_defend)]), the
    number of candidate throws and the hand size of the thrower.  Every
    offered throw is a tuple of candidates of size between 1 and
    [bound] that passes [can_throw]; every such tuple (in the order of
    the candidates) is offered; and the pass ['ThrowCards'] of [None]
    is always offered. *)
Theorem allowed_plays_throw_phase st acts :
  current_action (game st) = Phase.ThrowCards →
  allowed_plays st = Val acts →
  ∃ player d,
    player_to_play (game st) = Some player ∧
    defender (game st) = Some d ∧
    let values_on_table :=
      values_in_pairs st ++ ((λ a, Card.value (card st a)) <$> cards_to_defend (game st)) in
    let poss_throws :=
      filter (λ c, c.2 ∈ values_on_table)
             (possible_card_plays st player (get_non_public_cards st)) in
    let bound :=
      Z.min (Z.of_nat (length (hand_of st d)) - Z.of_nat (length (cards_to_defend (game st))))
            (Z.min (Z.of_nat (length poss_throws)) (Z.of_nat (length (hand_of st player)))) in
    (∀ option w, (ThrowCards (Some option), w) ∈ acts →
       (Z.of_nat (length option) ≤ bound)%Z ∧ 1 ≤ length option ∧
       option `sublist_of` poss_throws ∧
       can_throw st player (get_non_public_cards st) option = true) ∧
    (∀ option, option `sublist_of` poss_throws →
       1 ≤ length option → (Z.of_nat (length option) ≤ bound)%Z →
       can_throw st player (get_non_public_cards st) option = true →
       (ThrowCards (Some option), None) ∈ acts) ∧
    (ThrowCards None, None) ∈ acts.
Proof.
  intros Hphase Hal.
  destruct (allowed_plays_throw st acts Hphase Hal) as (player & d & Hpl & Hd & ->).
  exists player, d. split_and!; [done..|]. simpl. split_and!.
  - intros option w Hin. apply elem_of_cons in Hin as [[=]|Hin].
    apply list_elem_of_bind in Hin as (throw & Hin & Hthrow).
    apply list_elem_of_fmap in Hin as (o & [= -> ->] & Hin).
    apply list_elem_of_filter in Hin as [Hcan Hin].
    apply elem_of_combinations in Hin as [Hsub Hlen].
    apply elem_of_seq in Hthrow. split_and!; [lia|lia|done..].
  - intros option Hsub H1 Hle Hcan. right.
    apply list_elem_of_bind. exists (length option). split.
    + apply list_elem_of_fmap. exists option. split; [done|].
      apply list_elem_of_filter. split; [done|]. by apply elem_of_combinations.
    + apply elem_of_seq. lia.
  - by left.
Qed.

Lemma allowed_plays_throw_phase_witness :
  current_action (game Example.took) = Phase.ThrowCards ∧
  ∃ acts, allowed_plays Example.took = Val acts ∧ (ThrowCards None, None) ∈ acts.
Proof.
  split; [by vm_compute|].
  destruct (allowed_plays Example.took) as [acts|] eqn:Hal; [|by vm_compute in Hal].
  exists acts. split; [done|].
  destruct (allowed_plays_throw_phase Example.took acts)
    as (player & d & _ & _ & _ & _ & Hpass); [by vm_compute|exact Hal|].
  exact Hpass.
Defined.
(** * The end of a throw round

    C7.  Suppose that, in ['ThrowCards'], after the history was
    extended, the cards were thrown and the rotation advanced (state
    [st1], player [p]), the player to play is again
    [attackers[attacker_to_start_throwing]].  Then the action is the
    following: the defender's hand is extended by the whole table (the
    cards of the finished pairs and the cards to defend), every player
    of [draw_order] fills the hand from the deck in that order, and
    [new_trick] is called with the name of the second attacker,
    [attackers[1 % len(attackers)]].  Every card of the table ends in
    the hand of the defender. *)
Theorem throw_cards_round_closes_trick st throw w p st1 start d :
  (modify (upd_game (λ g, set_history (history g ++ [(ThrowCards throw, w)]) g)) ;;
   throw_cards throw ;; next_attacker) st = Ok p st1 →
  attacker_to_start_throwing (game st1) = Some start →
  attackers (game st1) !! start = Some p →
  defender (game st1) = Some d →
  d < length (persons st1) →
  let table := flatten_pairs (pairs_finished (game st1)) ++ cards_to_defend (game st1) in
  let taken := set_hand d (hand_of st1 d ++ table) st1 in
  let refilled := foldl (λ s q, fill q s) taken (draw_order (game st1)) in
  ∃ second,
    attackers (game st1) !! (1 mod length (attackers (game st1))) = Some second ∧
    hand_of taken d = hand_of st1 d ++ table ∧
    execute_action (ThrowCards throw, w) st = new_trick (name (person st1 second)) refilled ∧
    ∀ c, c ∈ table → c ∈ hand_of (state_of (execute_action (ThrowCards throw, w) st)) d.
Proof.
  intros Hrun Hstart Hp Hd Hvalid table taken refilled.
  assert (Hlen : 1 mod length (attackers (game st1)) < length (attackers (game st1))).
  { apply Nat.mod_upper_bound. apply lookup_lt_Some in Hp. lia. }
  destruct (lookup_lt_is_Some_2 _ _ Hlen) as [second Hsecond].
  exists second.
  assert (Hexec : execute_action (ThrowCards throw, w) st
                  = new_trick (name (person st1 second)) refilled).
  { unfold execute_action. cbn [fst].
    apply bind_Ok in Hrun as ([] & st0 & Hhist & Hrun).
    unfold mbind at 1, M_bind at 1. rewrite Hhist.
    apply bind_Ok in Hrun as ([] & st0' & Hthrow & Hrun).
    unfold mbind at 1, M_bind at 1. rewrite Hthrow.
    unfold mbind at 1, M_bind at 1. rewrite Hrun.
    unfold mbind at 1, M_bind at 1, get_state at 1. rewrite Hstart.
    unfold mbind at 1, M_bind at 1, lift at 1, index at 1. rewrite Hp.
    rewrite decide_True by done.
    unfold take_and_close.
    unfold mbind at 1, M_bind at 1, get_state at 1.
    unfold mbind at 1, M_bind at 1, lift at 1. rewrite Hd. simpl deref. cbv iota.
    unfold mbind at 1, M_bind at 1, modify at 1.
    unfold mbind at 1, M_bind at 1. rewrite refill_spec.
    unfold mbind at 1, M_bind at 1, lift at 1, py_mod at 1.
    rewrite decide_False by lia.
    unfold mbind at 1, M_bind at 1, lift at 1, index at 1. rewrite Hsecond.
    unfold mbind at 1, M_bind at 1, get_state at 1.
    fold table. fold taken. change (draw_order (game taken)) with (draw_order (game st1)).
    fold refilled. f_equal.
    unfold refilled. rewrite (proj1 (refilled_facts _ _ _)).
    apply name_set_hand. }
  split_and!; [done|by apply hand_of_set_hand_eq|done|].
  intros c Hc. rewrite Hexec.
  unfold hand_of, person. rewrite (proj1 (new_trick_persons _ _)).
  destruct (refilled_facts (draw_order (game st1)) taken d) as (_ & Hpre & _).
  fold (person refilled d). fold (hand_of refilled d).
  eapply elem_of_prefix; [|done]. unfold taken.
  rewrite hand_of_set_hand_eq by done. apply elem_of_app. by right.
Qed.

Lemma throw_cards_round_closes_trick_witness :
  attacker_to_start_throwing (game Example.thrown) = Some 0 ∧
  attackers (game Example.thrown) !! 0 = Some 0 ∧
  defender (game Example.thrown) = Some 1 ∧
  ∀ c, c ∈ flatten_pairs (pairs_finished (game Example.thrown))
           ++ cards_to_defend (game Example.thrown) →
       c ∈ hand_of (state_of (execute_action Example.no_throw Example.took)) 1.
Proof.
  split_and!; [by vm_compute..|].
  destruct (throw_cards_round_closes_trick Example.took None None 0 Example.thrown 0 1)
    as (second & _ & _ & _ & Htaken); [by vm_compute..|vm_compute; lia|].
  exact Htaken.
Defined.
(** * Enumerate, then execute *)

(** C1.  In every reachable game state that is not terminal, every
    action that [allowed_plays] returns is executed by [execute_action]
    on that state without an exception.  In particular [discard_card]
    finds a hand card for the payload of an attack, a defence or a
    reflection (with or without removing it), and the loop of a throw
    discards every card of a tuple that passed [can_throw]: the thrown
    cards leave the hand of the player to play and join
    [cards_to_defend]. *)
Theorem allowed_plays_execute st acts a :
  reachable st → is_end_state (game st) = false →
  allowed_plays st = Val acts → a ∈ acts →
  (∃ st', execute_action a st = Ok tt st') ∧
  (∀ sv remove, a.1 ∈ [Attack sv; Defend sv; Reflect sv; ReflectTrump sv] →
     ∃ p c st1,
       player_to_play (game st) = Some p ∧
       (a.1 = Reflect sv → defender (game st) = Some p) ∧
       discard_card p sv remove st = Ok c st1 ∧ c ∈ hand_of st p) ∧
  (∀ cs, a.1 = ThrowCards (Some cs) →
     ∃ p st1 thrown,
       player_to_play (game st) = Some p ∧
       can_throw st p (get_non_public_cards st) cs = true ∧
       throw_cards (Some cs) st = Ok tt st1 ∧
       length thrown = length cs ∧
       hand_of st p ≡ₚ thrown ++ hand_of st1 p ∧
       cards_to_defend (game st1) = cards_to_defend (game st) ++ thrown).
Proof.
  intros Hreach Hend Hal Hin. apply reachable_invariant in Hreach as Hinv.
  split_and!.
  - destruct (step_invariant st acts a Hinv Hend Hal Hin) as (st' & Hex & _). eauto.
  - intros sv remove Hkind. by eapply allowed_card_found.
  - intros cs Hkind. by eapply allowed_throw_found.
Qed.

Lemma allowed_plays_execute_witness :
  reachable Example.attacked ∧
  ∃ st', execute_action Example.defend Example.attacked = Ok tt st'.
Proof.
  split; [apply attacked_reachable|].
  eapply (allowed_plays_execute Example.attacked _ Example.defend).
  - apply attacked_reachable.
  - by vm_compute.
  - by vm_compute.
  - apply (bool_decide_unpack _). by vm_compute.
Defined.
(** * The cards in play *)

Lemma remove_dups_NoDup {A} `{EqDecision A} (l : list A) : NoDup l → remove_dups l = l.
Proof.
  induction 1 as [|x l Hx _ IH]; [done|]. simpl.
  destruct (decide_rel elem_of x l); [done|]. by rewrite IH.
Qed.

(** C3, as stated, fails.  In the example game B has beaten the attack
    and A passes: the trick closes, the beaten pair leaves the table for
    good, and 34 cards remain across the deck, the hands,
    [cards_to_defend] and [pairs_finished]. *)
Lemma closing_pass_discards_pair :
  reachable Example.defended ∧
  is_end_state (game Example.defended) = false ∧
  (∃ acts, allowed_plays Example.defended = Val acts ∧ Example.pass ∈ acts) ∧
  execute_action Example.pass Example.defended = Ok tt Example.closed ∧
  cards_in_play Example.defended = 36 ∧
  cards_in_play Example.closed = 34 ∧
  cards_in_play Example.closed ≠ 36.
Proof.
  split_and!.
  - apply defended_reachable.
  - by vm_compute.
  - eexists. split; [by vm_compute|]. apply (bool_decide_unpack _). by vm_compute.
  - by vm_compute.
  - by vm_compute.
  - by vm_compute.
  - by vm_compute.
Qed.

(** C3, amended.  After every [execute_action] of an allowed action on
    a reachable state that is not terminal, the cards across the deck,
    the hands, [cards_to_defend] and the flattened [pairs_finished] are
    distinct physical cards of the 36-card collection, hence at most
    36; they are the cards that were there before the action, except
    that a ['PassAttack'] which closes the trick removes the finished
    pairs.  So the count is kept by every other action, and it is 36
    as long as no trick was closed by a pass. *)
Theorem cards_in_play_conserved st acts a st' :
  reachable st → is_end_state (game st) = false →
  allowed_plays st = Val acts → a ∈ acts →
  execute_action a st = Ok tt st' →
  NoDup (in_play st') ∧
  in_play st' ⊆ card_collection (game st') ∧
  NoDup (card_collection (game st')) ∧
  length (card_collection (game st')) = 36 ∧
  cards_in_play st' ≤ 36 ∧
  in_play st' ++ leaving_play st a st' ≡ₚ in_play st ∧
  cards_in_play st' + length (leaving_play st a st') = cards_in_play st.
Proof.
  intros Hreach Hend Hal Hin Hex. apply reachable_invariant in Hreach as Hinv.
  destruct (step_invariant st acts a Hinv Hend Hal Hin)
    as (st'' & Hex' & [Hc' _] & Hperm).
  rewrite Hex in Hex'. injection Hex' as <-.
  destruct Hinv as [Hc _].
  assert (Hcount : ∀ s, cards_ok s → cards_in_play s = length (in_play s)).
  { intros s Hs. unfold cards_in_play.
    by rewrite (remove_dups_NoDup _ (in_play_distinct _ Hs)). }
  split_and!; try apply Hc'; try done.
  - rewrite (Hcount _ Hc'), <- (collection_size _ Hc').
    apply submseteq_length, NoDup_submseteq; apply Hc'.
  - rewrite (Hcount _ Hc'), (Hcount _ Hc), <- Hperm, length_app. done.
Qed.

Lemma cards_in_play_conserved_witness :
  reachable Example.defended ∧
  cards_in_play Example.closed + length (leaving_play Example.defended Example.pass Example.closed)
    = cards_in_play Example.defended.
Proof.
  split; [apply defended_reachable|].
  eapply (cards_in_play_conserved Example.defended _ Example.pass Example.closed).
  - apply defended_reachable.
  - by vm_compute.
  - by vm_compute.
  - apply (bool_decide_unpack _). by vm_compute.
  - by vm_compute.
Defined.
(** * Snapshots *)

(** C2.  Let [S] be a game of the world and [T = S.make_deepcopy()].
    Whatever sequence of actions is applied to [T] with
    [execute_action], whether they return or raise, the game object [S]
    keeps every attribute (its history, deck, [cards_to_defend],
    [pairs_finished] and all the others), every player object that
    existed when the copy was made is as it was (so the hands of the
    players of [S]), and so is every card object that existed then (so
    no field of a card reachable from [S] is written). *)
Theorem make_deepcopy_independent w S T w1 acts :
  S < length (w_games w) →
  snapshot S w = Some (T, w1) →
  let w' := foldl (execute_on T) w1 acts in
  w_games w' !! S = w_games w !! S ∧
  (∀ p, p < length (w_persons w) → w_persons w' !! p = w_persons w !! p) ∧
  (∀ a, a < length (w_cards w) → w_cards w' !! a = w_cards w !! a).
Proof.
  intros HS Hsnap. unfold snapshot in Hsnap.
  destruct (make_deepcopy (enter S w)) as [Tg st1|] eqn:Hcopy; [|done].
  injection Hsnap as <- <-.
  apply make_deepcopy_spec in Hcopy as ((Hg & Hag & _ & _) & Hown & Hconf).
  simpl in Hg, Hag, Hown, Hconf.
  assert (Hgames : <[S := game st1]> (w_games w) = w_games w).
  { rewrite Hg. apply list_insert_id. by apply list_lookup_lookup_total_lt. }
  unfold leave. simpl. rewrite Hgames.
  set (w1 := mkWorld (cards st1) (persons st1) (w_games w ++ [Tg])).
  assert (Henter : enter (length (w_games w)) w1
                   = mkState (cards st1) (persons st1) Tg).
  { unfold enter, w1. simpl. by rewrite (list_lookup_total_middle _ []). }
  set (w' := foldl (execute_on (length (w_games w))) w1 acts).
  destruct (execute_on_frame (players Tg) (length (w_persons w)) (length (w_cards w))
              S (length (w_games w)) acts w1 Hown) as [Hsame Hag'].
  { lia. }
  { unfold w1. simpl. rewrite length_app. simpl. lia. }
  { by rewrite Henter. }
  fold w' in Hsame, Hag'. rewrite Henter in Hag'.
  apply agree_lookup in Hag as [Hp Hc]. apply agree_lookup in Hag' as [Hp' Hc'].
  split_and!.
  - rewrite Hsame. unfold w1. simpl. by rewrite lookup_app_l.
  - intros p Hlt. etrans; [apply (Hp' p Hlt)|apply (Hp p Hlt)].
  - intros a Hlt. etrans; [apply (Hc' a Hlt)|apply (Hc a Hlt)].
Qed.

Lemma make_deepcopy_independent_witness :
  ∃ T w1,
    snapshot 0 Example.world = Some (T, w1) ∧
    let w' := foldl (execute_on T) w1 [Example.attack; Example.defend; Example.pass] in
    w_games w' !! 0 = w_games Example.world !! 0.
Proof.
  destruct (snapshot 0 Example.world) as [[T w1]|] eqn:Hsnap; [|by vm_compute in Hsnap].
  exists T, w1. split; [done|].
  eapply (make_deepcopy_independent Example.world 0 T w1); [simpl; lia|exact Hsnap].
Defined.
(** * Further properties of the engine *)

(** X1.  In every state a game goes through, the players are distinct
    player objects; the deck, the hands, [cards_to_defend] and the
    finished pairs hold pairwise distinct card objects, all of them
    among the 36 distinct cards of [card_collection].  While the game
    has not ended, [current_attacker] indexes [attackers], the
    attackers, the draw order, the defender and the player to play are
    players of the game, nothing awaits defence in the attack phase,
    the defender is the player to play in the defend phase, and
    [attacker_to_start_throwing] indexes [attackers] in the throw
    phase. *)
Theorem reachable_state_well_formed st :
  reachable st →
  NoDup (players (game st)) ∧
  (∀ p, p ∈ players (game st) → p < length (persons st)) ∧
  NoDup (deck (game st) ++ hands st (players (game st)) ++
         cards_to_defend (game st) ++ flatten_pairs (pairs_finished (game st))) ∧
  in_play st ⊆ card_collection (game st) ∧
  NoDup (card_collection (game st)) ∧
  length (card_collection (game st)) = 36 ∧
  (is_end_state (game st) = false →
   let g := game st in
   current_attacker g < length (attackers g) ∧
   attackers g ⊆ players g ∧
   draw_order g ⊆ players g ∧
   (∃ d, defender g = Some d ∧ d ∈ players g) ∧
   (∃ p, player_to_play g = Some p ∧ p ∈ players g) ∧
   (current_action g = Phase.Attack → cards_to_defend g = []) ∧
   (current_action g = Phase.Defend → player_to_play g = defender g) ∧
   (current_action g = Phase.ThrowCards →
    ∃ start, attacker_to_start_throwing g = Some start ∧ start < length (attackers g))).
Proof.
  intros [Hc Hs]%reachable_invariant. split_and!; try apply Hc.
  intros Hend. specialize (Hs Hend). simpl. split_and!; apply Hs.
Qed.

Lemma reachable_state_well_formed_witness :
  reachable Example.defended ∧
  NoDup (players (game Example.defended)) ∧
  length (card_collection (game Example.defended)) = 36.
Proof.
  split; [apply defended_reachable|].
  destruct (reachable_state_well_formed Example.defended defended_reachable)
    as (Hplayers & _ & _ & _ & _ & Hsize & _).
  split; [exact Hplayers|exact Hsize].
Defined.

(** X2.  [fill_hand] never raises.  It moves cards from the top of the
    deck to the end of the hand, in order, so that the hand followed by
    the returned deck is the old hand followed by the old deck; it stops
    at six cards or when the deck is empty, and a hand of six or more
    cards draws nothing.  Other hands, the cards and the game are left
    alone. *)
Theorem fill_hand_draws_from_top p deck st :
  p < length (persons st) →
  ∃ deck' st',
    fill_hand p deck st = Ok deck' st' ∧
    hand_of st' p ++ deck' = hand_of st p ++ deck ∧
    length (hand_of st' p)
      = length (hand_of st p) `max` (6 `min` (length (hand_of st p) + length deck)) ∧
    (6 ≤ length (hand_of st p) → deck' = deck ∧ hand_of st' p = hand_of st p) ∧
    (∀ q, q ≠ p → hand_of st' q = hand_of st q) ∧
    name (person st' p) = name (person st p) ∧
    cards st' = cards st ∧ game st' = game st.
Proof.
  intros Hp. rewrite fill_hand_spec.
  set (n := (6 - length (hand_of st p)) `min` length deck).
  eexists _, _. split; [done|].
  rewrite hand_of_set_hand_eq by done. split_and!.
  - by rewrite <- app_assoc, take_drop.
  - rewrite length_app, length_take. lia.
  - intros H6. replace n with 0 by lia. by rewrite drop_0, take_0, app_nil_r.
  - intros q Hq. by rewrite hand_of_set_hand_ne.
  - apply name_set_hand.
  - done.
  - done.
Qed.

Lemma fill_hand_draws_from_top_witness :
  ∃ deck' st',
    fill_hand 0 (deck (game Example.defended)) Example.defended = Ok deck' st' ∧
    hand_of st' 0 ++ deck' = hand_of Example.defended 0 ++ deck (game Example.defended).
Proof.
  destruct (fill_hand_draws_from_top 0 (deck (game Example.defended)) Example.defended)
    as (deck' & st' & Hrun & Happ & _); [vm_compute; lia|].
  exists deck', st'. split; [exact Hrun|exact Happ].
Defined.

(** The loop of [discard_card] finds no card exactly when no hand card
    can carry the identity. *)
Lemma discard_finds_none st p sv :
  sv ∉ possible_card_plays st p (get_non_public_cards st) →
  list_find (discardable st (hand_of st p) sv) (hand_of st p) = None.
Proof.
  intros Hnot. apply list_find_None, Forall_forall. intros a Ha Hdis. apply Hnot.
  apply possible_card_plays_elem. exists a. split; [done|].
  unfold discardable in Hdis. unfold carries.
  destruct (Card.is_unknown (card st a)).
  - left. split; [done|apply Hdis].
  - right. split; [done|]. unfold Card.identity. destruct Hdis as [-> ->]. by destruct sv.
Qed.

(** X3.  [discard_card] returns exactly for the identities that
    [possible_card_plays] lists for the non-public cards of the game;
    for any other identity it raises [BaseException] and changes
    nothing.  When it returns, the card is the first hand card that can
    carry the identity; that card is afterwards known and public, not
    private, and carries the identity; no other card is written, the
    game is untouched, and with [remove] the hand loses that one
    position (without [remove] no hand changes). *)
Theorem discard_card_possible_plays p sv remove st :
  (sv ∈ possible_card_plays st p (get_non_public_cards st) →
   ∃ idx c st',
     discard_card p sv remove st = Ok c st' ∧
     hand_of st p !! idx = Some c ∧
     game st' = game st ∧
     (∀ b, b ≠ c → card st' b = card st b) ∧
     (c < length (cards st) →
      Card.identity (card st' c) = sv ∧ Card.is_unknown (card st' c) = false ∧
      Card.is_public (card st' c) = true ∧ Card.is_private (card st' c) = false ∧
      Card.trump_suit (card st' c) = Card.trump_suit (card st c)) ∧
     (∀ q, q ≠ p → hand_of st' q = hand_of st q) ∧
     (p < length (persons st) →
      hand_of st' p = if remove then delete idx (hand_of st p) else hand_of st p)) ∧
  (sv ∉ possible_card_plays st p (get_non_public_cards st) →
   discard_card p sv remove st = Raise BaseException st).
Proof.
  split.
  - intros (a0 & Ha0 & Hcar)%possible_card_plays_elem.
    destruct (discard_finds st p sv a0 Ha0 Hcar) as [[idx c] Hfind].
    destruct (discard_card_found p sv remove st idx c Hfind) as (st' & Hrun & Hg & Hc & Hp).
    apply list_find_Some in Hfind as (Hidx & Hdis & _).
    exists idx, c, st'. split_and!; try done.
    + intros b Hb. by eapply card_insert.
    + intros Hlt. unfold card at 1 2 3 4 5. rewrite Hc.
      rewrite list_lookup_total_insert_eq by done.
      split_and!; [by eapply played_identity|done..|].
      unfold played. by destruct (Card.is_unknown (card st c)).
    + intros q Hq. unfold hand_of, person. rewrite Hp. destruct remove; [|done].
      by rewrite list_lookup_total_insert_ne.
    + intros Hlt. unfold hand_of at 1, person. rewrite Hp. destruct remove; [|done].
      by rewrite list_lookup_total_insert_eq.
  - intros Hnot. unfold discard_card. by rewrite discard_finds_none.
Qed.

Lemma discard_card_possible_plays_witness :
  (Some 1, Some 0) ∈ possible_card_plays Example.dealt 0 (get_non_public_cards Example.dealt) ∧
  ∃ c st', discard_card 0 (Some 1, Some 0) true Example.dealt = Ok c st' ∧
           game st' = game Example.dealt.
Proof.
  assert (H : (Some 1, Some 0)
              ∈ possible_card_plays Example.dealt 0 (get_non_public_cards Example.dealt)).
  { apply (bool_decide_unpack _). by vm_compute. }
  split; [exact H|].
  destruct (discard_card_possible_plays 0 (Some 1, Some 0) true Example.dealt) as [Hyes _].
  destruct (Hyes H) as (idx & c & st' & Hrun & _ & Hg & _).
  exists c, st'. split; [exact Hrun|exact Hg].
Defined.
(** ** Binding the cards of a hand *)

Lemma unknown_not_known st sv b :
  sv ∈ get_unknown_cards st → b ∈ card_collection (game st) →
  Card.is_unknown (card st b) = false → Card.identity (card st b) ≠ sv.
Proof.
  intros [_ Hnot]%list_elem_of_difference Hb Hknown Heq. apply Hnot.
  apply list_elem_of_fmap. exists (card st b). split; [done|].
  apply list_elem_of_filter. split; [done|].
  apply list_elem_of_fmap. by exists b.
Qed.

Lemma non_public_not_public st sv b :
  sv ∈ get_non_public_cards st → b ∈ card_collection (game st) →
  Card.is_public (card st b) = true → Card.identity (card st b) ≠ sv.
Proof.
  intros [_ Hnot]%list_elem_of_difference Hb Hpublic Heq. apply Hnot.
  apply list_elem_of_fmap. exists (card st b). split; [done|].
  apply list_elem_of_filter. split; [done|].
  apply list_elem_of_fmap. by exists b.
Qed.

Lemma choice_elem {A} r (l : list A) x : choice r l = Val x → x ∈ l.
Proof. apply index_elem. Qed.

Lemma make_cards_known_loop_spec rnd h : ∀ i st st',
  make_cards_known_loop rnd i h st = Ok tt st' →
  persons st' = persons st ∧ game st' = game st ∧
  length (cards st') = length (cards st) ∧
  (∀ a, Card.is_unknown (card st a) = false → card st' a = card st a) ∧
  (∀ a, a ∉ h → card st' a = card st a) ∧
  (∀ a, a ∈ h → a < length (cards st) → Card.is_unknown (card st' a) = false) ∧
  (∀ a, Card.is_unknown (card st a) = true → Card.is_unknown (card st' a) = false →
        Card.identity (card st' a) ∈ all_cards ∧
        Card.is_private (card st' a) = true ∧
        Card.is_public (card st' a) = Card.is_public (card st a) ∧
        Card.trump_suit (card st' a) = Card.trump_suit (card st a)) ∧
  (∀ a b, a ∈ card_collection (game st) → b ∈ card_collection (game st) → a ≠ b →
        Card.is_unknown (card st a) = true →
        Card.is_unknown (card st' a) = false → Card.is_unknown (card st' b) = false →
        Card.identity (card st' a) ≠ Card.identity (card st' b)).
Proof.
  induction h as [|a0 h IH]; intros i st st' Hrun.
  - injection Hrun as <-. split_and!; try done.
    + intros a Ha. by apply elem_of_nil in Ha.
    + intros a Hu Hk. congruence.
    + intros a b _ _ _ Hu Hk. congruence.
  - simpl in Hrun. apply bind_Ok in Hrun as (s & s0 & [= <- <-] & Hrun).
    apply bind_Ok in Hrun as ([] & st1 & Hhead & Hrun).
    apply IH in Hrun as (Hp & Hg & Hl & Hkeep & Hout & Hin & Hnew & Hdiff).
    destruct (Card.is_unknown (card st a0)) eqn:Hu0.
    + (* the card is bound *)
      apply bind_Ok in Hhead as (sv & s & [Hsv ->]%lift_Ok & Hhead).
      apply bind_Ok in Hhead as (bound & s & [Hbound ->]%lift_Ok & Hhead).
      apply modify_Ok in Hhead. apply choice_elem in Hsv.
      apply from_suit_value_Val in Hbound as [_ ->].
      assert (Hsame : ∀ b, b ≠ a0 → card st1 b = card st b).
      { intros b Hb. rewrite Hhead. by apply card_set_card_ne. }
      assert (Hg1 : game st1 = game st) by by rewrite Hhead.
      assert (Hl1 : length (cards st1) = length (cards st)).
      { rewrite Hhead. apply length_cards_set_card. }
      assert (Hat : a0 < length (cards st) →
                card st1 a0 = Card.mk sv.1 sv.2 (Card.trump_suit (card st a0))
                                (Card.is_public (card st a0)) true false).
      { intros Hlt. rewrite Hhead. by rewrite card_set_card_eq. }
      assert (Hge : ¬ a0 < length (cards st) → st1 = st).
      { intros Hge. rewrite Hhead. unfold set_card. rewrite list_insert_ge by lia.
        by destruct st. }
      split_and!.
      * by rewrite Hp, Hhead.
      * by rewrite Hg.
      * by rewrite Hl.
      * intros a Ha. assert (a ≠ a0) by congruence.
        rewrite Hkeep; rewrite Hsame; done.
      * intros a Ha. apply not_elem_of_cons in Ha as [Hne Ha].
        by rewrite Hout, Hsame.
      * intros a Ha Hlt. apply elem_of_cons in Ha as [->|Ha].
        -- by rewrite Hkeep; rewrite Hat.
        -- apply Hin; [done|by rewrite Hl1].
      * intros a Hua Hka. destruct (decide (a = a0)) as [->|Hne].
        -- destruct (decide (a0 < length (cards st))) as [Hlt|Hge'].
           ++ rewrite Hkeep by by rewrite Hat. rewrite Hat by done.
              split_and!; try done. unfold Card.identity. simpl.
              apply list_elem_of_difference in Hsv as [Hsv _]. by destruct sv.
           ++ pose proof (Hge Hge') as Heq. rewrite Heq in Hnew. by apply Hnew.
        -- rewrite <- (Hsame a Hne) in Hua. rewrite <- (Hsame a Hne).
           by apply Hnew.
      * intros a b Ha Hb Hab Hua Hka Hkb. rewrite <- Hg1 in Ha, Hb.
        destruct (decide (a = a0)) as [->|Hne].
        -- destruct (decide (a0 < length (cards st))) as [Hlt|Hge'];
             [|pose proof (Hge Hge') as Heq; rewrite Heq in Hdiff, Ha, Hb; by apply Hdiff].
           destruct (Card.is_unknown (card st1 b)) eqn:Hub.
           ++ apply not_eq_sym. by apply Hdiff.
           ++ rewrite (Hkeep a0) by by rewrite Hat. rewrite (Hkeep b) by done.
              rewrite Hat by done. rewrite Hsame in * by done.
              rewrite Hg1 in Hb. intros Heq.
              apply (unknown_not_known st sv b Hsv Hb Hub). rewrite <- Heq.
              unfold Card.identity. simpl. by destruct sv.
        -- apply Hdiff; try done. by rewrite Hsame.
    + (* the card is known already *)
      injection Hhead as <-. split_and!; try done.
      * intros a Ha. apply not_elem_of_cons in Ha as [_ Ha]. by apply Hout.
      * intros a Ha Hlt. apply elem_of_cons in Ha as [->|Ha]; [|by apply Hin].
        by rewrite Hkeep.
Qed.

(** X4.  When the computer shuffles and [make_cards_known] returns,
    every card of the player's hand is known.  Only cards of the hand
    that were unknown are written: each gets an identity of the 36,
    becomes private, and keeps [is_public] and [trump_suit]; the hands
    and the game are untouched.  A card of the collection is never
    bound to an identity that another known card of the collection
    carries afterwards, so binding introduces no duplicate card. *)
Theorem make_cards_known_binds_hand p rnd st st' :
  computer_shuffle (game st) = true →
  make_cards_known p rnd st = Ok tt st' →
  persons st' = persons st ∧ game st' = game st ∧
  length (cards st') = length (cards st) ∧
  (∀ a, a ∈ hand_of st p → a < length (cards st) → Card.is_unknown (card st' a) = false) ∧
  (∀ a, Card.is_unknown (card st a) = false → card st' a = card st a) ∧
  (∀ a, a ∉ hand_of st p → card st' a = card st a) ∧
  (∀ a, Card.is_unknown (card st a) = true → Card.is_unknown (card st' a) = false →
        Card.identity (card st' a) ∈ all_cards ∧
        Card.is_private (card st' a) = true ∧
        Card.is_public (card st' a) = Card.is_public (card st a) ∧
        Card.trump_suit (card st' a) = Card.trump_suit (card st a)) ∧
  (∀ a b, a ∈ card_collection (game st) → b ∈ card_collection (game st) → a ≠ b →
        Card.is_unknown (card st a) = true →
        Card.is_unknown (card st' a) = false → Card.is_unknown (card st' b) = false →
        Card.identity (card st' a) ≠ Card.identity (card st' b)).
Proof.
  intros _ Hrun. unfold make_cards_known in Hrun.
  apply bind_Ok in Hrun as (s & s0 & [= <- <-] & Hrun).
  apply make_cards_known_loop_spec in Hrun
    as (Hp & Hg & Hl & Hkeep & Hout & Hin & Hnew & Hdiff).
  split_and!; done.
Qed.

Lemma make_cards_known_binds_hand_witness :
  computer_shuffle (game Example.dealt) = true ∧
  ∃ st', make_cards_known 0 Example.rnd0 Example.dealt = Ok tt st' ∧
         ∀ a, a ∈ hand_of Example.dealt 0 → a < length (cards Example.dealt) →
              Card.is_unknown (card st' a) = false.
Proof.
  split; [by vm_compute|].
  destruct (make_cards_known 0 Example.rnd0 Example.dealt) as [[] st'|] eqn:Hrun;
    [|by vm_compute in Hrun].
  exists st'. split; [reflexivity|].
  destruct (make_cards_known_binds_hand 0 Example.rnd0 Example.dealt st')
    as (_ & _ & _ & Hknown & _); [by vm_compute|exact Hrun|exact Hknown].
Defined.
(** ** Determinizing a hand *)

Lemma publish_known_cards h : ∀ st,
  ∃ st1, publish_known h st = Ok tt st1 ∧
    persons st1 = persons st ∧ game st1 = game st ∧
    length (cards st1) = length (cards st) ∧
    ∀ b, card st1 b =
         if decide (b ∈ h ∧ Card.is_unknown (card st b) = false)
         then Card.set_is_public true (Card.set_is_private false (card st b))
         else card st b.
Proof.
  unfold publish_known.
  induction h as [|a h IH]; intros st.
  - exists st. split_and!; done.
  - unfold for_each; fold (@for_each nat).
    unfold mbind at 1, M_bind at 1. unfold mbind at 1, M_bind at 1, get_state at 1.
    destruct (Card.is_unknown (card st a)) eqn:Hu.
    + simpl. destruct (IH st) as (st1 & Hrun & Hp & Hg & Hl & Hc).
      exists st1. split_and!; try done. intros b. rewrite Hc.
      destruct (decide (b = a)) as [->|Hne].
      * rewrite !decide_False; [done|intros [_ ?]; congruence..].
      * apply decide_ext. rewrite elem_of_cons. tauto.
    + unfold modify at 1.
      set (st0 := upd_card a (λ c, Card.set_is_public true (Card.set_is_private false c)) st).
      destruct (IH st0) as (st1 & Hrun & Hp & Hg & Hl & Hc).
      exists st1. split_and!; try done.
      { rewrite Hl. apply length_cards_set_card. }
      intros b. rewrite Hc. unfold st0, upd_card. rewrite !card_set_card.
      assert (Hout : ¬ a < length (cards st) → False).
      { intros Hge. unfold card in Hu.
        rewrite list_lookup_total_alt, lookup_ge_None_2 in Hu; [done|lia]. }
      assert (Hidem : ∀ c, Card.set_is_public true (Card.set_is_private false
                             (Card.set_is_public true (Card.set_is_private false c)))
                           = Card.set_is_public true (Card.set_is_private false c))
        by by intros [].
      destruct (decide (a = b ∧ a < length (cards st))) as [[-> Hlt]|Hnot].
      * simpl. rewrite Hu. rewrite Hidem.
        rewrite (decide_True (P := b ∈ b :: h ∧ _)) by (split; [left|done]).
        by case_decide.
      * assert (Hne : b ≠ a).
        { intros ->. destruct (decide (a < length (cards st))); [by destruct Hnot|auto]. }
        apply decide_ext. rewrite elem_of_cons. tauto.
Qed.

Lemma pop_random_NoDup {A} r (l : list A) x l' :
  NoDup l → pop_random r l = Val (x, l') → NoDup l' ∧ x ∉ l'.
Proof.
  intros Hnd. unfold pop_random. destruct l as [|x0 l0] eqn:E; [done|]. rewrite <- E in *.
  clear E. unfold index. destruct (l !! (r mod length l)) as [y|] eqn:Hl; [|done].
  intros [= <- <-]. split.
  - eapply sublist_NoDup; [done|apply sublist_delete].
  - by apply NoDup_delete_lookup.
Qed.

(** The second loop of [determinize_hand] on distinct cards. *)
Lemma bind_unknown_distinct rnd cs : ∀ i unknown st st',
  NoDup unknown → NoDup cs → (∀ a, a ∈ cs → a < length (cards st)) →
  bind_unknown rnd i unknown cs st = Ok tt st' →
  persons st' = persons st ∧ game st' = game st ∧
  length (cards st') = length (cards st) ∧
  (∀ a, a ∉ cs → card st' a = card st a) ∧
  (∀ a, a ∈ cs →
     Card.is_unknown (card st a) = true ∧
     Card.is_unknown (card st' a) = false ∧
     Card.identity (card st' a) ∈ unknown ∧
     Card.is_public (card st' a) = true ∧
     Card.is_private (card st' a) = Card.is_private (card st a) ∧
     Card.trump_suit (card st' a) = Card.trump_suit (card st a)) ∧
  (∀ a b, a ∈ cs → b ∈ cs → a ≠ b →
     Card.identity (card st' a) ≠ Card.identity (card st' b)).
Proof.
  induction cs as [|a0 cs IH]; intros i unknown st st' Hndu Hnd Hvalid Hrun.
  - injection Hrun as <-. split_and!; try done.
    + intros a Ha. by apply elem_of_nil in Ha.
    + intros a b Ha. by apply elem_of_nil in Ha.
  - simpl in Hrun.
    apply bind_Ok in Hrun as ([sv unknown'] & s & [Hpop ->]%lift_Ok & Hrun).
    apply bind_Ok in Hrun as (s & s0 & [= <- <-] & Hrun).
    apply bind_Ok in Hrun as (bound & s & [Hbound ->]%lift_Ok & Hrun).
    apply bind_Ok in Hrun as ([] & st1 & ->%modify_Ok & Hrun).
    apply from_suit_value_Val in Hbound as [Hu0 ->].
    apply NoDup_cons in Hnd as [Hnotin Hnd].
    destruct (pop_random_NoDup _ _ _ _ Hndu Hpop) as [Hndu' Hsv'].
    apply pop_random_elem in Hpop as [Hsv Hsub].
    assert (Hlt : a0 < length (cards st)) by (apply Hvalid; by left).
    set (c0 := Card.set_is_public true
                 (Card.mk sv.1 sv.2 (Card.trump_suit (card st a0))
                    (Card.is_public (card st a0)) (Card.is_private (card st a0)) false)) in *.
    apply IH in Hrun as (Hp & Hg & Hl & Hout & Hin & Hdiff); [|done..|].
    2:{ intros a Ha. rewrite length_cards_set_card. apply Hvalid. by right. }
    assert (Hat : card st' a0 = c0).
    { rewrite Hout by done. by rewrite card_set_card_eq. }
    assert (Hid0 : Card.identity c0 = sv) by by destruct sv.
    split_and!.
    + done.
    + done.
    + by rewrite Hl, length_cards_set_card.
    + intros a Ha. apply not_elem_of_cons in Ha as [Hne Ha].
      rewrite Hout by done. by rewrite card_set_card_ne.
    + intros a [->|Ha]%elem_of_cons.
      * rewrite Hat. by rewrite Hid0.
      * assert (a0 ≠ a) by congruence.
        destruct (Hin a Ha) as (H1 & H2 & H3 & H4 & H5 & H6).
        rewrite card_set_card_ne in H1, H5, H6 by done. split_and!; auto.
    + intros a b [->|Ha]%elem_of_cons [->|Hb]%elem_of_cons Hab; try done.
      * rewrite Hat, Hid0. destruct (Hin b Hb) as (_ & _ & H3 & _). congruence.
      * rewrite Hat, Hid0. destruct (Hin a Ha) as (_ & _ & H3 & _). congruence.
      * by apply Hdiff.
Qed.

(** X5.  When [determinize_hand] returns on a hand of distinct,
    existing cards, every card of the hand is known and public.  The
    cards that were known keep their identity and are no longer
    private; the cards that were unknown get pairwise distinct
    identities of the 36, none of them the identity of a card of the
    collection that was public or of a known card of the hand, and they
    keep [is_private].  No card changes its [trump_suit]; cards outside
    the hand, the hands and the game are untouched. *)
Theorem determinize_hand_publishes p rnd st st' :
  NoDup (hand_of st p) →
  (∀ a, a ∈ hand_of st p → a < length (cards st)) →
  determinize_hand p rnd st = Ok tt st' →
  persons st' = persons st ∧ game st' = game st ∧
  length (cards st') = length (cards st) ∧
  (∀ a, a ∉ hand_of st p → card st' a = card st a) ∧
  (∀ a, a ∈ hand_of st p →
     Card.is_unknown (card st' a) = false ∧ Card.is_public (card st' a) = true ∧
     Card.trump_suit (card st' a) = Card.trump_suit (card st a)) ∧
  (∀ a, a ∈ hand_of st p → Card.is_unknown (card st a) = false →
     Card.identity (card st' a) = Card.identity (card st a) ∧
     Card.is_private (card st' a) = false) ∧
  (∀ a, a ∈ hand_of st p → Card.is_unknown (card st a) = true →
     Card.identity (card st' a) ∈ all_cards ∧
     Card.is_private (card st' a) = Card.is_private (card st a) ∧
     ∀ b, b ∈ card_collection (game st) →
          Card.is_public (card st b) = true ∨
          (b ∈ hand_of st p ∧ Card.is_unknown (card st b) = false) →
          Card.identity (card st b) ≠ Card.identity (card st' a)) ∧
  (∀ a b, a ∈ hand_of st p → b ∈ hand_of st p → a ≠ b →
     Card.is_unknown (card st a) = true → Card.is_unknown (card st b) = true →
     Card.identity (card st' a) ≠ Card.identity (card st' b)).
Proof.
  intros Hnd Hvalid Hrun. unfold determinize_hand in Hrun.
  apply bind_Ok in Hrun as (s & s0 & [= <- <-] & Hrun).
  apply bind_Ok in Hrun as ([] & st1 & Hpub & Hrun).
  destruct (publish_known_cards (hand_of st p) st) as (st1' & Hpub' & Hp1 & Hg1 & Hl1 & Hc1).
  rewrite Hpub in Hpub'. injection Hpub' as <-.
  set (h := hand_of st p) in *.
  set (cs := filter (λ a, Card.is_unknown (card st a) = true) h) in *.
  assert (Hcs : ∀ a, a ∈ cs ↔ Card.is_unknown (card st a) = true ∧ a ∈ h).
  { intros a. unfold cs. by rewrite list_elem_of_filter. }
  assert (Hsame : ∀ a, Card.is_unknown (card st a) = true → card st1 a = card st a).
  { intros a Hu. rewrite Hc1. rewrite decide_False; [done|]. intros [_ ?]. congruence. }
  assert (Hknown : ∀ a, a ∈ h → Card.is_unknown (card st a) = false →
            card st1 a = Card.set_is_public true (Card.set_is_private false (card st a))).
  { intros a Ha Hk. rewrite Hc1. by rewrite decide_True. }
  assert (Hrest : ∀ a, a ∉ h → card st1 a = card st a).
  { intros a Ha. rewrite Hc1. rewrite decide_False; [done|]. by intros [? _]. }
  assert (Hbind : ∃ unknown, NoDup unknown ∧
            (unknown = [] ∨ unknown = get_non_public_cards st1) ∧
            bind_unknown rnd 0 unknown cs st1 = Ok tt st').
  { case_decide as Hlen.
    - apply bind_Ok in Hrun as (s & s0 & [= <- <-] & Hrun).
      exists (get_non_public_cards st1). split_and!; [apply NoDup_non_public|by right|done].
    - injection Hrun as <-. exists []. split_and!; [constructor|by left|].
      destruct cs; [done|simpl in Hlen; lia]. }
  destruct Hbind as (unknown & Hndu & Hunknown & Hbind).
  apply bind_unknown_distinct in Hbind as (Hp & Hg & Hl & Hout & Hin & Hdiff);
    [|done|by apply NoDup_filter|].
  2:{ intros a [_ Ha]%Hcs. rewrite Hl1. by apply Hvalid. }
  split_and!.
  - by rewrite Hp.
  - by rewrite Hg.
  - by rewrite Hl.
  - intros a Ha. rewrite Hout, Hrest; [done..|]. intros [_ ?]%Hcs. done.
  - intros a Ha. destruct (Card.is_unknown (card st a)) eqn:Hu.
    + destruct (Hin a) as (_ & H2 & _ & H4 & _ & H6); [by apply Hcs|].
      rewrite Hsame in H6 by done. done.
    + rewrite Hout by (intros [? _]%Hcs; congruence). rewrite Hknown by done. done.
  - intros a Ha Hk. rewrite Hout by (intros [? _]%Hcs; congruence).
    rewrite Hknown by done. by destruct (card st a).
  - intros a Ha Hu. destruct (Hin a) as (_ & _ & H3 & _ & H5 & _); [by apply Hcs|].
    rewrite Hsame in H5 by done.
    destruct Hunknown as [->| ->]; [by apply elem_of_nil in H3|].
    split_and!; [|done|].
    + by apply list_elem_of_difference in H3 as [? _].
    + intros b Hb Hpublic.
      assert (Hpub1 : Card.is_public (card st1 b) = true ∧
                      Card.identity (card st1 b) = Card.identity (card st b)).
      { rewrite Hc1.
        destruct (decide (b ∈ h ∧ Card.is_unknown (card st b) = false)) as [Hdec|Hdec];
          [destruct (card st b); by split|].
        destruct Hpublic as [?|[? ?]]; [by split|]. by destruct Hdec. }
      destruct Hpub1 as [Hpub1 <-].
      apply (non_public_not_public st1); [done|by rewrite Hg1|done].
  - intros a b Ha Hb Hab Hua Hub. apply Hdiff; [by apply Hcs..|done].
Qed.

Lemma determinize_hand_publishes_witness :
  NoDup (hand_of Example.dealt 1) ∧
  ∃ st', determinize_hand 1 Example.rnd0 Example.dealt = Ok tt st' ∧
         ∀ a, a ∈ hand_of Example.dealt 1 →
              Card.is_unknown (card st' a) = false ∧ Card.is_public (card st' a) = true ∧
              Card.trump_suit (card st' a) = Card.trump_suit (card Example.dealt a).
Proof.
  assert (Hnd : NoDup (hand_of Example.dealt 1)).
  { apply (bool_decide_unpack _). by vm_compute. }
  split; [exact Hnd|].
  destruct (determinize_hand 1 Example.rnd0 Example.dealt) as [[] st'|] eqn:Hrun;
    [|by vm_compute in Hrun].
  exists st'. split; [reflexivity|].
  destruct (determinize_hand_publishes 1 Example.rnd0 Example.dealt st' Hnd)
    as (_ & _ & _ & _ & Hhand & _); [|exact Hrun|exact Hhand].
  apply Forall_forall. apply (bool_decide_unpack _). by vm_compute.
Defined.
(** ** What an action leaves alone *)

Lemma steady_refl st : steady st st.
Proof. by split_and!. Qed.

Lemma steady_trans st1 st2 st3 : steady st1 st2 → steady st2 st3 → steady st1 st3.
Proof.
  intros (H1 & H2 & H3 & H4 & H5 & H6 & H7 & H8 & H9)
         (K1 & K2 & K3 & K4 & K5 & K6 & K7 & K8 & K9).
  split_and!; [etrans; eassumption..| |].
  - intros a. etrans; [apply K8|apply H8].
  - intros a Ha. destruct (H9 a Ha) as [Hu Hi]. destruct (K9 a Hu) as [Hu' Hi'].
    split; [done|etrans; eassumption].
Qed.

Lemma keeps_ret {A} (a : A) : keeps (mret a).
Proof. intros st. apply steady_refl. Qed.

Lemma keeps_raise {A} e : keeps (@raise A e).
Proof. intros st. apply steady_refl. Qed.

Lemma keeps_get_state : keeps get_state.
Proof. intros st. apply steady_refl. Qed.

Lemma keeps_lift {A} (r : res A) : keeps (lift r).
Proof. intros st. unfold lift. destruct r; apply steady_refl. Qed.

Lemma keeps_bind {A B} (m : M A) (k : A → M B) :
  keeps m → (∀ a, keeps (k a)) → keeps (m ≫= k).
Proof.
  intros Hm Hk st. unfold mbind, M_bind. specialize (Hm st).
  destruct (m st) as [a st1|e st1]; [|done].
  eapply steady_trans; [exact Hm|apply Hk].
Qed.

Lemma keeps_for_each {A} (l : list A) (body : A → M unit) :
  (∀ x, keeps (body x)) → keeps (for_each l body).
Proof.
  intros Hbody. induction l as [|x l IH]; [apply keeps_ret|].
  unfold for_each; fold (@for_each A). apply keeps_bind; [apply Hbody|by intros _].
Qed.

Lemma keeps_modify f : (∀ st, steady st (f st)) → keeps (modify f).
Proof. intros Hf st. apply Hf. Qed.

Lemma steady_set_hand p h st : steady st (set_hand p h st).
Proof.
  split_and!; try done. unfold set_hand. simpl.
  rewrite list_fmap_insert. simpl. apply list_eq. intros i.
  destruct (decide (i = p)) as [->|Hne].
  - destruct (decide (p < length (persons st))) as [Hlt|Hge].
    + rewrite list_lookup_insert_eq by by rewrite length_fmap.
      rewrite list_lookup_fmap. unfold person.
      by rewrite (list_lookup_lookup_total_lt _ _ Hlt).
    + by rewrite list_insert_ge by (rewrite length_fmap; lia).
  - by rewrite list_lookup_insert_ne.
Qed.

Lemma steady_set_card a c st :
  Card.trump_suit c = Card.trump_suit (card st a) →
  (Card.is_unknown (card st a) = false →
   Card.is_unknown c = false ∧ Card.identity c = Card.identity (card st a)) →
  steady st (set_card a c st).
Proof.
  intros Htrump Hknown. split_and!; try done.
  - apply length_cards_set_card.
  - intros b. rewrite card_set_card. case_decide as Hd; [|done]. by destruct Hd as [<- _].
  - intros b Hb. rewrite card_set_card. case_decide as Hd; [|done].
    destruct Hd as [<- _]. by apply Hknown.
Qed.

Lemma keeps_discard_card p sv remove : keeps (discard_card p sv remove).
Proof.
  intros st. unfold discard_card.
  destruct (list_find _ _) as [[idx a]|] eqn:Hfind; [|apply steady_refl].
  apply list_find_Some in Hfind as (_ & Hdis & _). unfold discardable in Hdis. simpl.
  set (st1 := if Card.is_unknown (card st a)
              then upd_card a (Card.set_suit_value sv.1 sv.2) st else st).
  assert (H1 : steady st st1).
  { unfold st1. destruct (Card.is_unknown (card st a)) eqn:Hu; [|apply steady_refl].
    apply steady_set_card; [done|congruence]. }
  set (st2 := if remove then set_hand p (delete idx (hand_of st p)) st1 else st1).
  assert (H2 : steady st1 st2).
  { unfold st2. destruct remove; [apply steady_set_hand|apply steady_refl]. }
  eapply steady_trans; [exact H1|]. eapply steady_trans; [exact H2|].
  apply steady_set_card; [done|]. intros Hk. by destruct (card st2 a).
Qed.

Lemma keeps_fill_hand p deck : keeps (fill_hand p deck).
Proof. intros st. rewrite fill_hand_spec. apply steady_set_hand. Qed.

Ltac keep :=
  repeat first
    [ apply keeps_get_state | apply keeps_lift | apply keeps_ret | apply keeps_raise
    | apply keeps_discard_card | apply keeps_fill_hand
    | apply keeps_bind; [|intros ?]
    | apply keeps_for_each; intros ?
    | apply keeps_modify; intros ?; first [apply steady_set_hand | by split_and!]
    | match goal with
      | |- keeps (match ?x with _ => _ end) => destruct x
      | |- keeps (if ?x then _ else _) => destruct x
      end ].

Lemma keeps_refill : keeps refill.
Proof. unfold refill. keep. Qed.

Lemma keeps_new_trick main : keeps (new_trick main).
Proof. unfold new_trick. keep. Qed.

Lemma keeps_rotate_seats : keeps rotate_seats.
Proof. unfold rotate_seats. keep. Qed.

Lemma keeps_next_attacker : keeps next_attacker.
Proof. unfold next_attacker. keep. Qed.

Lemma keeps_throw_cards throw : keeps (throw_cards throw).
Proof. unfold throw_cards. keep. Qed.

Lemma keeps_take_and_close : keeps take_and_close.
Proof.
  unfold take_and_close.
  repeat first [apply keeps_refill | apply keeps_new_trick | progress keep].
Qed.

(** X6.  Whatever the action and the state, and whether
    [execute_action] returns or raises, the history afterwards is the
    old history followed by that action, exactly once.  The list of
    players, their names, [card_collection], [computer_shuffle] and
    [print_info] are as before, no card object is created or lost, no
    card changes its [trump_suit], and a card that was known stays
    known with the same suit and value. *)
Theorem execute_action_records_action a st :
  let st' := state_of (execute_action a st) in
  history (game st') = history (game st) ++ [a] ∧
  players (game st') = players (game st) ∧
  card_collection (game st') = card_collection (game st) ∧
  computer_shuffle (game st') = computer_shuffle (game st) ∧
  print_info (game st') = print_info (game st) ∧
  length (cards st') = length (cards st) ∧
  name <$> persons st' = name <$> persons st ∧
  (∀ c, Card.trump_suit (card st' c) = Card.trump_suit (card st c)) ∧
  (∀ c, Card.is_unknown (card st c) = false →
        Card.is_unknown (card st' c) = false ∧
        Card.identity (card st' c) = Card.identity (card st c)).
Proof.
  set (st0 := upd_game (λ g, set_history (history g ++ [a]) g) st).
  assert (Hrest : ∃ rest : M unit,
            keeps rest ∧ execute_action a st = rest st0).
  { unfold execute_action. unfold mbind at 1, M_bind at 1, modify at 1. fold st0.
    eexists. split; [|reflexivity].
    destruct a.1;
      repeat first [apply keeps_refill | apply keeps_new_trick | apply keeps_rotate_seats
                   | apply keeps_next_attacker | apply keeps_throw_cards
                   | apply keeps_take_and_close | progress keep]. }
  destruct Hrest as (rest & Hkeeps & ->). simpl.
  destruct (Hkeeps st0) as (H1 & H2 & H3 & H4 & H5 & H6 & H7 & H8 & H9).
  split_and!; done.
Qed.

Lemma execute_action_records_action_witness :
  Card.is_unknown (card Example.dealt 35) = false ∧
  Card.identity (card (state_of (execute_action Example.attack Example.dealt)) 35)
    = Card.identity (card Example.dealt 35).
Proof.
  assert (Hknown : Card.is_unknown (card Example.dealt 35) = false) by by vm_compute.
  split; [exact Hknown|].
  destruct (execute_action_records_action Example.attack Example.dealt)
    as (_ & _ & _ & _ & _ & _ & _ & _ & Hkeep).
  exact (proj2 (Hkeep 35 Hknown)).
Defined.

(** X7.  The seat rotation of a reflection.  With at least one attacker
    and a defender [d], the attacker at seat [1 % len(attackers)]
    becomes the defender and [d] joins the attackers: the attackers
    together with the defender are the same players as before, the
    draw order lists the same players and ends with the new defender.
    With one attacker the two players swap roles.  Nothing but
    [attackers], [defender] and [draw_order] is written.  Without
    attackers the rotation raises [ZeroDivisionError] and changes
    nothing. *)
Theorem rotate_seats_roles st :
  (∀ d, attackers (game st) ≠ [] → defender (game st) = Some d →
     ∃ new_defender st',
       rotate_seats st = Ok tt st' ∧
       attackers (game st) !! (1 mod length (attackers (game st))) = Some new_defender ∧
       defender (game st') = Some new_defender ∧
       d ∈ attackers (game st') ∧
       attackers (game st') ++ [new_defender] ≡ₚ attackers (game st) ++ [d] ∧
       draw_order (game st') ≡ₚ attackers (game st) ++ [d] ∧
       last (draw_order (game st')) = Some new_defender ∧
       (length (attackers (game st)) = 1 → attackers (game st') = [d]) ∧
       st' = upd_game (λ g, set_attackers (attackers (game st'))
                              (set_draw_order (draw_order (game st'))
                                 (set_defender (Some new_defender) g))) st) ∧
  (attackers (game st) = [] → rotate_seats st = Raise ZeroDivisionError st).
Proof.
  split.
  - intros d Hne Hd.
    destruct (rotate_seats_spec st d Hne Hd) as (nd & inserted & first & Hnd & Hins & Hfirst & Hrun).
    destruct (rotate_seats_perm _ _ d nd inserted first Hnd Hins Hfirst) as (Hp1 & Hp2 & Hp3).
    eexists nd, _. split; [exact Hrun|]. simpl. split_and!.
    + done.
    + done.
    + eapply elem_of_Permutation_proper; [exact Hp2|]. rewrite Hp1. by left.
    + etrans; [apply Permutation_app_tail; etrans; [exact Hp2|exact Hp1]|].
      etrans; [|apply Permutation_app_tail; symmetry; exact Hp3].
      simpl. solve_Permutation.
    + etrans; [apply Permutation_app_tail; exact Hp1|].
      etrans; [|apply Permutation_app_tail; symmetry; exact Hp3].
      simpl. solve_Permutation.
    + by rewrite last_snoc.
    + intros Hlen. destruct (attackers (game st)) as [|a [|? ?]] eqn:Hatt; try done.
      simpl in Hnd. injection Hnd as <-. subst inserted. simpl in Hfirst.
      injection Hfirst as <-. done.
    + done.
  - intros Hnil. unfold rotate_seats, py_mod. msimpl. rewrite Hnil. done.
Qed.

Lemma rotate_seats_roles_witness :
  attackers (game Example.attacked) ≠ [] ∧
  defender (game Example.attacked) = Some 1 ∧
  ∃ new_defender st',
    rotate_seats Example.attacked = Ok tt st' ∧
    defender (game st') = Some new_defender ∧ attackers (game st') = [1].
Proof.
  assert (Hne : attackers (game Example.attacked) ≠ []) by by vm_compute.
  assert (Hd : defender (game Example.attacked) = Some 1) by by vm_compute.
  split; [exact Hne|]. split; [exact Hd|].
  destruct (rotate_seats_roles Example.attacked) as [Hroles _].
  destruct (Hroles 1 Hne Hd) as (nd & st' & Hrun & _ & Hdef & _ & _ & _ & _ & Hswap & _).
  exists nd, st'. split; [exact Hrun|]. split; [exact Hdef|]. apply Hswap. by vm_compute.
Defined.
(** ** Beating a card *)

(** The scan of the hand returned, so the options were computed at
    every candidate identity of every card. *)
Lemma scan_hand_defined st td player h : ∀ opts opts' a sv,
  scan_hand st td player h opts = Val opts' →
  a ∈ h → sv ∈ identities_of st player a →
  ∃ r d, reflect_options st td sv = Val r ∧ defend_options td sv = Val d.
Proof.
  induction h as [|a0 h IH]; intros opts opts' a sv Hscan Ha Hsv;
    [by apply elem_of_nil in Ha|].
  simpl in Hscan. apply res_bind_Val in Hscan as ([reflect defend] & Hids & Hscan).
  apply elem_of_cons in Ha as [->|Ha]; [|by eapply IH].
  clear -Hids Hsv. revert Hids. generalize (@nil act) at 1. generalize (@nil act).
  induction (identities_of st player a0) as [|sv0 ids IH]; intros l1 l2 Hids;
    [by apply elem_of_nil in Hsv|].
  simpl in Hids. apply res_bind_Val in Hids as (r & Hr & Hids).
  apply res_bind_Val in Hids as (d & Hd & Hids).
  apply elem_of_cons in Hsv as [->|Hsv]; [by eexists _, _|by eapply IH].
Qed.

(** The rule of [defend_options]: a trump beats a card that is not a
    trump, and a card of the same suit beats a lower one. *)
Lemma defend_options_iff td sv d :
  defend_options td sv = Val d →
  Defend sv ∈ d ↔
    (sv.1 = Card.trump_suit td ∧ Card.is_trump td = false) ∨
    (sv.1 = Card.suit td ∧
     ∃ x y, sv.2 = Some x ∧ Card.value td = Some y ∧ y < x).
Proof.
  unfold defend_options. intros Hd.
  set (by_trump := if decide (sv.1 = Card.trump_suit td ∧ Card.is_trump td = false)
                   then [Defend sv] else []) in *.
  assert (Hby : Defend sv ∈ by_trump ↔
                sv.1 = Card.trump_suit td ∧ Card.is_trump td = false).
  { unfold by_trump.
    destruct (decide (sv.1 = Card.trump_suit td ∧ Card.is_trump td = false)) as [H|H].
    - split; [done|intros _; by left].
    - split; [by intros ?%elem_of_nil|done]. }
  destruct (decide (sv.1 = Card.suit td)) as [Hs|Hs].
  - apply res_bind_Val in Hd as (higher & Hgt & [= <-]).
    unfold py_gt in Hgt.
    destruct sv.2 as [x|] eqn:Hx; [|done]. destruct (Card.value td) as [y|] eqn:Hy; [|done].
    injection Hgt as <-. rewrite elem_of_app, Hby. split.
    + intros [?|Hin]; [by left|]. right. split; [done|]. exists x, y.
      case_bool_decide; [done|by apply elem_of_nil in Hin].
    + intros [?|(_ & x' & y' & [= <-] & [= <-] & Hlt)]; [by left|]. right.
      rewrite bool_decide_true by done. by left.
  - injection Hd as <-. rewrite Hby. split; [by left|]. intros [?|[? _]]; done.
Qed.

(** X8.  In the defend phase, when [allowed_plays] returns: taking is
    always offered, with weight 1/2.  Every offered defence [(s, v)]
    is a candidate identity of a card of the defender's hand and beats
    the first card to defend: [s] is the trump suit and that card is
    not a trump, or [s] is its suit and [v] is higher than its value.
    Conversely every candidate identity of a hand card that beats the
    card is offered as a defence. *)
Theorem allowed_plays_defend_phase_beats st acts :
  current_action (game st) = Phase.Defend →
  allowed_plays st = Val acts →
  ∃ to_defend player,
    cards_to_defend (game st) !! 0 = Some to_defend ∧
    player_to_play (game st) = Some player ∧
    let td := card st to_defend in
    let beats (sv : ident) :=
      (sv.1 = Card.trump_suit td ∧ Card.is_trump td = false) ∨
      (sv.1 = Card.suit td ∧ ∃ x y, sv.2 = Some x ∧ Card.value td = Some y ∧ y < x) in
    (Take, Some (1 # 2)%Q) ∈ acts ∧
    (∀ sv w, (Defend sv, w) ∈ acts →
       (∃ a, a ∈ hand_of st player ∧ sv ∈ identities_of st player a) ∧ beats sv) ∧
    (∀ a sv, a ∈ hand_of st player → sv ∈ identities_of st player a → beats sv →
       ∃ w, (Defend sv, Some w) ∈ acts).
Proof.
  intros Hphase Hal.
  destruct (allowed_plays_defend st acts Hphase Hal)
    as (to_defend & player & opts & Htd & Hpl & Hscan & ->).
  exists to_defend, player. split; [done|]. split; [done|]. simpl. split_and!.
  - apply elem_of_app. right. by left.
  - intros sv w Hin. apply elem_of_app in Hin as [Hin|Hin];
      [|by apply list_elem_of_singleton in Hin].
    apply list_elem_of_fmap in Hin as ([k q] & [= <- ->] & Hin).
    assert (Defend sv ∈ opts.*1) as Hk.
    { apply list_elem_of_fmap. by exists (Defend sv, q). }
    apply (scan_hand_keys _ _ _ _ _ _ Hscan) in Hk as [Hk|(a & sv' & Ha & Hsv & Hk)];
      [by apply elem_of_nil in Hk|].
    destruct Hk as [(r & Hr & Hk)|(d & Hd & Hk)].
    + apply reflect_options_Val in Hr as (_ & _ & Hr). by apply Hr in Hk.
    + pose proof (defend_options_Val _ _ _ _ Hd Hk) as [= <-].
      split; [by exists a|]. by apply (defend_options_iff _ _ _ Hd).
  - intros a sv Ha Hsv Hbeats.
    destruct (scan_hand_defined _ _ _ _ _ _ a sv Hscan Ha Hsv) as (r & d & Hr & Hd).
    assert (Defend sv ∈ opts.*1) as Hin.
    { apply (scan_hand_keys _ _ _ _ _ _ Hscan). right. exists a, sv.
      split_and!; [done..|]. right. exists d. split; [done|].
      by apply (defend_options_iff _ _ _ Hd). }
    apply list_elem_of_fmap in Hin as ([k' q] & Hk & Hin). simpl in Hk. subst k'.
    exists q. apply elem_of_app. left. apply list_elem_of_fmap. by exists (Defend sv, q).
Qed.

Lemma allowed_plays_defend_phase_beats_witness :
  current_action (game Example.attacked) = Phase.Defend ∧
  ∃ acts, allowed_plays Example.attacked = Val acts ∧ (Take, Some (1 # 2)%Q) ∈ acts.
Proof.
  split; [by vm_compute|].
  destruct (allowed_plays Example.attacked) as [acts|] eqn:Hal; [|by vm_compute in Hal].
  exists acts. split; [reflexivity|].
  destruct (allowed_plays_defend_phase_beats Example.attacked acts)
    as (to_defend & player & _ & _ & Htake & _); [by vm_compute|exact Hal|exact Htake].
Defined.
(** ** The random utilities *)

Lemma sumQ_replicate n (q : Q) : (sumQ (replicate n q) == inject_Z (Z.of_nat n) * q)%Q.
Proof.
  induction n as [|n IH].
  - simpl. unfold inject_Z. ring.
  - rewrite Nat2Z.inj_succ. unfold Z.succ. rewrite inject_Z_plus.
    simpl replicate. unfold sumQ in *. simpl foldr. rewrite IH. ring.
Qed.

Lemma uniform_spec {A} (l : list A) :
  l ≠ [] →
  (uniform l).*1 = l ∧
  (∀ xw, xw ∈ uniform l → xw.2 = (1 # Pos.of_nat (length l))%Q) ∧
  (sumQ (uniform l).*2 == 1)%Q.
Proof.
  intros Hne. unfold uniform. split_and!.
  - rewrite <- list_fmap_compose. apply list_fmap_id.
  - by intros xw (x & -> & _)%list_elem_of_fmap.
  - rewrite <- list_fmap_compose.
    rewrite (const_fmap _ l (1 # Pos.of_nat (length l))) by done.
    rewrite sumQ_replicate. unfold Qeq, inject_Z, Qmult. simpl.
    destruct l as [|x l]; [done|]. simpl length. lia.
Qed.

Lemma choose_random_action_cons_None (k : act) (l : list action) :
  choose_random_action ((k, None) :: l) = Val (uniform (((k, None) : action) :: l)).
Proof. reflexivity. Qed.

Lemma choose_random_action_cons_Some (k : act) (w : Q) (l : list action) :
  choose_random_action ((k, Some w) :: l) =
  _ ← map_res weight_of l;
  Val (uniform (((k, None) : action) :: ((λ x : action, (x.1, None)) <$> l))).
Proof.
  unfold choose_random_action. cbn [index lookup list_lookup mbind res_bind snd].
  cbn [map_res]. change (weight_of (k, Some w)) with (@Val Q w).
  cbn [mbind res_bind]. by destruct (map_res weight_of l).
Qed.

Lemma map_res_weights_Val (l : list action) ws :
  map_res weight_of l = Val ws → ∀ x, x ∈ l → is_Some x.2.
Proof.
  revert ws. induction l as [|[k o] l IH]; intros ws Hws x Hx;
    [by apply elem_of_nil in Hx|].
  cbn [map_res] in Hws. apply res_bind_Val in Hws as (w & Hw & Hws).
  apply res_bind_Val in Hws as (ws' & Hws & _).
  apply elem_of_cons in Hx as [->|Hx]; [|by eapply IH].
  destruct o; [by eexists|done].
Qed.

(** X9.  [choose_random_action] raises [IndexError] on an empty list.
    A list that starts with a weighted triple and contains a pair
    raises [IndexError] as well.  When it returns, the outcomes are the
    (kind, payload) parts of the listed actions, one per entry and in
    order (with their third component when no weights are used), each
    with probability [1 / len], the probabilities adding up to 1. *)
Theorem choose_random_action_draws_listed :
  choose_random_action [] = Exc IndexError ∧
  (∀ a w l x, x ∈ l → x.2 = None →
     choose_random_action ((a, Some w) :: l) = Exc IndexError) ∧
  (∀ l d, choose_random_action l = Val d →
     l ≠ [] ∧
     (λ x : action, x.1) <$> d.*1 = (λ x : action, x.1) <$> l ∧
     (∀ x, x ∈ l → x.2 = None → d.*1 = l) ∧
     (∀ xw, xw ∈ d → xw.2 = (1 # Pos.of_nat (length l))%Q) ∧
     (sumQ d.*2 == 1)%Q).
Proof.
  split_and!.
  - done.
  - intros a w l x Hx Hnone. rewrite choose_random_action_cons_Some.
    destruct (map_res weight_of l) as [ws|e] eqn:Hws.
    + destruct (map_res_weights_Val l ws Hws x Hx) as [? Hsome]. congruence.
    + revert e Hws. induction l as [|[ky oy] l IH]; intros e Hws;
        [by apply elem_of_nil in Hx|].
      cbn [map_res] in Hws. destruct oy as [wy|].
      * change (weight_of (ky, Some wy)) with (@Val Q wy) in Hws.
        cbn [mbind res_bind] in Hws.
        apply elem_of_cons in Hx as [->|Hx]; [done|].
        destruct (map_res weight_of l) as [ws|e'] eqn:Hl.
        -- destruct (map_res_weights_Val l ws Hl x Hx) as [? Hsome]. congruence.
        -- injection Hws as <-. by eapply IH.
      * by injection Hws as <-.
  - intros l d Hrun. destruct l as [|[k o] l]; [done|]. split; [done|].
    destruct o as [w|].
    + rewrite choose_random_action_cons_Some in Hrun.
      apply res_bind_Val in Hrun as (ws & Hws & [= <-]).
      set (stripped := ((k, None) : action) :: ((λ x : action, (x.1, None)) <$> l)).
      destruct (uniform_spec stripped) as (H1 & H2 & H3); [done|].
      split_and!.
      * rewrite H1. unfold stripped. rewrite !fmap_cons. f_equal.
        rewrite <- list_fmap_compose. by apply list_fmap_ext.
      * intros x Hx Hnone. exfalso.
        apply elem_of_cons in Hx as [->|Hx]; [done|].
        destruct (map_res_weights_Val l ws Hws x Hx) as [? Hsome]. congruence.
      * intros xw Hxw. rewrite (H2 xw Hxw). unfold stripped. cbn [length].
        by rewrite length_fmap.
      * done.
    + rewrite choose_random_action_cons_None in Hrun. injection Hrun as <-.
      destruct (uniform_spec (((k, None) : action) :: l)) as (H1 & H2 & H3); [done|].
      split_and!; [by rewrite H1|by intros|done..].
Qed.

Lemma choose_random_action_draws_listed_witness :
  ∃ d, choose_random_action [(Take, None); (PassAttack, None)] = Val d ∧
       (sumQ d.*2 == 1)%Q.
Proof.
  destruct (choose_random_action [(Take, None); (PassAttack, None)]) as [d|] eqn:Hrun;
    [|by vm_compute in Hrun].
  exists d. split; [reflexivity|].
  destruct choose_random_action_draws_listed as (_ & _ & Hlisted).
  destruct (Hlisted _ d Hrun) as (_ & _ & _ & _ & Hsum). exact Hsum.
Defined.
(** ** The constructor *)

(** The state in which [__init__] deals, card by card. *)
Lemma init_deal_cards fuel rnd ps shuffle main info st0 b st :
  GameTree_init (S fuel) rnd ps shuffle main info st0 = Ok b st →
  ∃ stA sv,
    2 ≤ length ps ≤ 6 ∧ sv ∈ all_cards ∧
    persons stA = persons st0 ∧
    game stA = set_history [] (set_card_collection (seq (length (cards st0)) 36)
                 (set_deck (seq (length (cards st0)) 36)
                    (set_flags shuffle info (set_players ps (game st0))))) ∧
    cards stA = cards st0 ++ replicate 35 Card.new
                  ++ [Card.mk sv.1 sv.2 None true false false] ∧
    (if decide (sv.2 = Some 8)
     then GameTree_init fuel rnd ps shuffle main info
     else
       for_each (seq (length (cards st0)) 36)
         (λ a, modify (upd_card a (Card.set_trump_suit sv.1))) ;;
       for_each ps (λ p,
         st ← get_state;
         deck' ← fill_hand p (deck (game st));
         assign set_deck deck') ;;
       new_trick main ;;
       mret true) stA = Ok b st.
Proof.
  intros Hinit. cbn [GameTree_init] in Hinit.
  apply bind_Ok in Hinit as ([] & s1 & H1 & Hinit). apply modify_Ok in H1.
  apply bind_Ok in Hinit as ([] & s2 & H2 & Hinit). apply guard_Ok in H2 as [Hsize H2].
  apply bind_Ok in Hinit as ([] & s3 & H3 & Hinit). apply modify_Ok in H3.
  apply bind_Ok in Hinit as (new_deck & s4 & H4 & Hinit).
  rewrite (alloc_cards Card.new (seq 0 36)) in H4. injection H4 as Hdeck H4.
  rewrite ?length_seq in Hdeck, H4.
  change (length (seq 0 36)) with 36 in Hdeck, H4.
  apply bind_Ok in Hinit as ([] & s5 & H5 & Hinit). apply modify_Ok in H5.
  apply bind_Ok in Hinit as ([] & s6 & H6 & Hinit). apply modify_Ok in H6.
  apply bind_Ok in Hinit as ([] & s7 & H7 & Hinit). apply modify_Ok in H7.
  apply bind_Ok in Hinit as (s7' & s8 & H8 & Hinit). injection H8 as <- <-.
  apply bind_Ok in Hinit as ([] & s9 & H9 & Hinit). apply guard_Ok in H9 as [Hall H9].
  apply bind_Ok in Hinit as (bottom & s10 & H10 & Hinit).
  apply lift_Ok in H10 as [Hbottom H10].
  apply bind_Ok in Hinit as (sv & s11 & H11 & Hinit). apply lift_Ok in H11 as [Hsv H11].
  apply bind_Ok in Hinit as (bound & s12 & H12 & Hinit).
  apply lift_Ok in H12 as [Hbound H12].
  apply bind_Ok in Hinit as ([] & stA & H13 & Hinit). apply modify_Ok in H13.
  assert (Hlen : length (cards s3) = length (cards st0)) by (by rewrite H3, H2, H1).
  rewrite Hlen in Hdeck. subst new_deck.
  assert (Hcards7 : cards s7 = cards st0 ++ replicate 36 Card.new).
  { rewrite H7, H6, H5, <- H4. simpl. by rewrite H3, H2, H1. }
  assert (Hb : bottom = length (cards st0) + 35).
  { unfold index in Hbottom. rewrite length_seq in Hbottom.
    rewrite lookup_seq_lt in Hbottom by lia. injection Hbottom as <-. lia. }
  apply choice_elem in Hsv. rewrite <- Hall in Hsv.
  apply from_suit_value_Val in Hbound as [_ Hbound].
  assert (Hcb : card s7 bottom = Card.new).
  { unfold card. rewrite Hcards7, Hb. rewrite lookup_total_app_r by lia.
    replace (length (cards st0) + 35 - length (cards st0)) with 35 by lia. done. }
  rewrite Hcb in Hbound. simpl in Hbound.
  exists stA, sv.
  split; [exact Hsize|]. split; [exact Hsv|]. split_and!; [| | |exact Hinit].
  - rewrite H13, H12, H11, H10, H9. simpl. rewrite H7, H6, H5, <- H4. simpl.
    by rewrite H3, H2, H1.
  - rewrite H13, H12, H11, H10, H9. simpl. rewrite H7, H6, H5, <- H4. simpl.
    by rewrite H3, H2, H1.
  - rewrite H13, H12, H11, H10, H9. simpl. rewrite Hcards7, Hb, Hbound.
    replace 36 with (35 + 1) by lia. rewrite replicate_add. simpl replicate.
    rewrite insert_app_r_alt by lia. f_equal.
    replace (length (cards st0) + 35 - length (cards st0))
      with (length (replicate 35 Card.new) + 0) by (rewrite length_replicate; lia).
    by rewrite insert_app_r.
Qed.

Lemma set_trump_loop s l : ∀ st,
  ∃ st', for_each l (λ a, modify (upd_card a (Card.set_trump_suit s))) st = Ok tt st' ∧
    persons st' = persons st ∧ game st' = game st ∧
    length (cards st') = length (cards st) ∧
    ∀ b, card st' b = if decide (b ∈ l ∧ b < length (cards st))
                      then Card.set_trump_suit s (card st b) else card st b.
Proof.
  induction l as [|a l IH]; intros st.
  - exists st. split_and!; done.
  - unfold for_each; fold (@for_each nat). unfold mbind at 1, M_bind at 1, modify at 1.
    set (st0 := upd_card a (Card.set_trump_suit s) st).
    destruct (IH st0) as (st' & Hrun & Hp & Hg & Hl & Hc).
    assert (Hl0 : length (cards st0) = length (cards st)) by apply length_cards_set_card.
    exists st'. split_and!; [done..|by rewrite Hl|].
    intros b. rewrite Hc, Hl0. unfold st0, upd_card. rewrite !card_set_card.
    destruct (decide (a = b ∧ a < length (cards st))) as [[-> Hlt]|Hnot].
    + rewrite (decide_True (P := b ∈ b :: l ∧ _)) by (split; [left|done]).
      case_decide; [|done]. by destruct (card st b).
    + destruct (decide (b ∈ l ∧ b < length (cards st))) as [[Hb Hlt]|Hn].
      * by rewrite decide_True by (split; [by right|done]).
      * rewrite decide_False; [done|]. intros [[->|?]%elem_of_cons ?].
        -- by destruct Hnot.
        -- by destruct Hn.
Qed.

(** The deal: six cards each from the top of the deck, in the order of
    the players. *)
Lemma deal_hands l : ∀ st,
  NoDup l →
  (∀ p, p ∈ l → p < length (persons st) ∧ hand_of st p = []) →
  6 * length l ≤ length (deck (game st)) →
  let st' := foldl (λ s p, fill p s) st l in
  (∀ i p, l !! i = Some p → hand_of st' p = take 6 (drop (6 * i) (deck (game st)))) ∧
  deck (game st') = drop (6 * length l) (deck (game st)) ∧
  (∀ q, q ∉ l → hand_of st' q = hand_of st q) ∧
  cards st' = cards st ∧
  game st' = set_deck (deck (game st')) (game st).
Proof.
  induction l as [|p l IH]; intros st Hnd Hnew Hlen; cbn [foldl].
  - split_and!; try done; by rewrite set_deck_same.
  - apply NoDup_cons in Hnd as [Hp Hnd].
    destruct (Hnew p) as [Hlt Hempty]; [by left|].
    assert (Hn : (6 - length (hand_of st p)) `min` length (deck (game st)) = 6).
    { rewrite Hempty. cbn [length] in *. lia. }
    assert (Hdeck1 : deck (game (fill p st)) = drop 6 (deck (game st))).
    { by rewrite fill_deck, Hn. }
    assert (Hhand1 : ∀ q, hand_of (fill p st) q =
              if decide (p = q) then take 6 (deck (game st)) else hand_of st q).
    { intros q. rewrite fill_hand_of by done. rewrite Hn, Hempty. done. }
    destruct (IH (fill p st)) as (Hhands & Hdk & Hout & Hc & Hg).
    + done.
    + intros q Hq. rewrite length_persons_fill. destruct (Hnew q) as [? ?]; [by right|].
      split; [done|]. rewrite Hhand1. rewrite decide_False by congruence. done.
    + rewrite Hdeck1, length_drop. cbn [length] in Hlen. lia.
    + split_and!.
      * intros [|i] q Hq; simpl in Hq.
        -- injection Hq as <-. rewrite Hout by done. rewrite Hhand1.
           rewrite decide_True by done. by rewrite drop_0.
        -- rewrite (Hhands i q Hq), Hdeck1, drop_drop. do 2 f_equal. lia.
      * rewrite Hdk, Hdeck1, drop_drop. f_equal. cbn [length]. lia.
      * intros q Hq. apply not_elem_of_cons in Hq as [Hne Hq].
        rewrite Hout by done. rewrite Hhand1. by rewrite decide_False.
      * by rewrite Hc.
      * rewrite Hg at 1. unfold fill. simpl. done.
Qed.

Lemma filter_all {A} (P : A → Prop) `{∀ x, Decision (P x)} (l : list A) :
  (∀ x, x ∈ l → P x) → filter P l = l.
Proof.
  induction l as [|x l IH]; intros HP; [done|].
  rewrite filter_cons_True by (apply HP; by left). f_equal. apply IH.
  intros y Hy. apply HP. by right.
Qed.

Lemma seats_from_head ps idx (first : nat) :
  ps !! idx = Some first → seats_from ps idx !! 0 = Some first.
Proof.
  intros Hidx. pose proof (lookup_lt_Some _ _ _ Hidx) as Hlt.
  unfold seats_from. rewrite list_lookup_fmap, lookup_seq_lt by lia. simpl.
  rewrite Nat.add_0_r, Nat.mod_small by done.
  by rewrite (list_lookup_total_correct _ _ _ Hidx).
Qed.

#[local] Arguments Nat.mul : simpl never.
#[local] Arguments Nat.sub : simpl never.

(** The game [__init__] leaves behind when the deal stands. *)
Lemma init_deals fuel rnd ps shuffle main info : ∀ st0 st,
  new_players st0 ps →
  is_end_state (game st0) = false →
  GameTree_init fuel rnd ps shuffle main info st0 = Ok true st →
  ∃ n0 sv idx first second others,
    2 ≤ length ps ≤ 6 ∧
    length (cards st) = n0 + 36 ∧
    players (game st) = ps ∧
    computer_shuffle (game st) = shuffle ∧ print_info (game st) = info ∧
    history (game st) = [] ∧
    card_collection (game st) = seq n0 36 ∧
    (∀ i p, ps !! i = Some p → hand_of st p = seq (n0 + 6 * i) 6) ∧
    deck (game st) = seq (n0 + 6 * length ps) (36 - 6 * length ps) ∧
    sv ∈ all_cards ∧ sv.2 ≠ Some 8 ∧
    card st (n0 + 35) = Card.mk sv.1 sv.2 sv.1 true false false ∧
    (∀ k, k < 35 → card st (n0 + k) = Card.mk None None sv.1 false false true) ∧
    is_end_state (game st) = false ∧ current_action (game st) = Phase.Attack ∧
    cards_to_defend (game st) = [] ∧ pairs_finished (game st) = [] ∧
    list_find (λ p, name (person st0 p) = main) ps = Some (idx, first) ∧
    seats_from ps idx = first :: second :: others ∧
    attackers (game st) = first :: others ∧
    defender (game st) = Some second ∧
    player_to_play (game st) = Some first ∧
    current_attacker (game st) = 0 ∧
    draw_order (game st) = (first :: others) ++ [second].
Proof.
  induction fuel as [|fuel IH]; intros st0 st Hnew Hend Hinit; [done|].
  apply init_deal_cards in Hinit
    as (stA & sv & Hsize & Hsv & HpA & HgA & HcA & Hinit).
  destruct Hnew as [Hnd Hnew].
  destruct (decide (sv.2 = Some 8)) as [Hace|Hace].
  { destruct (IH stA st) as (n0 & sv' & idx & first & second & others & H); [| |done|].
    - split; [done|]. intros p Hp. unfold hand_of, person. rewrite HpA. by apply Hnew.
    - by rewrite HgA.
    - exists n0, sv', idx, first, second, others.
      unfold person in H. rewrite HpA in H. exact H. }
  set (n0 := length (cards st0)) in *.
  apply bind_Ok in Hinit as ([] & stB & HB & Hinit).
  destruct (set_trump_loop sv.1 (seq n0 36) stA) as (stB' & HB' & HpB & HgB & HlB & HcB).
  rewrite HB in HB'. injection HB' as <-. clear HB.
  apply bind_Ok in Hinit as ([] & stC & HC & Hinit).
  rewrite deal_spec in HC. injection HC as HC.
  apply bind_Ok in Hinit as ([] & stD & Hnewtrick & Hinit). injection Hinit as <-.
  assert (HdeckB : deck (game stB) = seq n0 36) by by rewrite HgB, HgA.
  destruct (deal_hands ps stB) as (Hhands & Hdeck & _ & HcC & HgC).
  { done. }
  { intros p Hp. unfold hand_of, person. rewrite HpB, HpA. by apply Hnew. }
  { rewrite HdeckB, length_seq. lia. }
  rewrite HC in Hhands, Hdeck, HcC, HgC. rewrite HdeckB in Hhands, Hdeck.
  assert (Hnames : ∀ q, name (person stC q) = name (person st0 q)).
  { intros q. rewrite <- HC. rewrite (proj1 (refilled_facts ps stB q)).
    unfold person. by rewrite HpB, HpA. }
  assert (HplC : players (game stC) = ps).
  { rewrite HgC. simpl. by rewrite HgB, HgA. }
  destruct (new_trick_Ok _ _ _ Hnewtrick) as [[idx first] Hfind].
  rewrite (new_trick_found stC main idx first Hfind) in Hnewtrick.
  injection Hnewtrick as <-.
  rewrite HplC in Hfind.
  assert (Hfind0 : list_find (λ p, name (person st0 p) = main) ps = Some (idx, first)).
  { erewrite list_find_ext; [exact Hfind|]. intros x. simpl. by rewrite Hnames. }
  pose proof (proj1 (proj1 (list_find_Some _ _ _ _) Hfind)) as Hidx.
  assert (Hliving : filter (living stC) (seats_from ps idx) = seats_from ps idx).
  { apply filter_all. intros p Hp. rewrite seats_from_Permutation in Hp.
    apply list_elem_of_lookup in Hp as [i Hi]. left.
    rewrite (Hhands i p Hi), length_take, length_drop, length_seq.
    pose proof (lookup_lt_Some _ _ _ Hi). lia. }
  rewrite HplC, Hliving.
  pose proof (seats_from_head ps idx first Hidx) as Hhead.
  assert (Hlen : length (seats_from ps idx) = length ps).
  { unfold seats_from. by rewrite length_fmap, length_seq. }
  destruct (seats_from ps idx) as [|m [|second others]] eqn:Hseats;
    [simpl in Hlen; lia..|].
  injection Hhead as ->.
  exists n0, sv, idx, first, second, others. simpl.
  assert (Hcard : ∀ b, card stC b = card stB b) by (intros b; unfold card; by rewrite HcC).
  split_and!; try done; try apply Hsize.
  - rewrite HcC, HlB, HcA. rewrite !length_app, length_replicate. simpl. lia.
  - rewrite HgC. simpl. by rewrite HgB, HgA.
  - rewrite HgC. simpl. by rewrite HgB, HgA.
  - rewrite HgC. simpl. by rewrite HgB, HgA.
  - rewrite HgC. simpl. by rewrite HgB, HgA.
  - intros i p Hi. unfold hand_of, person in *. simpl.
    rewrite (Hhands i p Hi), drop_seq, take_seq. f_equal.
    pose proof (lookup_lt_Some _ _ _ Hi). lia.
  - rewrite Hdeck. by rewrite drop_seq.
  - unfold card in *. simpl. rewrite Hcard. rewrite HcB.
    rewrite decide_True.
    2:{ split; [apply elem_of_seq; lia|]. rewrite HcA, !length_app, length_replicate.
        simpl. lia. }
    rewrite HcA. rewrite app_assoc.
    rewrite lookup_total_app_r by (rewrite length_app, length_replicate; lia).
    rewrite length_app, length_replicate.
    replace (n0 + 35 - (length (cards st0) + 35)) with 0 by lia. done.
  - intros k Hk. unfold card in *. simpl. rewrite Hcard. rewrite HcB.
    rewrite decide_True.
    2:{ split; [apply elem_of_seq; lia|]. rewrite HcA, !length_app, length_replicate.
        simpl. lia. }
    rewrite HcA. rewrite lookup_total_app_r by lia.
    rewrite lookup_total_app_l by (rewrite length_replicate; lia).
    replace (n0 + k - length (cards st0)) with k by lia.
    rewrite lookup_total_replicate_2 by lia. done.
  - rewrite HgC. simpl. by rewrite HgB, HgA.
Qed.

(** X10.  [GameTree.__init__] on new players (distinct objects with an
    empty hand).  With fewer than two or more than six players it
    raises [AssertionError] right after storing the players.  When the
    deal stands: the collection is 36 new card objects, the bottom card
    is the last of them, is public and known, is one of the 36
    identities and is not an ace, and every card has the suit of the
    bottom card as [trump_suit]; the other 35 cards are unknown.  The
    players hold six cards each, dealt from the top of the deck in the
    order of the players, and the rest is the deck.  The game has not
    ended, the phase is the attack with an empty table and an empty
    history; the player named [main_attacker] attacks first, the next
    seat defends, the others attack after, and the draw order is the
    attackers followed by the defender. *)
Theorem GameTree_init_deals fuel rnd ps shuffle main info st0 :
  (¬ 2 ≤ length ps ≤ 6 →
   GameTree_init (S fuel) rnd ps shuffle main info st0
   = Raise AssertionError (upd_game (set_players ps) st0)) ∧
  (∀ st,
   new_players st0 ps →
   is_end_state (game st0) = false →
   GameTree_init fuel rnd ps shuffle main info st0 = Ok true st →
   ∃ n0 sv idx first second others,
    2 ≤ length ps ≤ 6 ∧
    length (cards st) = n0 + 36 ∧
    players (game st) = ps ∧
    computer_shuffle (game st) = shuffle ∧ print_info (game st) = info ∧
    history (game st) = [] ∧
    card_collection (game st) = seq n0 36 ∧
    (∀ i p, ps !! i = Some p → hand_of st p = seq (n0 + 6 * i) 6) ∧
    deck (game st) = seq (n0 + 6 * length ps) (36 - 6 * length ps) ∧
    sv ∈ all_cards ∧ sv.2 ≠ Some 8 ∧
    card st (n0 + 35) = Card.mk sv.1 sv.2 sv.1 true false false ∧
    (∀ k, k < 35 → card st (n0 + k) = Card.mk None None sv.1 false false true) ∧
    is_end_state (game st) = false ∧ current_action (game st) = Phase.Attack ∧
    cards_to_defend (game st) = [] ∧ pairs_finished (game st) = [] ∧
    list_find (λ p, name (person st0 p) = main) ps = Some (idx, first) ∧
    seats_from ps idx = first :: second :: others ∧
    attackers (game st) = first :: others ∧
    defender (game st) = Some second ∧
    player_to_play (game st) = Some first ∧
    current_attacker (game st) = 0 ∧
    draw_order (game st) = (first :: others) ++ [second]).
Proof.
  split.
  - intros Hsize. cbn [GameTree_init].
    unfold mbind at 1, M_bind at 1, assign at 1, modify at 1.
    unfold mbind at 1, M_bind at 1. by rewrite decide_False.
  - intros st Hnew Hend Hinit. by eapply init_deals.
Qed.

Lemma GameTree_init_deals_witness :
  new_players Example.start [0; 1] ∧
  ∃ st, GameTree_init 3 Example.rnd0 [0; 1] true "A" true Example.start = Ok true st ∧
        deck (game st) = seq (length (cards st) - 36 + 12) 24.
Proof.
  assert (Hnew : new_players Example.start [0; 1]).
  { split; [apply (bool_decide_unpack _); by vm_compute|].
    intros p Hp. apply elem_of_cons in Hp as [->|Hp]; [by split; [simpl; lia|]|].
    apply list_elem_of_singleton in Hp as ->. by split; [simpl; lia|]. }
  split; [exact Hnew|]. exists Example.dealt. split; [by vm_compute|].
  destruct (GameTree_init_deals 3 Example.rnd0 [0; 1] true "A" true Example.start)
    as [_ Hdeals].
  destruct (Hdeals Example.dealt Hnew) as (n0 & sv & idx & first & second & others & H);
    [by vm_compute..|].
  destruct H as (_ & Hlen & _ & _ & _ & _ & _ & _ & Hdeck & _).
  rewrite Hdeck, Hlen. f_equal. simpl length. lia.
Defined.
(** ** The copy mirrors the original *)

(** The dict and the list that a copying loop builds, for a [copy] that
    allocates one object at the next free address [size]. *)
Lemma copy_all_ids (copy : nat → M nat) (size : State → nat) :
  (∀ x s, ∃ s', copy x s = Ok (size s) s' ∧ size s' = S (size s)) →
  ∀ originals ids copies st,
    ∃ ids' st',
      copy_all copy originals ids copies st
      = Ok (ids', copies ++ seq (size st) (length originals)) st' ∧
      st' = state_of (map_M copy originals st) ∧
      size st' = size st + length originals ∧
      (∀ a, a ∉ originals → ids' !! a = ids !! a) ∧
      (∀ a, a ∈ originals → is_Some (ids' !! a)) ∧
      (NoDup originals → ∀ i a, originals !! i = Some a → ids' !! a = Some (size st + i)).
Proof.
  intros Hcopy. induction originals as [|x l IH]; intros ids copies st.
  - exists ids, st. split_and!.
    + cbn [copy_all length seq]. by rewrite app_nil_r.
    + done.
    + cbn [length]. lia.
    + done.
    + intros a Ha. by apply elem_of_nil in Ha.
    + intros _ i a Hi. by rewrite lookup_nil in Hi.
  - destruct (Hcopy x st) as (s1 & Hx & Hs1).
    destruct (IH (<[x := size st]> ids) (copies ++ [size st]) s1)
      as (ids' & st' & Hrun & Hstate & Hsize & Hout & Hin & Hidx).
    exists ids', st'. split_and!.
    + cbn [copy_all]. unfold mbind at 1, M_bind at 1. rewrite Hx, Hrun.
      rewrite <- app_assoc. cbn [length seq app]. by rewrite Hs1.
    + unfold map_M; fold (@map_M nat nat). unfold mbind at 1, M_bind at 1. rewrite Hx.
      unfold mbind at 1, M_bind at 1. rewrite Hstate.
      by destruct (map_M copy l s1).
    + rewrite Hsize, Hs1. cbn [length]. lia.
    + intros a Ha. apply not_elem_of_cons in Ha as [Hne Ha].
      rewrite Hout by done. by rewrite lookup_insert_ne.
    + intros a [Hax|Ha]%elem_of_cons; [|by apply Hin]. subst a.
      destruct (decide (x ∈ l)); [by apply Hin|].
      rewrite Hout by done. rewrite lookup_insert_eq. by eexists.
    + intros Hnd i a Hi. apply NoDup_cons in Hnd as [Hx' Hnd].
      destruct i as [|i]; simpl in Hi.
      * injection Hi as <-. rewrite Hout by done.
        rewrite lookup_insert_eq. f_equal. lia.
      * rewrite (Hidx Hnd i a Hi), Hs1. f_equal. lia.
Qed.

Lemma map_M_Player_make_copy l : ∀ st,
  (∀ p, p ∈ l → p < length (persons st)) →
  map_M Player_make_copy l st
  = Ok (seq (length (persons st)) (length l))
       (mkState (cards st)
          (persons st ++ ((λ p, mkPlayer (name (person st p)) (hand_of st p)) <$> l))
          (game st)).
Proof.
  induction l as [|p l IH]; intros st Hvalid.
  - unfold map_M. simpl. unfold mret, M_ret. rewrite app_nil_r. by destruct st.
  - unfold map_M; fold (@map_M nat nat).
    unfold mbind at 1, M_bind at 1, Player_make_copy at 1.
    unfold mbind at 1, M_bind at 1, get_state at 1, alloc_person at 1.
    unfold mbind at 1, M_bind at 1. rewrite IH.
    + unfold mret, M_ret. simpl. rewrite length_app. simpl.
      rewrite Nat.add_1_r. f_equal. f_equal. rewrite <- app_assoc. simpl. do 2 f_equal.
      apply list_fmap_ext. intros i q Hq.
      assert (Hlt : q < length (persons st)).
      { apply Hvalid. right. by eapply list_elem_of_lookup_2. }
      unfold hand_of, person. simpl. by rewrite lookup_total_app_l.
    + intros q Hq. simpl. rewrite length_app. simpl.
      assert (q < length (persons st)) by (apply Hvalid; by right). lia.
Qed.

Lemma map_M_Card_make_copy l : ∀ st,
  (∀ a, a ∈ l → a < length (cards st)) →
  map_M Card_make_copy l st
  = Ok (seq (length (cards st)) (length l))
       (mkState (cards st ++ ((λ a, Card.make_copy (card st a)) <$> l))
          (persons st) (game st)).
Proof.
  induction l as [|a l IH]; intros st Hvalid.
  - unfold map_M. simpl. unfold mret, M_ret. rewrite app_nil_r. by destruct st.
  - unfold map_M; fold (@map_M nat nat).
    unfold mbind at 1, M_bind at 1, Card_make_copy at 1.
    unfold mbind at 1, M_bind at 1, get_state at 1, alloc_card at 1.
    unfold mbind at 1, M_bind at 1. rewrite IH.
    + unfold mret, M_ret. simpl. rewrite length_app. simpl.
      rewrite Nat.add_1_r. f_equal. f_equal. rewrite <- app_assoc. simpl. do 2 f_equal.
      apply list_fmap_ext. intros i b Hb.
      assert (Hlt : b < length (cards st)).
      { apply Hvalid. right. by eapply list_elem_of_lookup_2. }
      unfold card. simpl. by rewrite lookup_total_app_l.
    + intros b Hb. simpl. rewrite length_app. simpl.
      assert (b < length (cards st)) by (apply Hvalid; by right). lia.
Qed.

Lemma remap_Forall2 ids l :
  (∀ a, a ∈ l → is_Some (ids !! a)) →
  ∃ l', remap ids l = Val l' ∧ Forall2 (λ a b, ids !! a = Some b) l l'.
Proof.
  induction l as [|a l IH]; intros Hdom; [by exists []|].
  destruct (Hdom a) as [b Hb]; [by left|].
  destruct IH as (l' & Hl' & Hall); [intros x Hx; apply Hdom; by right|].
  exists (b :: l'). split; [|by constructor].
  cbn [remap]. unfold lookup_id. rewrite Hb. cbn [mbind res_bind]. by rewrite Hl'.
Qed.

Lemma remap_pairs_Forall2 ids (l : list (nat * nat)) :
  (∀ a, a ∈ flatten_pairs l → is_Some (ids !! a)) →
  ∃ l', remap_pairs ids l = Val l' ∧
        Forall2 (λ p q, ids !! p.1 = Some q.1 ∧ ids !! p.2 = Some q.2) l l'.
Proof.
  induction l as [|[a0 a1] l IH]; intros Hdom; [by exists []|].
  destruct (Hdom a0) as [b0 Hb0]; [by left|].
  destruct (Hdom a1) as [b1 Hb1]; [right; by left|].
  destruct IH as (l' & Hl' & Hall).
  { intros x Hx. apply Hdom. unfold flatten_pairs in *. simpl. by do 2 right. }
  exists ((b0, b1) :: l'). split; [|by constructor].
  cbn [remap_pairs]. unfold lookup_id. simpl. rewrite Hb0. cbn [mbind res_bind].
  rewrite Hb1. cbn [mbind res_bind]. by rewrite Hl'.
Qed.

Lemma remap_hands_exact card_ids originals : ∀ copies st,
  length originals = length copies → NoDup copies →
  (∀ p q, p ∈ originals → q ∈ copies → p ≠ q) →
  (∀ q, q ∈ copies → q < length (persons st)) →
  (∀ p a, p ∈ originals → a ∈ hand_of st p → is_Some (card_ids !! a)) →
  ∃ st', remap_hands card_ids originals copies st = Ok tt st' ∧
    cards st' = cards st ∧ game st' = game st ∧
    length (persons st') = length (persons st) ∧
    (∀ q, name (person st' q) = name (person st q)) ∧
    (∀ q, q ∉ copies → hand_of st' q = hand_of st q) ∧
    (∀ i p q, originals !! i = Some p → copies !! i = Some q →
       Forall2 (λ a b, card_ids !! a = Some b) (hand_of st p) (hand_of st' q)).
Proof.
  induction originals as [|p originals IH]; intros [|copy_p copies] st Hlen Hnd Hsep Hvalid Hdom;
    try done.
  - exists st. split_and!; done.
  - apply NoDup_cons in Hnd as [Hnotin Hnd].
    destruct (remap_Forall2 card_ids (hand_of st p)) as (h & Hh & Hall).
    { intros a Ha. eapply Hdom; [by left|done]. }
    set (st1 := set_hand copy_p h st).
    assert (Hlt : copy_p < length (persons st)) by (apply Hvalid; by left).
    assert (Hkeep : ∀ q, q ≠ copy_p → hand_of st1 q = hand_of st q).
    { intros q Hq. unfold st1. by rewrite hand_of_set_hand_ne. }
    destruct (IH copies st1) as (st' & Hrun & Hc & Hg & Hl & Hn & Hout & Hin).
    + simpl in Hlen. lia.
    + done.
    + intros p' q Hp' Hq. apply Hsep; by right.
    + intros q Hq. unfold st1. rewrite length_persons_set_hand. apply Hvalid. by right.
    + intros p' a Hp' Ha. rewrite Hkeep in Ha.
      * eapply Hdom; [by right|done].
      * apply Hsep; [by right|by left].
    + exists st'. split_and!.
      * cbn [remap_hands]. unfold mbind at 1, M_bind at 1, get_state at 1.
        unfold mbind at 1, M_bind at 1, lift at 1. rewrite Hh.
        unfold mbind at 1, M_bind at 1, modify at 1. fold st1. exact Hrun.
      * by rewrite Hc.
      * by rewrite Hg.
      * rewrite Hl. unfold st1. apply length_persons_set_hand.
      * intros q. rewrite Hn. unfold st1. apply name_set_hand.
      * intros q Hq. apply not_elem_of_cons in Hq as [Hne Hq].
        rewrite Hout by done. by apply Hkeep.
      * intros [|i] p' q Hp' Hq; simpl in Hp', Hq.
        -- injection Hp' as <-. injection Hq as <-. rewrite Hout by done.
           unfold st1. by rewrite hand_of_set_hand_eq.
        -- rewrite <- (Hkeep p').
           ++ by eapply Hin.
           ++ apply Hsep; [right; by eapply list_elem_of_lookup_2|by left].
Qed.

Lemma Forall2_copy_of (ids : gmap nat nat) originals base l l' :
  (∀ i a, originals !! i = Some a → ids !! a = Some (base + i)) →
  (∀ a, a ∈ l → a ∈ originals) →
  Forall2 (λ a b, ids !! a = Some b) l l' →
  Forall2 (copy_of originals base) l l'.
Proof.
  intros Hidx Hsub Hall. induction Hall as [|a b l l' Hab Hall IH]; [constructor|].
  constructor.
  - destruct (proj1 (list_elem_of_lookup _ _) (Hsub a ltac:(by left))) as [i Hi].
    exists i. split; [done|]. rewrite (Hidx i a Hi) in Hab. by injection Hab.
  - apply IH. intros x Hx. apply Hsub. by right.
Qed.

Lemma copy_of_lookup (ids : gmap nat nat) originals base a b :
  (∀ i a, originals !! i = Some a → ids !! a = Some (base + i)) →
  a ∈ originals → ids !! a = Some b → copy_of originals base a b.
Proof.
  intros Hidx [i Hi]%list_elem_of_lookup Hab. exists i. split; [done|].
  rewrite (Hidx i a Hi) in Hab. by injection Hab.
Qed.

Lemma Player_make_copy_alloc x s :
  ∃ s', Player_make_copy x s = Ok (length (persons s)) s' ∧
        length (persons s') = S (length (persons s)).
Proof.
  eexists. split; [reflexivity|]. simpl. rewrite length_app. simpl. lia.
Qed.

Lemma Card_make_copy_alloc x s :
  ∃ s', Card_make_copy x s = Ok (length (cards s)) s' ∧
        length (cards s') = S (length (cards s)).
Proof.
  eexists. split; [reflexivity|]. simpl. rewrite length_app. simpl. lia.
Qed.

Lemma make_deepcopy_exact st p0 :
  let S := game st in
  let np := length (persons st) in
  let n := length (players S) in
  let nc := length (cards st) in
  let cc := copy_of (card_collection S) nc in
  let pc := copy_of (players S) (np + n) in
  NoDup (players S) → (∀ p, p ∈ players S → p < np) →
  NoDup (card_collection S) → (∀ a, a ∈ card_collection S → a < nc) →
  attackers S ⊆ players S → draw_order S ⊆ players S →
  player_to_play S = Some p0 → p0 ∈ players S →
  in_play st ⊆ card_collection S →
  ∃ T st1,
    make_deepcopy st = Ok T st1 ∧
    cards st1 = cards st ++ ((λ a, Card.make_copy (card st a)) <$> card_collection S) ∧
    game st1 = S ∧
    card_collection T = seq nc (length (card_collection S)) ∧
    players T = seq (np + n) n ∧
    Forall2 cc (deck S) (deck T) ∧
    Forall2 cc (cards_to_defend S) (cards_to_defend T) ∧
    Forall2 (λ p q, cc p.1 q.1 ∧ cc p.2 q.2) (pairs_finished S) (pairs_finished T) ∧
    Forall2 pc (attackers S) (attackers T) ∧
    Forall2 pc (draw_order S) (draw_order T) ∧
    (∃ q0, player_to_play T = Some q0 ∧ pc p0 q0) ∧
    (∀ d, defender S = Some d → d ∈ players S →
          ∃ d', defender T = Some d' ∧ pc d d') ∧
    (∀ p q, pc p q →
       name (person st1 q) = name (person st p) ∧
       Forall2 cc (hand_of st p) (hand_of st1 q)) ∧
    history T = history S ∧ current_action T = current_action S ∧
    current_attacker T = current_attacker S ∧
    attacker_to_start_throwing T = attacker_to_start_throwing S ∧
    reflected_trumps T = reflected_trumps S ∧
    is_end_state T = is_end_state S ∧
    computer_shuffle T = computer_shuffle S ∧ print_info T = false.
Proof.
  intros S np n nc cc pc Hndp Hvp Hndc Hvc Hatt Hdraw Hptp Hp0 Hplay.
  (* the players are copied twice *)
  pose proof (map_M_Player_make_copy (players S) st Hvp) as H1.
  set (P := (λ p, mkPlayer (name (person st p)) (hand_of st p)) <$> players S) in *.
  set (s1 := mkState (cards st) (persons st ++ P) (game st)) in *.
  assert (HlenP : length P = n) by (unfold P; by rewrite length_fmap).
  assert (Hold1 : ∀ p, p < np → person s1 p = person st p).
  { intros p Hp. unfold person, s1. simpl. by rewrite lookup_total_app_l. }
  destruct (copy_all_ids Player_make_copy (λ s, length (persons s)) Player_make_copy_alloc
              (players S) ∅ [] s1) as (pids & s2 & H2 & Hs2 & _ & _ & Hpin & Hpidx).
  rewrite map_M_Player_make_copy in Hs2; last first.
  { intros p Hp. unfold s1. simpl. rewrite length_app. specialize (Hvp p Hp). lia. }
  simpl in Hs2, H2. rewrite length_app, HlenP in H2. fold np n in H2.
  specialize (Hpidx Hndp). simpl in Hpidx. rewrite length_app, HlenP in Hpidx.
  fold np in Hpidx.
  assert (Hold2 : ∀ p, p < np → person s2 p = person st p).
  { intros p Hp. rewrite Hs2. unfold person. simpl.
    rewrite <- app_assoc. by rewrite lookup_total_app_l. }
  assert (Hlen2 : length (persons s2) = np + n + n).
  { rewrite Hs2. simpl. rewrite !length_app, length_fmap, HlenP. done. }
  assert (Hnew2 : ∀ i p, players S !! i = Some p →
            persons s2 !! (np + n + i) = Some (mkPlayer (name (person st p)) (hand_of st p))).
  { intros i p Hi. rewrite Hs2. simpl.
    rewrite lookup_app_r by (rewrite length_app, HlenP; lia).
    rewrite length_app, HlenP.
    replace (np + n + i - (length (persons st) + n)) with i by (unfold np; lia).
    rewrite list_lookup_fmap, Hi. simpl. f_equal.
    assert (Hp : p < np) by (apply Hvp; by eapply list_elem_of_lookup_2).
    unfold hand_of. rewrite (Hold1 p Hp). done. }
  (* the seats *)
  destruct (remap_Forall2 pids (attackers S)) as (new_att & Hatt' & Hatt2).
  { intros a Ha. apply Hpin. by apply Hatt. }
  destruct (remap_Forall2 pids (draw_order S)) as (new_draw & Hdraw' & Hdraw2).
  { intros a Ha. apply Hpin. by apply Hdraw. }
  destruct (Hpin p0 Hp0) as [q0 Hq0].
  (* the cards *)
  destruct (copy_all_ids Card_make_copy (λ s, length (cards s)) Card_make_copy_alloc
              (card_collection S) ∅ [] s2) as (cids & s4 & H4 & Hs4 & _ & _ & Hcin & Hcidx).
  assert (Hc2 : cards s2 = cards st) by by rewrite Hs2.
  rewrite map_M_Card_make_copy in Hs4 by (intros a Ha; rewrite Hc2; by apply Hvc).
  simpl in Hs4, H4. rewrite Hc2 in H4, Hs4. fold nc in H4.
  specialize (Hcidx Hndc). simpl in Hcidx. rewrite Hc2 in Hcidx. fold nc in Hcidx.
  assert (Hcards4 : cards s4 = cards st ++ ((λ a, Card.make_copy (card st a))
                                           <$> card_collection S)).
  { rewrite Hs4. simpl. f_equal. apply list_fmap_ext. intros i a _.
    unfold card. by rewrite Hc2. }
  assert (Hp4 : persons s4 = persons s2) by by rewrite Hs4.
  assert (Hg4 : game s4 = S) by by rewrite Hs4, Hs2.
  (* the hands *)
  assert (Hhand4 : ∀ p, p < np → hand_of s4 p = hand_of st p).
  { intros p Hp. unfold hand_of, person. rewrite Hp4. by apply (f_equal hand), Hold2. }
  assert (Hsub : ∀ p a, p ∈ players S → a ∈ hand_of st p → a ∈ card_collection S).
  { intros p a Hp Ha. apply Hplay. unfold in_play. apply elem_of_app. right.
    apply elem_of_app. left. unfold hands. apply list_elem_of_bind. by exists p. }
  destruct (remap_hands_exact cids (players S) (seq (np + n) n) s4)
    as (s5 & H5 & Hc5 & Hg5 & Hl5 & Hn5 & Hout5 & Hin5).
  { by rewrite length_seq. }
  { apply NoDup_seq. }
  { intros p q Hp Hq%elem_of_seq. specialize (Hvp p Hp). lia. }
  { intros q Hq%elem_of_seq. rewrite Hp4, Hlen2. lia. }
  { intros p a Hp Ha. apply Hcin. rewrite Hhand4 in Ha by by apply Hvp. by eapply Hsub. }
  destruct (remap_Forall2 cids (deck S)) as (new_deck & Hdeck' & Hdeck2).
  { intros a Ha. apply Hcin, Hplay. unfold in_play. apply elem_of_app. by left. }
  destruct (remap_Forall2 cids (cards_to_defend S)) as (new_ctd & Hctd' & Hctd2).
  { intros a Ha. apply Hcin, Hplay. unfold in_play. rewrite !elem_of_app. tauto. }
  destruct (remap_pairs_Forall2 cids (pairs_finished S)) as (new_pairs & Hpairs' & Hpairs2).
  { intros a Ha. apply Hcin, Hplay. unfold in_play. rewrite !elem_of_app. tauto. }
  eexists _, s5. split.
  { unfold make_deepcopy.
    unfold mbind at 1, M_bind at 1, get_state at 1.
    unfold mbind at 1, M_bind at 1. fold S. rewrite H1. fold s1.
    unfold mbind at 1, M_bind at 1. rewrite H2.
    unfold mbind at 1, M_bind at 1, lift at 1. rewrite Hatt'.
    unfold mbind at 1, M_bind at 1, lift at 1. rewrite Hdraw'.
    unfold mbind at 1, M_bind at 1. rewrite Hptp.
    unfold lift at 1, lookup_id. rewrite Hq0.
    unfold mbind at 1, M_bind at 1. rewrite H4.
    unfold mbind at 1, M_bind at 1. rewrite H5.
    unfold mbind at 1, M_bind at 1, lift at 1. rewrite Hdeck'.
    unfold mbind at 1, M_bind at 1, lift at 1. rewrite Hctd'.
    unfold mbind at 1, M_bind at 1, lift at 1. rewrite Hpairs'.
    reflexivity. }
  simpl. split_and!; try done.
  - by rewrite Hc5.
  - by rewrite Hg5.
  - eapply Forall2_copy_of; [exact Hcidx| |exact Hdeck2].
    intros a Ha. apply Hplay. unfold in_play. apply elem_of_app. by left.
  - eapply Forall2_copy_of; [exact Hcidx| |exact Hctd2].
    intros a Ha. apply Hplay. unfold in_play. rewrite !elem_of_app. tauto.
  - assert (Hpf : ∀ a, a ∈ flatten_pairs (pairs_finished S) → a ∈ card_collection S).
    { intros a Ha. apply Hplay. unfold in_play. rewrite !elem_of_app. tauto. }
    clear -Hpairs2 Hcidx Hpf. induction Hpairs2 as [|p q l l' [H1 H2] Hall IH]; [constructor|].
    constructor.
    + split; (eapply copy_of_lookup; [exact Hcidx| |done]); apply Hpf.
      * by left.
      * right. by left.
    + apply IH. intros a Ha. apply Hpf. unfold flatten_pairs in *. simpl. by do 2 right.
  - eapply Forall2_copy_of; [exact Hpidx|exact Hatt|exact Hatt2].
  - eapply Forall2_copy_of; [exact Hpidx|exact Hdraw|exact Hdraw2].
  - exists q0. split; [done|]. by eapply copy_of_lookup.
  - intros d Hd Hdin. destruct (Hpin d Hdin) as [d' Hd'].
    exists d'. unfold get_id. rewrite Hd. simpl. split; [done|]. by eapply copy_of_lookup.
  - intros p q (i & Hi & ->).
    assert (Hq : seq (np + n) n !! i = Some (np + n + i)).
    { apply lookup_seq. split; [done|]. by eapply lookup_lt_Some. }
    assert (Hp : p < np) by (apply Hvp; by eapply list_elem_of_lookup_2).
    split.
    + rewrite Hn5. unfold person. rewrite Hp4.
      by rewrite (list_lookup_total_correct _ _ _ (Hnew2 i p Hi)).
    + specialize (Hin5 i p (np + n + i) Hi Hq). rewrite Hhand4 in Hin5 by done.
      eapply Forall2_copy_of; [exact Hcidx| |exact Hin5].
      intros a Ha. eapply Hsub; [|done]. by eapply list_elem_of_lookup_2.
Qed.

(** *** The cards of the collection exist *)

Lemma execute_action_steady a st :
  steady (upd_game (λ g, set_history (history g ++ [a]) g) st)
         (state_of (execute_action a st)).
Proof.
  set (st0 := upd_game (λ g, set_history (history g ++ [a]) g) st).
  assert (Hrest : ∃ rest : M unit, keeps rest ∧ execute_action a st = rest st0).
  { unfold execute_action. unfold mbind at 1, M_bind at 1, modify at 1. fold st0.
    eexists. split; [|reflexivity].
    destruct a.1;
      repeat first [apply keeps_refill | apply keeps_new_trick | apply keeps_rotate_seats
                   | apply keeps_next_attacker | apply keeps_throw_cards
                   | apply keeps_take_and_close | progress keep]. }
  destruct Hrest as (rest & Hkeeps & ->). apply Hkeeps.
Qed.

Lemma bind_unknown_length rnd cs : ∀ i unknown st st',
  bind_unknown rnd i unknown cs st = Ok tt st' → length (cards st') = length (cards st).
Proof.
  induction cs as [|a cs IH]; intros i unknown st st' Hrun.
  - by injection Hrun as <-.
  - cbn [bind_unknown] in Hrun.
    apply bind_Ok in Hrun as ([sv unknown'] & s & [_ ->]%lift_Ok & Hrun).
    apply bind_Ok in Hrun as (s & s0 & [= <- <-] & Hrun).
    apply bind_Ok in Hrun as (bound & s & [_ ->]%lift_Ok & Hrun).
    apply bind_Ok in Hrun as ([] & st1 & ->%modify_Ok & Hrun).
    apply IH in Hrun. by rewrite Hrun, length_cards_set_card.
Qed.

Lemma determinize_hand_length p rnd st st' :
  determinize_hand p rnd st = Ok tt st' → length (cards st') = length (cards st).
Proof.
  intros Hrun. unfold determinize_hand in Hrun.
  apply bind_Ok in Hrun as (s & s0 & [= <- <-] & Hrun).
  apply bind_Ok in Hrun as ([] & st1 & Hpub & Hrun).
  destruct (publish_known_cards (hand_of st p) st) as (st1' & Hpub' & _ & _ & Hl1 & _).
  rewrite Hpub in Hpub'. injection Hpub' as <-.
  case_decide.
  - apply bind_Ok in Hrun as (s & s0 & [= <- <-] & Hrun).
    apply bind_unknown_length in Hrun. by rewrite Hrun.
  - by injection Hrun as <-.
Qed.

Lemma reachable_collection_valid st :
  reachable st → ∀ a, a ∈ card_collection (game st) → a < length (cards st).
Proof.
  induction 1 as [st0 fuel rnd ps shuffle main info st Hblank Hnew Hinit
                 |st a acts st' _ IH Hend Hal Hin Hex
                 |st p rnd st' _ IH Hex
                 |st p rnd st' _ IH Hex
                 |st a st' _ IH Hex]; intros c Hc.
  - destruct (init_deals fuel rnd ps shuffle main info st0 st Hnew)
      as (n0 & sv & idx & first & second & others & _ & Hlen & _ & _ & _ & _ & Hcol & _);
      [by rewrite Hblank|done|].
    rewrite Hcol in Hc. apply elem_of_seq in Hc. lia.
  - pose proof (execute_action_steady a st) as (_ & Hcol & _ & _ & _ & Hlen & _).
    rewrite Hex in Hcol, Hlen. simpl in Hcol, Hlen. rewrite Hlen. apply IH.
    by rewrite <- Hcol.
  - unfold make_cards_known in Hex.
    apply bind_Ok in Hex as (s & s' & [= <- <-] & Hex).
    apply make_cards_known_loop_spec in Hex as (_ & Hg & Hl & _).
    rewrite Hl. apply IH. by rewrite <- Hg.
  - destruct (determinize_hand_frame p rnd st) as [_ Hg]. rewrite Hex in Hg. simpl in Hg.
    rewrite (determinize_hand_length _ _ _ _ Hex). apply IH. by rewrite <- Hg.
  - injection Hex as <-. unfold upd_card. rewrite length_cards_set_card. by apply IH.
Qed.

(** X11.  In every state a game goes through and that is not terminal,
    [make_deepcopy] returns.  It creates one copy of every card of the
    collection, with the same fields, and (after a first, unused round
    of copies) one copy of every player, with the same name.  The copy
    of the game lists the copies position by position: its collection
    and its players, its deck, its cards to defend, its finished pairs,
    its attackers and draw order, its player to play and its defender,
    and every hand of a copied player.  The history, the phase, the
    attacker indices, the reflected trumps and the flags are the same,
    except [print_info], which is off.  The original game is as it
    was. *)
Theorem make_deepcopy_mirrors st :
  reachable st → is_end_state (game st) = false →
  let g := game st in
  let nc := length (cards st) in
  let base := length (persons st) + length (players g) in
  let cc := copy_of (card_collection g) nc in
  let pc := copy_of (players g) base in
  ∃ T st1,
    make_deepcopy st = Ok T st1 ∧
    cards st1 = cards st ++ ((λ a, Card.make_copy (card st a)) <$> card_collection g) ∧
    game st1 = g ∧
    card_collection T = seq nc (length (card_collection g)) ∧
    players T = seq base (length (players g)) ∧
    Forall2 cc (deck g) (deck T) ∧
    Forall2 cc (cards_to_defend g) (cards_to_defend T) ∧
    Forall2 (λ p q, cc p.1 q.1 ∧ cc p.2 q.2) (pairs_finished g) (pairs_finished T) ∧
    Forall2 pc (attackers g) (attackers T) ∧
    Forall2 pc (draw_order g) (draw_order T) ∧
    (∃ p q, player_to_play g = Some p ∧ player_to_play T = Some q ∧ pc p q) ∧
    (∃ d d', defender g = Some d ∧ defender T = Some d' ∧ pc d d') ∧
    (∀ p q, pc p q →
       name (person st1 q) = name (person st p) ∧
       Forall2 cc (hand_of st p) (hand_of st1 q)) ∧
    history T = history g ∧ current_action T = current_action g ∧
    current_attacker T = current_attacker g ∧
    attacker_to_start_throwing T = attacker_to_start_throwing g ∧
    reflected_trumps T = reflected_trumps g ∧
    is_end_state T = is_end_state g ∧
    computer_shuffle T = computer_shuffle g ∧ print_info T = false.
Proof.
  intros Hreach Hend g nc base cc pc.
  pose proof (reachable_collection_valid st Hreach) as Hvalid.
  apply reachable_invariant in Hreach as [Hc Hs]. specialize (Hs Hend).
  destruct (player_seated _ Hs) as (p0 & Hp0 & Hp0in).
  destruct (defender_seated _ Hs) as (d & Hd & Hdin).
  destruct (make_deepcopy_exact st p0) as (T & st1 & Hrun & H);
    [apply Hc|apply Hc|apply Hc|done|apply Hs|apply Hs|done|done|apply Hc|].
  destruct H as (H1 & H2 & H3 & H4 & H5 & H6 & H7 & H8 & H9 & (q0 & Hq0 & Hpq) & Hdef & H10).
  destruct (Hdef d Hd Hdin) as (d' & Hd' & Hdd).
  exists T, st1. split_and!; try done; try apply H10.
  - by exists p0, q0.
  - by exists d, d'.
Qed.

Lemma make_deepcopy_mirrors_witness :
  reachable Example.attacked ∧
  ∃ T st1, make_deepcopy Example.attacked = Ok T st1 ∧
           history T = history (game Example.attacked) ∧
           card_collection T = seq 36 36.
Proof.
  split; [apply attacked_reachable|].
  destruct (make_deepcopy_mirrors Example.attacked attacked_reachable)
    as (T & st1 & Hrun & _ & _ & Hcol & H); [by vm_compute|].
  exists T, st1. split; [exact Hrun|]. split; [apply H|].
  rewrite Hcol. by vm_compute.
Defined.
(** ** can_throw: the greedy test is exact *)

Lemma pop_first_keeps c poss poss' q :
  pop_first c poss = Some poss' → q ∈ poss → c ∉ q → q ∈ poss'.
Proof.
  revert poss'. induction poss as [|p poss IH]; intros poss' H Hq Hc; simpl in H; [done|].
  case_decide as Hcp.
  - injection H as <-. apply elem_of_cons in Hq as [->|Hq]; done.
  - destruct (pop_first c poss) as [poss0|] eqn:Hp; [|done]. injection H as <-.
    apply elem_of_cons in Hq as [->|Hq]; [by left|]. right. by apply IH.
Qed.

Lemma pop_first_is_Some c poss p :
  p ∈ poss → c ∈ p → is_Some (pop_first c poss).
Proof.
  intros Hp Hc. destruct (pop_first c poss) eqn:H; [done|].
  by destruct (pop_first_None _ _ H p Hp).
Qed.

Lemma greedy_complete (K np : list ident) cs : ∀ slots m,
  NoDup cs →
  (∀ p, p ∈ slots → ∃ x, p = [x] ∧ x ∈ K) →
  (∀ c, c ∈ cs → c ∈ K → [c] ∈ slots) →
  (∀ c, c ∈ cs → c ∈ K ∨ c ∈ np) →
  length (unpinned K cs) ≤ m →
  greedy (slots ++ replicate m np) cs = true.
Proof.
  induction cs as [|c cs IH]; intros slots m Hnd Hslots Hhas Hall Hlen; [done|].
  apply NoDup_cons in Hnd as [Hc Hnd]. cbn [greedy]. rewrite pop_first_app.
  destruct (pop_first c slots) as [slots'|] eqn:Hpop.
  - assert (HcK : c ∈ K).
    { apply pop_first_Some in Hpop as [(p & Hp & Hcp) _].
      destruct (Hslots p Hp) as (x & -> & Hx). by apply list_elem_of_singleton in Hcp as ->. }
    apply IH; [done| | | |].
    + intros p Hp. apply Hslots. by apply (proj2 (pop_first_Some _ _ _ Hpop)).
    + intros c' Hc' HK. eapply pop_first_keeps; [exact Hpop| |].
      * apply Hhas; [by right|done].
      * intros ->%list_elem_of_singleton. done.
    + intros c' Hc'. apply Hall. by right.
    + unfold unpinned in *. by rewrite filter_cons_False in Hlen by (intros ?; done).
  - assert (HcK : c ∉ K).
    { intros HK. destruct (pop_first_is_Some c slots [c]) as [? H];
        [apply Hhas; [by left|done]|by left|congruence]. }
    destruct (Hall c) as [?|Hnp]; [by left|done|].
    unfold unpinned in Hlen. rewrite filter_cons_True in Hlen by done.
    destruct m as [|m]; [simpl in Hlen; lia|].
    rewrite pop_first_replicate, decide_True by done. simpl.
    apply IH; [done..| | |].
    + intros c' Hc' HK. apply Hhas; [by right|done].
    + intros c' Hc'. apply Hall. by right.
    + simpl in Hlen. unfold unpinned. lia.
Qed.

Lemma length_filter_split {A} (P : A → Prop) `{∀ x, Decision (P x)} (l : list A) :
  length l = length (filter P l) + length (filter (λ x, ¬ P x) l).
Proof.
  induction l as [|x l IH]; [done|]. rewrite !filter_cons.
  destruct (decide (P x)), (decide (¬ P x)); simpl; try done; lia.
Qed.

(** X12.  [can_throw] on a tuple of distinct identities, with the
    non-public identities as fallback, answers exactly whether the hand
    can serve the tuple: every identity is the identity of a known hand
    card or non-public, and the identities that no known hand card
    carries are at most as many as the unknown hand cards.  The greedy
    matching loses nothing.  A tuple longer than the hand is always
    refused. *)
Theorem can_throw_exact st p cs :
  (NoDup cs →
   can_throw st p (get_non_public_cards st) cs = true ↔
   (∀ c, c ∈ cs → c ∈ known_identities st (hand_of st p) ∨ c ∈ get_non_public_cards st) ∧
   length (unpinned (known_identities st (hand_of st p)) cs)
     ≤ length (unknown_in st (hand_of st p))) ∧
  (length (hand_of st p) < length cs →
   ∀ fallback, can_throw st p fallback cs = false).
Proof.
  set (K := known_identities st (hand_of st p)).
  set (hand_cards := card st <$> hand_of st p).
  set (poss := (λ c, [Card.identity c]) <$>
                 filter (λ c, Card.is_unknown c = false ∧ Card.identity c ∈ cs) hand_cards).
  set (fallback := length (filter (λ c, Card.is_unknown c = true) hand_cards)).
  assert (Hfb : fallback = length (unknown_in st (hand_of st p))).
  { unfold fallback, hand_cards, unknown_in. by rewrite length_filter_fmap. }
  split.
  - intros Hnd. split.
    + intros Hcan. by destruct (can_throw_throwable st p cs Hnd Hcan) as (_ & ? & ?).
    + intros [Hall Hlen]. unfold can_throw. fold hand_cards poss fallback.
      assert (Hhas : ∀ c, c ∈ cs → c ∈ K → [c] ∈ poss).
      { intros c Hc (a & Ha & Hk & Hid)%known_identities_elem.
        apply list_elem_of_fmap. exists (card st a). split; [by rewrite Hid|].
        apply list_elem_of_filter. split; [by rewrite Hid|].
        apply list_elem_of_fmap. by exists a. }
      assert (Hposs : length (filter (λ c, c ∈ K) cs) ≤ length poss).
      { rewrite <- (length_fmap (λ c, [c]) (filter _ cs)).
        apply submseteq_length, NoDup_submseteq.
        - apply NoDup_fmap; [by intros ?? [=]|]. by apply NoDup_filter.
        - intros s (c & -> & [HK Hc]%list_elem_of_filter)%list_elem_of_fmap. by apply Hhas. }
      pose proof (length_filter_split (λ c, c ∈ K) cs) as Hsplit.
      cbv beta in Hsplit. change (filter (λ x, ¬ x ∈ K) cs) with (unpinned K cs) in Hsplit.
      change (known_identities st (hand_of st p)) with K in Hlen.
      rewrite decide_False by lia.
      apply (greedy_complete K); [done| |done|done|lia].
      intros s (c & -> & [[Hk _] Hc]%list_elem_of_filter)%list_elem_of_fmap.
      exists (Card.identity c). split; [done|].
      apply list_elem_of_fmap in Hc as (a & -> & Ha). apply known_identities_elem. eauto.
  - intros Hlong fb. unfold can_throw. fold hand_cards poss fallback.
    rewrite decide_True; [done|].
    assert (length poss + fallback ≤ length hand_cards); [|unfold hand_cards in *;
      rewrite length_fmap in *; lia].
    unfold poss, fallback. rewrite length_fmap.
    rewrite (length_filter_split (λ c, Card.is_unknown c = true) hand_cards).
    assert (length (filter (λ c, Card.is_unknown c = false ∧ Card.identity c ∈ cs) hand_cards)
            ≤ length (filter (λ c, ¬ Card.is_unknown c = true) hand_cards)); [|lia].
    apply submseteq_length, sublist_submseteq.
    clear. induction hand_cards as [|c l IH]; [done|]. rewrite !filter_cons.
    destruct (decide (Card.is_unknown c = false ∧ Card.identity c ∈ cs)) as [[Hk _]|];
      destruct (decide (¬ Card.is_unknown c = true)) as [|Hn]; try done.
    + by constructor.
    + destruct Hn. congruence.
    + by constructor.
Qed.

Lemma can_throw_exact_witness :
  NoDup [(Some 1, Some 0); (Some 2, Some 0)] ∧
  can_throw Example.dealt 0 (get_non_public_cards Example.dealt)
    [(Some 1, Some 0); (Some 2, Some 0)] = true ∧
  length (unpinned (known_identities Example.dealt (hand_of Example.dealt 0))
            [(Some 1, Some 0); (Some 2, Some 0)])
    ≤ length (unknown_in Example.dealt (hand_of Example.dealt 0)).
Proof.
  assert (Hnd : NoDup [(Some 1, Some 0) : ident; (Some 2, Some 0)]).
  { apply (bool_decide_unpack _). by vm_compute. }
  assert (Hcan : can_throw Example.dealt 0 (get_non_public_cards Example.dealt)
                   [(Some 1, Some 0); (Some 2, Some 0)] = true) by by vm_compute.
  split; [exact Hnd|]. split; [exact Hcan|].
  destruct (can_throw_exact Example.dealt 0 [(Some 1, Some 0); (Some 2, Some 0)])
    as [Hexact _].
  exact (proj2 (proj1 (Hexact Hnd) Hcan)).
Defined.
(** ** Drawing after a trick *)

Lemma refill_loop_fills l : ∀ st,
  (∀ p, p ∈ l → p < length (persons st)) →
  let st' := foldl (λ s p, fill p s) st l in
  (∀ p, p ∈ l → 6 ≤ length (hand_of st' p) ∨ deck (game st') = []) ∧
  (∀ q, hand_of st q `prefix_of` hand_of st' q) ∧
  deck (game st') `suffix_of` deck (game st) ∧
  cards st' = cards st ∧
  length (persons st') = length (persons st) ∧
  game st' = set_deck (deck (game st')) (game st).
Proof.
  induction l as [|p l IH]; intros st Hvalid; cbn [foldl].
  - split_and!; try done. + intros p Hp. by apply elem_of_nil in Hp.
    + by rewrite set_deck_same.
  - assert (Hp : p < length (persons st)) by (apply Hvalid; by left).
    destruct (IH (fill p st)) as (Hfull & Hpre & Hsuf & Hc & Hl & Hg).
    { intros q Hq. rewrite length_persons_fill. apply Hvalid. by right. }
    set (st' := foldl (λ s p, fill p s) (fill p st) l) in *.
    assert (Hfilled : 6 ≤ length (hand_of (fill p st) p) ∨ deck (game (fill p st)) = []).
    { rewrite fill_hand_of by done. rewrite decide_True by done.
      rewrite fill_deck, length_app, length_take.
      destruct (decide (6 - length (hand_of st p) ≤ length (deck (game st)))) as [Hle|Hgt].
      - left. lia.
      - right. apply drop_ge. lia. }
    split_and!.
    + intros q [->|Hq]%elem_of_cons; [|by apply Hfull].
      destruct Hfilled as [H6|Hempty].
      * left. etrans; [exact H6|]. apply prefix_length, Hpre.
      * right. destruct Hsuf as [k Hk]. rewrite Hempty in Hk.
        by destruct k, (deck (game st')).
    + intros q. etrans; [apply hand_of_fill_prefix|apply Hpre].
    + etrans; [exact Hsuf|]. rewrite fill_deck. apply suffix_drop.
    + by rewrite Hc.
    + by rewrite Hl, length_persons_fill.
    + rewrite Hg at 1. done.
Qed.

(** X13.  The refill after a trick never raises.  The players draw in
    the draw order, from the top of the deck: afterwards every player
    of the draw order holds at least six cards, or the deck is empty.
    Every hand keeps its cards in front of the cards drawn, the deck
    left is an end piece of the old deck, and only the hands and the
    deck change. *)
Theorem refill_fills_hands st :
  (∀ p, p ∈ draw_order (game st) → p < length (persons st)) →
  ∃ st', refill st = Ok tt st' ∧
    (∀ p, p ∈ draw_order (game st) →
          6 ≤ length (hand_of st' p) ∨ deck (game st') = []) ∧
    (∀ q, hand_of st q `prefix_of` hand_of st' q) ∧
    deck (game st') `suffix_of` deck (game st) ∧
    cards st' = cards st ∧
    length (persons st') = length (persons st) ∧
    game st' = set_deck (deck (game st')) (game st).
Proof.
  intros Hvalid. eexists. split; [apply refill_spec|].
  by apply refill_loop_fills.
Qed.

Lemma refill_fills_hands_witness :
  ∃ st', refill Example.defended = Ok tt st' ∧
         ∀ p, p ∈ draw_order (game Example.defended) →
              6 ≤ length (hand_of st' p) ∨ deck (game st') = [].
Proof.
  destruct (refill_fills_hands Example.defended) as (st' & Hrun & Hfull & _).
  - apply Forall_forall. apply (bool_decide_unpack _). by vm_compute.
  - exists st'. split; [exact Hrun|exact Hfull].
Defined.
(** ** The random player *)

Lemma choose_random_action_Val l d :
  choose_random_action l = Val d →
  l ≠ [] ∧
  (λ x : action, x.1) <$> d.*1 = (λ x : action, x.1) <$> l ∧
  (∀ xw, xw ∈ d → xw.2 = (1 # Pos.of_nat (length l))%Q) ∧
  (sumQ d.*2 == 1)%Q.
Proof.
  intros Hrun. destruct l as [|[k o] l]; [done|]. split; [done|].
  destruct o as [w|].
  - rewrite choose_random_action_cons_Some in Hrun.
    apply res_bind_Val in Hrun as (ws & Hws & [= <-]).
    set (stripped := ((k, None) : action) :: ((λ x : action, (x.1, None)) <$> l)).
    destruct (uniform_spec stripped) as (H1 & H2 & H3); [done|].
    split_and!; [| |done].
    + rewrite H1. unfold stripped. rewrite !fmap_cons. f_equal.
      rewrite <- list_fmap_compose. by apply list_fmap_ext.
    + intros xw Hxw. rewrite (H2 xw Hxw). unfold stripped. cbn [length].
      by rewrite length_fmap.
  - rewrite choose_random_action_cons_None in Hrun. injection Hrun as <-.
    destruct (uniform_spec (((k, None) : action) :: l)) as (H1 & H2 & H3); [done|].
    split_and!; [by rewrite H1|done..].
Qed.

(** X14.  When the computer shuffles and [Random.choose_action]
    returns, the player knows every card of the hand, the hands and the
    game are as before, and the action is drawn among the actions that
    [allowed_plays] returns in that state: every listed action (its
    kind and payload) is an outcome, one per entry, each with
    probability [1 / len], and nothing else is. *)
Theorem Random_choose_action_allowed p rnd st st1 d :
  computer_shuffle (game st) = true →
  Random_choose_action p rnd st = Ok d st1 →
  persons st1 = persons st ∧ game st1 = game st ∧
  (∀ a, a ∈ hand_of st p → a < length (cards st) →
        Card.is_unknown (card st1 a) = false) ∧
  ∃ acts,
    allowed_plays st1 = Val acts ∧ acts ≠ [] ∧
    (λ x : action, x.1) <$> d.*1 = (λ x : action, x.1) <$> acts ∧
    (∀ xw, xw ∈ d → xw.2 = (1 # Pos.of_nat (length acts))%Q) ∧
    (sumQ d.*2 == 1)%Q.
Proof.
  intros _ Hrun. unfold Random_choose_action in Hrun.
  apply bind_Ok in Hrun as ([] & s1 & Hknown & Hrun).
  apply bind_Ok in Hrun as (s & s0 & [= <- <-] & Hrun).
  apply bind_Ok in Hrun as (acts & s & [Hal ->]%lift_Ok & Hrun).
  apply lift_Ok in Hrun as [Hd ->].
  unfold make_cards_known in Hknown.
  apply bind_Ok in Hknown as (s & s0 & [= <- <-] & Hknown).
  apply make_cards_known_loop_spec in Hknown as (Hp & Hg & _ & _ & _ & Hin & _).
  split_and!; [done..|]. exists acts. split; [done|].
  by apply choose_random_action_Val.
Qed.

Lemma Random_choose_action_allowed_witness :
  computer_shuffle (game Example.dealt) = true ∧
  ∃ d st1, Random_choose_action 0 Example.rnd0 Example.dealt = Ok d st1 ∧
           game st1 = game Example.dealt.
Proof.
  split; [by vm_compute|].
  destruct (Random_choose_action 0 Example.rnd0 Example.dealt) as [d st1|] eqn:Hrun;
    [|by vm_compute in Hrun].
  exists d, st1. split; [reflexivity|].
  destruct (Random_choose_action_allowed 0 Example.rnd0 Example.dealt st1 d)
    as (_ & Hg & _); [by vm_compute|exact Hrun|exact Hg].
Defined.
